(** * Gauss-Seidel constraint solver (physics/solver/gs.go)

    A shallow embedding of [GaussSeidel.Solve] and of the numeric and
    container operations it relies on, followed by the properties of the
    solver that the specification states.

    Numbers are IEEE-754 binary32 values ([float32]), computed with the
    parameterised operations of [SpecFloat] at precision 24 and maximal
    exponent 128; every operation is rounded on its own (round to nearest,
    ties to even, no fused multiply-add), as on the default amd64 target.
    Slices keep their backing storage: a slice is its visible elements
    together with the spare capacity behind them, so that [s[0:0]] followed
    by [append] reuses stale storage as the Go runtime does.  An index out
    of range panics; a panic is the [None] of the option monad. *)

From Stdlib Require Import ZArith Bool List Lia.
From Stdlib Require Import Floats.SpecFloat.
From stdpp Require Import base option list strings.

Local Open Scope Z_scope.

(* ===================================================================== *)
(** ** float32 and float64 arithmetic *)
(* ===================================================================== *)

Definition float32 : Type := spec_float.
Definition float64 : Type := spec_float.

Module Float32.
Definition prec : Z := 24.
Definition emax : Z := 128.

Definition add : float32 -> float32 -> float32 := SFadd prec emax.
Definition sub : float32 -> float32 -> float32 := SFsub prec emax.
Definition mul : float32 -> float32 -> float32 := SFmul prec emax.
Definition div : float32 -> float32 -> float32 := SFdiv prec emax.
Definition ltb : float32 -> float32 -> bool := SFltb.
Definition leb : float32 -> float32 -> bool := SFleb.
Definition abs : float32 -> float32 := SFabs.

(** The constants [0] and [1.0] of the source. *)
Definition zero : float32 := S754_zero false.
Definition one : float32 := Eval cbv in binary_normalize prec emax 1 0 false.

(** Conversion of an integer and of a scaled integer [m * 2^e]. *)
Definition of_Z (z : Z) : float32 := binary_normalize prec emax z 0 false.
Definition of_scaled (m e : Z) : float32 := binary_normalize prec emax m e false.

Definition infinity : float32 := S754_infinity false.
Definition neg_infinity : float32 := S754_infinity true.

Definition is_nan (x : float32) : bool :=
  match x with S754_nan => true | _ => false end.

(** Neither an infinity nor a NaN. *)
Definition is_finite (x : float32) : bool :=
  match x with S754_zero _ | S754_finite _ _ _ => true | _ => false end.

Definition is_zero (x : float32) : bool :=
  match x with S754_zero _ => true | _ => false end.
End Float32.

Module Float64.
Definition prec : Z := 53.
Definition emax : Z := 1024.

Definition add : float64 -> float64 -> float64 := SFadd prec emax.
Definition div : float64 -> float64 -> float64 := SFdiv prec emax.

(** [float64(z)] for an integer [z]. *)
Definition of_Z (z : Z) : float64 := binary_normalize prec emax z 0 false.

(** The conversion [float32(x)]: the value is rounded again, to 24 bits. *)
Definition to_float32 (x : float64) : float32 :=
  match x with
  | S754_finite s m e => binary_round Float32.prec Float32.emax s m e
  | _ => x
  end.
End Float64.

(** [int] is 64 bits wide; an addition wraps around. *)
Module Int.
Definition min_int : Z := - 2 ^ 63.
Definition max_int : Z := 2 ^ 63 - 1.
Definition wrap (z : Z) : Z := (z + 2 ^ 63) mod 2 ^ 64 - 2 ^ 63.
Definition add (a b : Z) : Z := wrap (a + b).
End Int.

(** [time.Duration] is a count of nanoseconds; [Seconds] is
    [float64(d / Second) + float64(d % Second) / 1e9], with the truncating
    division of Go. *)
Module Duration.
Definition Second : Z := 1000000000.

Definition Seconds (d : Z) : float64 :=
  Float64.add (Float64.of_Z (Z.quot d Second))
              (Float64.div (Float64.of_Z (Z.rem d Second)) (Float64.of_Z Second)).
End Duration.

(* ===================================================================== *)
(** ** The value of a binary32 float *)
(* ===================================================================== *)

(** A binary32 value: the mantissa of a finite float has at most 24 bits,
    and exactly 24 unless the exponent is the least one. *)
Definition wellFormed (x : float32) : Prop :=
  valid_binary Float32.prec Float32.emax x = true.

(** The value of a finite float, in units of [2^-149], the smallest
    positive binary32 value; zeros, infinities and NaN are given [0]. *)
Definition scaled (x : float32) : Z :=
  match x with
  | S754_finite s m e => cond_Zopp s (Zpos m * 2 ^ (e + 149))
  | _ => 0
  end.



(* ===================================================================== *)
(** ** Slices *)
(* ===================================================================== *)

(** A slice is its [elems] (indices [0 .. len-1]) and the [spare] part of
    the backing array between [len] and [cap]. *)
Record slice (A : Type) : Type := mkSlice {
  elems : list A;
  spare : list A
}.
Arguments mkSlice {A} _ _.
Arguments elems {A} _.
Arguments spare {A} _.

Module Slice.
Section Ops.
Context {A : Type}.

(** [make([]A, 0)]. *)
Definition make0 : slice A := mkSlice [] [].

(** [s[0:0]]: length zero, storage kept. *)
Definition reslice0 (s : slice A) : slice A :=
  mkSlice [] (elems s ++ spare s).

(** [append(s, x)]: the next slot of the backing array is overwritten
    when there is capacity left; otherwise the elements move to a new
    array (whose capacity beyond the new length is not observable and
    is left empty here). *)
Definition append (s : slice A) (x : A) : slice A :=
  mkSlice (elems s ++ [x]) (tail (spare s)).

Definition len (s : slice A) : nat := length (elems s).

(** [s[j]] for a loop counter [j >= 0]. *)
Definition at_ (s : slice A) (j : nat) : option A := elems s !! j.

(** [s[j] = x] for a loop counter [j >= 0]. *)
Definition set_at (s : slice A) (j : nat) (x : A) : option (slice A) :=
  if decide (j < len s)%nat then Some (mkSlice (<[j := x]> (elems s)) (spare s))
  else None.

(** [s[i]] for an [int] index, which may be negative. *)
Definition index (s : slice A) (i : Z) : option A :=
  if decide (0 <= i) then at_ s (Z.to_nat i) else None.

(** [s[i] = x] for an [int] index. *)
Definition store (s : slice A) (i : Z) (x : A) : option (slice A) :=
  if decide (0 <= i) then set_at s (Z.to_nat i) x else None.
End Ops.
End Slice.

(* ===================================================================== *)
(** ** math32: vectors and matrices *)
(* ===================================================================== *)

Module math32.
Record Vector3 : Type := mkVector3 { X : float32; Y : float32; Z : float32 }.

(** [Matrix3] is [[9]float32], column-major. *)
Record Matrix3 : Type := mkMatrix3 {
  m0 : float32; m1 : float32; m2 : float32;
  m3 : float32; m4 : float32; m5 : float32;
  m6 : float32; m7 : float32; m8 : float32
}.

Definition zero3 : Vector3 := mkVector3 Float32.zero Float32.zero Float32.zero.

(** Modelled from the spec: [math32.Abs] is not among the sources; the
    absolute value clears the sign. *)
Definition Abs (v : float32) : float32 := Float32.abs v.

(** Modelled from the spec: [Vector3.Dot] is not among the sources; the
    scalar product of the specification's dot product, summed left to
    right. *)
Definition Dot (v other : Vector3) : float32 :=
  Float32.add (Float32.add (Float32.mul (X v) (X other)) (Float32.mul (Y v) (Y other)))
              (Float32.mul (Z v) (Z other)).

(** Modelled from the spec: [Vector3.Add] is not among the sources;
    componentwise [v += other]. *)
Definition Add (v other : Vector3) : Vector3 :=
  mkVector3 (Float32.add (X v) (X other)) (Float32.add (Y v) (Y other))
            (Float32.add (Z v) (Z other)).

(** Modelled from the spec: [Vector3.MultiplyScalar] is not among the
    sources; componentwise [v *= scalar]. *)
Definition MultiplyScalar (v : Vector3) (scalar : float32) : Vector3 :=
  mkVector3 (Float32.mul (X v) scalar) (Float32.mul (Y v) scalar)
            (Float32.mul (Z v) scalar).

(** Modelled from the spec: [Vector3.ApplyMatrix3] is not among the
    sources; the vector transformed by the matrix, [m * v]. *)
Definition ApplyMatrix3 (v : Vector3) (m : Matrix3) : Vector3 :=
  let x := X v in let y := Y v in let z := Z v in
  mkVector3
    (Float32.add (Float32.add (Float32.mul (m0 m) x) (Float32.mul (m3 m) y)) (Float32.mul (m6 m) z))
    (Float32.add (Float32.add (Float32.mul (m1 m) x) (Float32.mul (m4 m) y)) (Float32.mul (m7 m) z))
    (Float32.add (Float32.add (Float32.mul (m2 m) x) (Float32.mul (m5 m) y)) (Float32.mul (m8 m) z)).
End math32.

(* ===================================================================== *)
(** ** Equations and bodies *)
(* ===================================================================== *)

(** Modelled from the spec: the Jacobian element is not among the sources;
    it has a spatial and a rotational part, each handed out by value. *)
Record JacobianElement : Type := mkJacobianElement {
  Spatial : math32.Vector3;
  Rotational : math32.Vector3
}.

(** Modelled from the spec: [JacobianElement.MultiplyVectors] is not among
    the sources; the dot product of the 6-component row with the pair
    [(spatial, rotational)]. *)
Definition MultiplyVectors (je : JacobianElement) (spatial rotational : math32.Vector3) : float32 :=
  Float32.add (math32.Dot (Spatial je) spatial) (math32.Dot (Rotational je) rotational).

(** Modelled from the spec: the body capability is not among the sources;
    the solver reads its index, its inverse mass and its inverse inertia. *)
Record Body : Type := mkBody {
  Index : Z;
  InvMassSolve : float32;
  InvInertiaWorldSolve : math32.Matrix3
}.

(** Modelled from the spec: the equation capability is not among the
    sources; [ComputeC], [ComputeB], [Eps], [MinForce], [MaxForce], [JeA],
    [JeB], [BodyA] and [BodyB] are read, [multiplier] is the one field
    that [SetMultiplier] writes. *)
Record Equation : Type := mkEquation {
  BodyA : Body;
  BodyB : Body;
  ComputeC : float32;
  ComputeB : float32 -> float32;
  Eps : float32;
  MinForce : float32;
  MaxForce : float32;
  JeA : JacobianElement;
  JeB : JacobianElement;
  multiplier : float32
}.

Definition SetMultiplier (eq : Equation) (m : float32) : Equation :=
  mkEquation (BodyA eq) (BodyB eq) (ComputeC eq) (ComputeB eq) (Eps eq)
             (MinForce eq) (MaxForce eq) (JeA eq) (JeB eq) m.

(* ===================================================================== *)
(** ** The solver *)
(* ===================================================================== *)

(** The solver.  The entries of [equations] stand for distinct equation
    objects, and the bodies are reached through the equations. *)
Record GaussSeidel : Type := mkGaussSeidel {
  equations : list Equation;                       (* Solver *)
  VelocityDeltas : slice math32.Vector3;           (* Solution *)
  AngularVelocityDeltas : slice math32.Vector3;    (* Solution *)
  maxIter : Z;
  tolerance : float32;
  solveInvCs : slice float32;
  solveBs : slice float32;
  solveLambda : slice float32
}.

Definition with_equations (eqs : list Equation) (gs : GaussSeidel) : GaussSeidel :=
  mkGaussSeidel eqs (VelocityDeltas gs) (AngularVelocityDeltas gs) (maxIter gs)
                (tolerance gs) (solveInvCs gs) (solveBs gs) (solveLambda gs).

Definition with_VelocityDeltas (v : slice math32.Vector3) (gs : GaussSeidel) : GaussSeidel :=
  mkGaussSeidel (equations gs) v (AngularVelocityDeltas gs) (maxIter gs)
                (tolerance gs) (solveInvCs gs) (solveBs gs) (solveLambda gs).

Definition with_AngularVelocityDeltas (w : slice math32.Vector3) (gs : GaussSeidel) : GaussSeidel :=
  mkGaussSeidel (equations gs) (VelocityDeltas gs) w (maxIter gs)
                (tolerance gs) (solveInvCs gs) (solveBs gs) (solveLambda gs).

Definition with_solveInvCs (s : slice float32) (gs : GaussSeidel) : GaussSeidel :=
  mkGaussSeidel (equations gs) (VelocityDeltas gs) (AngularVelocityDeltas gs) (maxIter gs)
                (tolerance gs) s (solveBs gs) (solveLambda gs).

Definition with_solveBs (s : slice float32) (gs : GaussSeidel) : GaussSeidel :=
  mkGaussSeidel (equations gs) (VelocityDeltas gs) (AngularVelocityDeltas gs) (maxIter gs)
                (tolerance gs) (solveInvCs gs) s (solveLambda gs).

Definition with_solveLambda (s : slice float32) (gs : GaussSeidel) : GaussSeidel :=
  mkGaussSeidel (equations gs) (VelocityDeltas gs) (AngularVelocityDeltas gs) (maxIter gs)
                (tolerance gs) (solveInvCs gs) (solveBs gs) s.

(** [NewGaussSeidel]: ten iterations, tolerance [1e-7], empty buffers.  The
    equation list belongs to the embedded [Solver] and starts empty. *)
Definition NewGaussSeidel : GaussSeidel :=
  mkGaussSeidel [] Slice.make0 Slice.make0 10
                (Float32.div (Float32.of_Z 1) (Float32.of_Z 10000000))
                Slice.make0 Slice.make0 Slice.make0.

(** [Reset]: every buffer is cut to length zero. *)
Definition Reset (gs : GaussSeidel) : GaussSeidel :=
  mkGaussSeidel (equations gs)
                (Slice.reslice0 (VelocityDeltas gs))
                (Slice.reslice0 (AngularVelocityDeltas gs))
                (maxIter gs) (tolerance gs)
                (Slice.reslice0 (solveInvCs gs))
                (Slice.reslice0 (solveBs gs))
                (Slice.reslice0 (solveLambda gs)).

(** The loop [for i := 0; i < nBodies; i++] that appends a zero vector to
    both solution arrays; [n] counts the rounds that remain. *)
Fixpoint resetDeltas (n : nat) (gs : GaussSeidel) : GaussSeidel :=
  match n with
  | O => gs
  | S n' =>
      let gs := with_VelocityDeltas (Slice.append (VelocityDeltas gs) math32.zero3) gs in
      let gs := with_AngularVelocityDeltas (Slice.append (AngularVelocityDeltas gs) math32.zero3) gs in
      resetDeltas n' gs
  end.

(** The loop [for i := 0; i < nEquations; i++] over [eq := gs.equations[i]]
    that fills the three per-equation buffers. *)
Fixpoint precompute (h : float32) (eqs : list Equation) (gs : GaussSeidel) : GaussSeidel :=
  match eqs with
  | [] => gs
  | eq :: rest =>
      let gs := with_solveInvCs (Slice.append (solveInvCs gs) (Float32.div Float32.one (ComputeC eq))) gs in
      let gs := with_solveBs (Slice.append (solveBs gs) (ComputeB eq h)) gs in
      let gs := with_solveLambda (Slice.append (solveLambda gs) Float32.zero) gs in
      precompute h rest gs
  end.

(** The clamp of lines 113-117: the update that is applied for the
    unclamped [deltaLambda]. *)
Definition clamp (lambdaJ deltaLambda minForce maxForce : float32) : float32 :=
  if Float32.ltb (Float32.add lambdaJ deltaLambda) minForce then
    Float32.sub minForce lambdaJ
  else if Float32.ltb maxForce (Float32.add lambdaJ deltaLambda) then
    Float32.sub maxForce lambdaJ
  else deltaLambda.

(** [v[i].Add(d)]: the element is read and written in place. *)
Definition addAt (v : slice math32.Vector3) (i : Z) (d : math32.Vector3)
  : option (slice math32.Vector3) :=
  cur ← Slice.index v i;
  Slice.store v i (math32.Add cur d).

(** The body of the loop over the equations (lines 88-127) for equation
    [eq = gs.equations[j]]; the result carries the applied [deltaLambda]. *)
Definition eqStep (eq : Equation) (j : nat) (gs : GaussSeidel)
  : option (GaussSeidel * float32) :=
  lambdaJ ← Slice.at_ (solveLambda gs) j;
  let idxBodyA := Index (BodyA eq) in
  let idxBodyB := Index (BodyB eq) in
  vA ← Slice.index (VelocityDeltas gs) idxBodyA;
  vB ← Slice.index (VelocityDeltas gs) idxBodyB;
  wA ← Slice.index (AngularVelocityDeltas gs) idxBodyA;
  wB ← Slice.index (AngularVelocityDeltas gs) idxBodyB;
  let jeA := JeA eq in
  let jeB := JeB eq in
  let spatA := Spatial jeA in
  let spatB := Spatial jeB in
  let rotA := Rotational jeA in
  let rotB := Rotational jeB in
  let GWlambda := Float32.add (MultiplyVectors jeA vA wA) (MultiplyVectors jeB vB wB) in
  invC ← Slice.at_ (solveInvCs gs) j;
  b ← Slice.at_ (solveBs gs) j;
  let deltaLambda :=
    Float32.mul invC (Float32.sub (Float32.sub b GWlambda) (Float32.mul (Eps eq) lambdaJ)) in
  let deltaLambda := clamp lambdaJ deltaLambda (MinForce eq) (MaxForce eq) in
  cur ← Slice.at_ (solveLambda gs) j;
  lam ← Slice.set_at (solveLambda gs) j (Float32.add cur deltaLambda);
  let gs := with_solveLambda lam gs in
  v ← addAt (VelocityDeltas gs) idxBodyA
        (math32.MultiplyScalar spatA (Float32.mul (InvMassSolve (BodyA eq)) deltaLambda));
  let gs := with_VelocityDeltas v gs in
  v ← addAt (VelocityDeltas gs) idxBodyB
        (math32.MultiplyScalar spatB (Float32.mul (InvMassSolve (BodyB eq)) deltaLambda));
  let gs := with_VelocityDeltas v gs in
  w ← addAt (AngularVelocityDeltas gs) idxBodyA
        (math32.MultiplyScalar
           (math32.ApplyMatrix3 rotA (InvInertiaWorldSolve (BodyA eq))) deltaLambda);
  let gs := with_AngularVelocityDeltas w gs in
  w ← addAt (AngularVelocityDeltas gs) idxBodyB
        (math32.MultiplyScalar
           (math32.ApplyMatrix3 rotB (InvInertiaWorldSolve (BodyB eq))) deltaLambda);
  let gs := with_AngularVelocityDeltas w gs in
  Some (gs, deltaLambda).

(** The loop [for j := 0; j < nEquations; j++] of one pass, entered at
    counter [j] with the equations [gs.equations[j:]] still to visit and
    the total [deltaLambdaTot] so far. *)
Fixpoint eqLoop (eqs : list Equation) (j : nat) (gs : GaussSeidel) (deltaLambdaTot : float32)
  : option (GaussSeidel * float32) :=
  match eqs with
  | [] => Some (gs, deltaLambdaTot)
  | eq :: rest =>
      '(gs, deltaLambda) ← eqStep eq j gs;
      eqLoop rest (S j) gs (Float32.add deltaLambdaTot (math32.Abs deltaLambda))
  end.

(** One pass of the outer loop body: the total starts at zero. *)
Definition pass (gs : GaussSeidel) : option (GaussSeidel * float32) :=
  eqLoop (equations gs) 0%nat gs Float32.zero.

(** The loop [for iter = 0; iter < gs.maxIter; iter++] with its [break],
    entered with counter [iter] and [remaining = maxIter - iter] rounds
    left.  The result is the value of [iter] when the loop is left. *)
Fixpoint iterate (tolSquared : float32) (remaining : nat) (iter : Z) (gs : GaussSeidel)
  : option (Z * GaussSeidel) :=
  match remaining with
  | O => Some (iter, gs)
  | S remaining' =>
      '(gs, deltaLambdaTot) ← pass gs;
      if Float32.ltb (Float32.mul deltaLambdaTot deltaLambdaTot) tolSquared then
        Some (iter, gs)
      else iterate tolSquared remaining' (Int.add iter 1) gs
  end.

(** The loop [for i := range gs.equations] that stores the multipliers,
    entered at counter [i] with [eqs = gs.equations[i:]]. *)
Fixpoint setMultipliers (h : float32) (lambda : slice float32) (i : nat) (eqs : list Equation)
  : option (list Equation) :=
  match eqs with
  | [] => Some []
  | eq :: rest =>
      l ← Slice.at_ lambda i;
      rest' ← setMultipliers h lambda (S i) rest;
      Some (SetMultiplier eq (Float32.div l h) :: rest')
  end.

(** [Solve]: the iteration count and the solver after the call, or [None]
    when an index is out of range. *)
Definition Solve (frameDelta : Z) (nBodies : Z) (gs : GaussSeidel)
  : option (Z * GaussSeidel) :=
  let gs := Reset gs in
  let nEquations := length (equations gs) in
  let h := Float64.to_float32 (Duration.Seconds frameDelta) in
  let gs := resetDeltas (Z.to_nat nBodies) gs in
  let gs := precompute h (equations gs) gs in
  if decide (0 < nEquations)%nat then
    let tolSquared := Float32.mul (tolerance gs) (tolerance gs) in
    '(iter, gs) ← iterate tolSquared (Z.to_nat (maxIter gs)) 0 gs;
    eqs ← setMultipliers h (solveLambda gs) 0%nat (equations gs);
    let gs := with_equations eqs gs in
    Some (Int.add iter 1, gs)
  else Some (0, gs).

(* ===================================================================== *)
(** ** Equation objects and the positions that list them *)
(* ===================================================================== *)

(** [gs.equations] is a slice of interface values, each a reference to an
    equation object, and nothing keeps an object from being listed at more
    than one position.  At this level the field [equations] holds the
    objects, by address, and [refs] is the slice: the address found at each
    position.  A method is called through the address ([None] stands for
    the panic on a nil entry), and [SetMultiplier] writes the object, so
    that a write shows at every position that lists it.  [Solve] is the
    case in which the slice lists every object once, in order. *)

(** The loop [for i := 0; i < nEquations; i++] over [eq := gs.equations[i]]
    that fills the three per-equation buffers. *)
Fixpoint precomputeOn (h : float32) (refs : list nat) (gs : GaussSeidel) : option GaussSeidel :=
  match refs with
  | [] => Some gs
  | r :: rest =>
      eq ← equations gs !! r;
      let gs := with_solveInvCs (Slice.append (solveInvCs gs) (Float32.div Float32.one (ComputeC eq))) gs in
      let gs := with_solveBs (Slice.append (solveBs gs) (ComputeB eq h)) gs in
      let gs := with_solveLambda (Slice.append (solveLambda gs) Float32.zero) gs in
      precomputeOn h rest gs
  end.

(** The loop [for j := 0; j < nEquations; j++] of one pass, entered at
    counter [j] with the positions [gs.equations[j:]] still to visit. *)
Fixpoint eqLoopOn (refs : list nat) (j : nat) (gs : GaussSeidel) (deltaLambdaTot : float32)
  : option (GaussSeidel * float32) :=
  match refs with
  | [] => Some (gs, deltaLambdaTot)
  | r :: rest =>
      eq ← equations gs !! r;
      '(gs, deltaLambda) ← eqStep eq j gs;
      eqLoopOn rest (S j) gs (Float32.add deltaLambdaTot (math32.Abs deltaLambda))
  end.

Definition passOn (refs : list nat) (gs : GaussSeidel) : option (GaussSeidel * float32) :=
  eqLoopOn refs 0%nat gs Float32.zero.

(** The loop [for iter = 0; iter < gs.maxIter; iter++] with its [break]. *)
Fixpoint iterateOn (refs : list nat) (tolSquared : float32) (remaining : nat) (iter : Z)
         (gs : GaussSeidel) : option (Z * GaussSeidel) :=
  match remaining with
  | O => Some (iter, gs)
  | S remaining' =>
      '(gs, deltaLambdaTot) ← passOn refs gs;
      if Float32.ltb (Float32.mul deltaLambdaTot deltaLambdaTot) tolSquared then
        Some (iter, gs)
      else iterateOn refs tolSquared remaining' (Int.add iter 1) gs
  end.

(** The loop [for i := range gs.equations] of lines 138-140, entered at
    counter [i] with the positions [gs.equations[i:]] still to visit: the
    object that position [i] lists is written. *)
Fixpoint writeMultipliers (h : float32) (refs : list nat) (i : nat) (gs : GaussSeidel)
  : option GaussSeidel :=
  match refs with
  | [] => Some gs
  | r :: rest =>
      l ← Slice.at_ (solveLambda gs) i;
      eq ← equations gs !! r;
      writeMultipliers h rest (S i)
        (with_equations (<[r := SetMultiplier eq (Float32.div l h)]> (equations gs)) gs)
  end.

(** [Solve] on a solver whose slice [gs.equations] is [refs]. *)
Definition SolveOn (frameDelta : Z) (nBodies : Z) (refs : list nat) (gs : GaussSeidel)
  : option (Z * GaussSeidel) :=
  let gs := Reset gs in
  let nEquations := length refs in
  let h := Float64.to_float32 (Duration.Seconds frameDelta) in
  let gs := resetDeltas (Z.to_nat nBodies) gs in
  gs ← precomputeOn h refs gs;
  if decide (0 < nEquations)%nat then
    let tolSquared := Float32.mul (tolerance gs) (tolerance gs) in
    '(iter, gs) ← iterateOn refs tolSquared (Z.to_nat (maxIter gs)) 0 gs;
    gs ← writeMultipliers h refs 0%nat gs;
    Some (Int.add iter 1, gs)
  else Some (0, gs).

(** Position [k] is the last one that lists the object at address [r]. *)
Definition lastListing (refs : list nat) (r : nat) (k : nat) : Prop :=
  refs !! k = Some r ∧ ∀ k', (k < k')%nat → refs !! k' ≠ Some r.

(* ===================================================================== *)
(** ** The per-equation step, taken apart *)
(* ===================================================================== *)

(** The scalar [GWlambda] that equation [eq] reads off the solution arrays. *)
Definition GWlambdaOf (eq : Equation) (vA wA vB wB : math32.Vector3) : float32 :=
  Float32.add (MultiplyVectors (JeA eq) vA wA) (MultiplyVectors (JeB eq) vB wB).

(** The update before the clamp, from the cached [invC] and [b]. *)
Definition unclamped (eq : Equation) (invC b GWlambda lambdaJ : float32) : float32 :=
  Float32.mul invC (Float32.sub (Float32.sub b GWlambda) (Float32.mul (Eps eq) lambdaJ)).

(** The four impulses that the step adds to the solution arrays. *)
Definition impulseVA (eq : Equation) (dl : float32) : math32.Vector3 :=
  math32.MultiplyScalar (Spatial (JeA eq)) (Float32.mul (InvMassSolve (BodyA eq)) dl).
Definition impulseVB (eq : Equation) (dl : float32) : math32.Vector3 :=
  math32.MultiplyScalar (Spatial (JeB eq)) (Float32.mul (InvMassSolve (BodyB eq)) dl).
Definition impulseWA (eq : Equation) (dl : float32) : math32.Vector3 :=
  math32.MultiplyScalar
    (math32.ApplyMatrix3 (Rotational (JeA eq)) (InvInertiaWorldSolve (BodyA eq))) dl.
Definition impulseWB (eq : Equation) (dl : float32) : math32.Vector3 :=
  math32.MultiplyScalar
    (math32.ApplyMatrix3 (Rotational (JeB eq)) (InvInertiaWorldSolve (BodyB eq))) dl.

Arguments impulseVA : simpl never.
Arguments impulseVB : simpl never.
Arguments impulseWA : simpl never.
Arguments impulseWB : simpl never.

(** All that a successful step read, computed and wrote. *)
Inductive StepFacts (eq : Equation) (j : nat) (gs gs' : GaussSeidel) (dl : float32) : Prop :=
| mkStepFacts (lambdaJ : float32) (vA vB wA wB : math32.Vector3) (invC b : float32)
    (v1 w1 : slice math32.Vector3)
    (sf_read_lambda : elems (solveLambda gs) !! j = Some lambdaJ)
    (sf_read_vA : Slice.index (VelocityDeltas gs) (Index (BodyA eq)) = Some vA)
    (sf_read_vB : Slice.index (VelocityDeltas gs) (Index (BodyB eq)) = Some vB)
    (sf_read_wA : Slice.index (AngularVelocityDeltas gs) (Index (BodyA eq)) = Some wA)
    (sf_read_wB : Slice.index (AngularVelocityDeltas gs) (Index (BodyB eq)) = Some wB)
    (sf_read_invC : elems (solveInvCs gs) !! j = Some invC)
    (sf_read_b : elems (solveBs gs) !! j = Some b)
    (sf_dl : dl = clamp lambdaJ (unclamped eq invC b (GWlambdaOf eq vA wA vB wB) lambdaJ)
                    (MinForce eq) (MaxForce eq))
    (sf_lambda : elems (solveLambda gs') = <[j := Float32.add lambdaJ dl]> (elems (solveLambda gs)))
    (sf_lambda_spare : spare (solveLambda gs') = spare (solveLambda gs))
    (sf_addVA : addAt (VelocityDeltas gs) (Index (BodyA eq)) (impulseVA eq dl) = Some v1)
    (sf_addVB : addAt v1 (Index (BodyB eq)) (impulseVB eq dl) = Some (VelocityDeltas gs'))
    (sf_addWA : addAt (AngularVelocityDeltas gs) (Index (BodyA eq)) (impulseWA eq dl) = Some w1)
    (sf_addWB : addAt w1 (Index (BodyB eq)) (impulseWB eq dl) = Some (AngularVelocityDeltas gs'))
    (sf_equations : equations gs' = equations gs)
    (sf_maxIter : maxIter gs' = maxIter gs)
    (sf_tolerance : tolerance gs' = tolerance gs)
    (sf_invCs : solveInvCs gs' = solveInvCs gs)
    (sf_Bs : solveBs gs' = solveBs gs).

(* ===================================================================== *)
(** ** What the loops leave alone *)
(* ===================================================================== *)

(** [Frame gs gs']: the iteration turned [gs] into [gs'] without touching
    the equation list, the configuration or the cached coefficients, and
    without changing a length. *)
Record Frame (gs gs' : GaussSeidel) : Prop := mkFrame {
  fr_equations : equations gs' = equations gs;
  fr_maxIter : maxIter gs' = maxIter gs;
  fr_tolerance : tolerance gs' = tolerance gs;
  fr_invCs : solveInvCs gs' = solveInvCs gs;
  fr_Bs : solveBs gs' = solveBs gs;
  fr_lambda_len : length (elems (solveLambda gs')) = length (elems (solveLambda gs));
  fr_V_len : length (elems (VelocityDeltas gs')) = length (elems (VelocityDeltas gs));
  fr_W_len : length (elems (AngularVelocityDeltas gs')) = length (elems (AngularVelocityDeltas gs))
}.

(* ===================================================================== *)
(** ** The state that the iteration starts from *)
(* ===================================================================== *)

(** Lines 58-76: the buffers are cut, the solution arrays are refilled with
    zero vectors and the per-equation caches are recomputed. *)
Definition setup (h : float32) (nBodies : nat) (gs : GaussSeidel) : GaussSeidel :=
  let gs := Reset gs in
  let gs := resetDeltas nBodies gs in
  precompute h (equations gs) gs.

Definition timestep (frameDelta : Z) : float32 :=
  Float64.to_float32 (Duration.Seconds frameDelta).

Definition invCOf (eq : Equation) : float32 := Float32.div Float32.one (ComputeC eq).

(** The state at the head of the iteration. *)
Record Ready (h : float32) (nBodies : nat) (gs0 g : GaussSeidel) : Prop := mkReady {
  rd_equations : equations g = equations gs0;
  rd_maxIter : maxIter g = maxIter gs0;
  rd_tolerance : tolerance g = tolerance gs0;
  rd_V : elems (VelocityDeltas g) = replicate nBodies math32.zero3;
  rd_W : elems (AngularVelocityDeltas g) = replicate nBodies math32.zero3;
  rd_invCs : elems (solveInvCs g) = map invCOf (equations gs0);
  rd_Bs : elems (solveBs g) = map (λ eq, ComputeB eq h) (equations gs0);
  rd_lambda : elems (solveLambda g) = replicate (length (equations gs0)) Float32.zero
}.

(* ===================================================================== *)
(** ** Body indices in range *)
(* ===================================================================== *)

(** Both bodies of [eq] have an index in [[0, nBodies)]. *)
Definition indicesBelow (nBodies : nat) (eq : Equation) : Prop :=
  0 <= Index (BodyA eq) < Z.of_nat nBodies ∧ 0 <= Index (BodyB eq) < Z.of_nat nBodies.

(** There is an object at address [r], and both its bodies have an index
    in [[0, nBodies)]. *)
Definition listedBelow (nBodies : nat) (gs : GaussSeidel) (r : nat) : Prop :=
  ∃ eq, equations gs !! r = Some eq ∧ indicesBelow nBodies eq.

(* ===================================================================== *)
(** ** Equations up to their multiplier *)
(* ===================================================================== *)

(** Every field of an equation but [multiplier] is the same in [eq] and [eq']. *)
Definition sameButMultiplier (eq eq' : Equation) : Prop :=
  BodyA eq' = BodyA eq ∧ BodyB eq' = BodyB eq
  ∧ ComputeC eq' = ComputeC eq ∧ ComputeB eq' = ComputeB eq
  ∧ Eps eq' = Eps eq ∧ MinForce eq' = MinForce eq ∧ MaxForce eq' = MaxForce eq
  ∧ JeA eq' = JeA eq ∧ JeB eq' = JeB eq.

(* ===================================================================== *)
(** ** The updates that a call applies *)
(* ===================================================================== *)

(** The updates [deltaLambda] that one pass applies, in the order in which
    it applies them. *)
Fixpoint deltasOfLoop (eqs : list Equation) (j : nat) (gs : GaussSeidel) : list float32 :=
  match eqs with
  | [] => []
  | eq :: rest =>
      match eqStep eq j gs with
      | Some (gs', deltaLambda) => deltaLambda :: deltasOfLoop rest (S j) gs'
      | None => []
      end
  end.

(** The updates that the whole iteration applies. *)
Fixpoint deltasOfIterate (tolSquared : float32) (remaining : nat) (gs : GaussSeidel)
  : list float32 :=
  match remaining with
  | O => []
  | S remaining' =>
      deltasOfLoop (equations gs) 0%nat gs ++
      match pass gs with
      | Some (gs', deltaLambdaTot) =>
          if Float32.ltb (Float32.mul deltaLambdaTot deltaLambdaTot) tolSquared then []
          else deltasOfIterate tolSquared remaining' gs'
      | None => []
      end
  end.

(** The updates that a call of [Solve] applies. *)
Definition appliedDeltas (frameDelta nBodies : Z) (gs : GaussSeidel) : list float32 :=
  let g := setup (timestep frameDelta) (Z.to_nat nBodies) gs in
  deltasOfIterate (Float32.mul (tolerance g) (tolerance g)) (Z.to_nat (maxIter g)) g.

(* ===================================================================== *)
(** ** Bounds on the accumulated impulse *)
(* ===================================================================== *)

(** [minForce <= x <= maxForce], in float32 comparisons. *)
Definition within (minForce maxForce x : float32) : Prop :=
  Float32.leb minForce x = true ∧ Float32.leb x maxForce = true.



(** Every number of a vector, of a matrix, of a Jacobian element and of a
    body is a binary32 value. *)
Definition wfVec (v : math32.Vector3) : Prop :=
  wellFormed (math32.X v) ∧ wellFormed (math32.Y v) ∧ wellFormed (math32.Z v).

Definition wfMatrix (m : math32.Matrix3) : Prop :=
  wellFormed (math32.m0 m) ∧ wellFormed (math32.m1 m) ∧ wellFormed (math32.m2 m)
  ∧ wellFormed (math32.m3 m) ∧ wellFormed (math32.m4 m) ∧ wellFormed (math32.m5 m)
  ∧ wellFormed (math32.m6 m) ∧ wellFormed (math32.m7 m) ∧ wellFormed (math32.m8 m).

Definition wfJacobian (je : JacobianElement) : Prop :=
  wfVec (Spatial je) ∧ wfVec (Rotational je).

Definition wfBody (b : Body) : Prop :=
  wellFormed (InvMassSolve b) ∧ wfMatrix (InvInertiaWorldSolve b).

(** The numbers that the solver reads off the equation [eq] at the timestep
    [h] are binary32 values. *)
Definition wfEquation (h : float32) (eq : Equation) : Prop :=
  wfBody (BodyA eq) ∧ wfBody (BodyB eq)
  ∧ wellFormed (ComputeB eq h) ∧ wellFormed (Eps eq)
  ∧ wellFormed (MinForce eq) ∧ wellFormed (MaxForce eq)
  ∧ wfJacobian (JeA eq) ∧ wfJacobian (JeB eq).


(** [|x| < 2^k], for a finite [x]. *)
Definition magnitudeBelow (k : Z) (x : float32) : Prop :=
  Z.abs (scaled x) < 2 ^ (k + 149).

(** The larger of [|minForce|] and [|maxForce|], in units of [2^-149]. *)
Definition reach (minForce maxForce : float32) : Z :=
  Z.max (Z.abs (scaled minForce)) (Z.abs (scaled maxForce)).

(** An equation with finite bounds [minForce <= maxForce], both below
    [2^123] in magnitude. *)
Definition boxed (eq : Equation) : Prop :=
  Float32.is_finite (MinForce eq) = true ∧ Float32.is_finite (MaxForce eq) = true
  ∧ Float32.leb (MinForce eq) (MaxForce eq) = true
  ∧ magnitudeBelow 123 (MinForce eq) ∧ magnitudeBelow 123 (MaxForce eq).

(** [x] is a NaN, or it is finite with
    [minForce - d <= x <= maxForce + d] for [d = 2^-22 * max(|minForce|, |maxForce|)]. *)
Definition nearInterval (minForce maxForce x : float32) : Prop :=
  Float32.is_nan x = true
  ∨ (Float32.is_finite x = true ∧ wellFormed x
     ∧ 2 ^ 22 * (scaled minForce - scaled x) <= reach minForce maxForce
     ∧ 2 ^ 22 * (scaled x - scaled maxForce) <= reach minForce maxForce).





(* ===================================================================== *)
(** ** One pass, as the specification words it *)
(* ===================================================================== *)

(** The pass of step 5 of the specification, on the values alone: the
    accumulated impulses and the two solution arrays, with the coefficients
    [1/C_j] and [B_j(h)] taken from the equation itself. *)
Module Spec.
Record state : Type := mkState {
  lambda : list float32;
  velocityDelta : list math32.Vector3;
  angularVelocityDelta : list math32.Vector3
}.

Definition read {A : Type} (l : list A) (i : Z) : option A :=
  if decide (0 <= i) then l !! Z.to_nat i else None.

Definition addTo (l : list math32.Vector3) (i : Z) (d : math32.Vector3)
  : option (list math32.Vector3) :=
  cur ← read l i;
  Some (<[Z.to_nat i := math32.Add cur d]> l).

(** Steps a to f for equation [j]. *)
Definition update (h : float32) (eq : Equation) (j : nat) (st : state) (totalDelta : float32)
  : option (state * float32) :=
  velA ← read (velocityDelta st) (Index (BodyA eq));
  velB ← read (velocityDelta st) (Index (BodyB eq));
  angVelA ← read (angularVelocityDelta st) (Index (BodyA eq));
  angVelB ← read (angularVelocityDelta st) (Index (BodyB eq));
  let GWlambda :=
    Float32.add (MultiplyVectors (JeA eq) velA angVelA)
                (MultiplyVectors (JeB eq) velB angVelB) in
  lambdaJ ← lambda st !! j;
  let invC := Float32.div Float32.one (ComputeC eq) in
  let b := ComputeB eq h in
  let deltaLambda :=
    Float32.mul invC (Float32.sub (Float32.sub b GWlambda) (Float32.mul (Eps eq) lambdaJ)) in
  let deltaLambda := clamp lambdaJ deltaLambda (MinForce eq) (MaxForce eq) in
  let lambda' := <[j := Float32.add lambdaJ deltaLambda]> (lambda st) in
  vel ← addTo (velocityDelta st) (Index (BodyA eq)) (impulseVA eq deltaLambda);
  vel ← addTo vel (Index (BodyB eq)) (impulseVB eq deltaLambda);
  ang ← addTo (angularVelocityDelta st) (Index (BodyA eq)) (impulseWA eq deltaLambda);
  ang ← addTo ang (Index (BodyB eq)) (impulseWB eq deltaLambda);
  Some (mkState lambda' vel ang, Float32.add totalDelta (math32.Abs deltaLambda)).

(** The equations [eqs], numbered from [j], in list order; each one finds
    the state that the one before it left. *)
Fixpoint updates (h : float32) (eqs : list Equation) (j : nat) (st : state)
         (totalDelta : float32) : option (state * float32) :=
  match eqs with
  | [] => Some (st, totalDelta)
  | eq :: rest =>
      '(st, totalDelta) ← update h eq j st totalDelta;
      updates h rest (S j) st totalDelta
  end.

Definition pass (h : float32) (eqs : list Equation) (st : state) : option (state * float32) :=
  updates h eqs 0%nat st Float32.zero.
End Spec.

(** The values that the specification's pass works on. *)
Definition view (gs : GaussSeidel) : Spec.state :=
  Spec.mkState (elems (solveLambda gs)) (elems (VelocityDeltas gs))
               (elems (AngularVelocityDeltas gs)).

(** The caches hold [1/C_j] and [B_j(h)] for the equations of the solver. *)
Definition Cached (h : float32) (gs : GaussSeidel) : Prop :=
  elems (solveInvCs gs) = map invCOf (equations gs)
  ∧ elems (solveBs gs) = map (λ eq, ComputeB eq h) (equations gs).

(** The state after [k] passes, convergence aside. *)
Fixpoint afterPasses (k : nat) (gs : GaussSeidel) : option GaussSeidel :=
  match k with
  | O => Some gs
  | S k' => '(gs, _) ← pass gs; afterPasses k' gs
  end.

(* ===================================================================== *)
(** ** The call as a function of its inputs *)
(* ===================================================================== *)

(** The loop over the passes, on the values alone. *)
Fixpoint iterateValues (h : float32) (eqs : list Equation) (tolSquared : float32)
         (remaining : nat) (iter : Z) (st : Spec.state) : option (Z * Spec.state) :=
  match remaining with
  | O => Some (iter, st)
  | S remaining' =>
      '(st, totalDelta) ← Spec.pass h eqs st;
      if Float32.ltb (Float32.mul totalDelta totalDelta) tolSquared then Some (iter, st)
      else iterateValues h eqs tolSquared remaining' (Int.add iter 1) st
  end.

(** What a caller can see of a call: the count returned, the equations
    with their multipliers, the accumulated impulses and both solution
    arrays. *)
Definition Outcome : Type := Z * list Equation * Spec.state.

Definition outcome (r : Z * GaussSeidel) : Outcome := (r.1, equations r.2, view r.2).

(** The outcome computed from the equation list, the configuration, the
    timestep and the body count; no buffer of the solver enters. *)
Definition solveValues (frameDelta nBodies : Z) (eqs : list Equation) (maxIter : Z)
           (tolerance : float32) : option Outcome :=
  let h := timestep frameDelta in
  let st0 := Spec.mkState (replicate (length eqs) Float32.zero)
                          (replicate (Z.to_nat nBodies) math32.zero3)
                          (replicate (Z.to_nat nBodies) math32.zero3) in
  if decide (0 < length eqs)%nat then
    '(iter, st) ← iterateValues h eqs (Float32.mul tolerance tolerance) (Z.to_nat maxIter) 0 st0;
    eqs' ← setMultipliers h (mkSlice (Spec.lambda st) []) 0%nat eqs;
    Some (Int.add iter 1, eqs', st)
  else Some (0, eqs, st0).

(* ===================================================================== *)
(** ** Fixed bodies *)
(* ===================================================================== *)

Definition zeroVec (d : math32.Vector3) : Prop :=
  Float32.is_zero (math32.X d) = true ∧ Float32.is_zero (math32.Y d) = true
  ∧ Float32.is_zero (math32.Z d) = true.

Definition finiteVec (d : math32.Vector3) : Prop :=
  Float32.is_finite (math32.X d) = true ∧ Float32.is_finite (math32.Y d) = true
  ∧ Float32.is_finite (math32.Z d) = true.

Definition zeroMatrix (m : math32.Matrix3) : Prop :=
  Float32.is_zero (math32.m0 m) = true ∧ Float32.is_zero (math32.m1 m) = true
  ∧ Float32.is_zero (math32.m2 m) = true ∧ Float32.is_zero (math32.m3 m) = true
  ∧ Float32.is_zero (math32.m4 m) = true ∧ Float32.is_zero (math32.m5 m) = true
  ∧ Float32.is_zero (math32.m6 m) = true ∧ Float32.is_zero (math32.m7 m) = true
  ∧ Float32.is_zero (math32.m8 m) = true.

(** A body that the solver must not move: no inverse mass, no inverse inertia. *)
Definition fixedBody (b : Body) : Prop :=
  Float32.is_zero (InvMassSolve b) = true ∧ zeroMatrix (InvInertiaWorldSolve b).

(** Whichever side of [eq] has index [i] is a fixed body. *)
Definition fixedAt (i : Z) (eq : Equation) : Prop :=
  (Index (BodyA eq) = i → fixedBody (BodyA eq))
  ∧ (Index (BodyB eq) = i → fixedBody (BodyB eq)).

(** Both deltas of body [i] are the zero vector. *)
Definition restsAt (i : Z) (gs : GaussSeidel) : Prop :=
  elems (VelocityDeltas gs) !! Z.to_nat i = Some math32.zero3
  ∧ elems (AngularVelocityDeltas gs) !! Z.to_nat i = Some math32.zero3.

(* ===================================================================== *)
(** ** The count that [Solve] returns *)
(* ===================================================================== *)

(** The convergence check fails at each of the next [k] passes. *)
Fixpoint stallsFor (tolSquared : float32) (k : nat) (gs : GaussSeidel) : Prop :=
  match k with
  | O => True
  | S k' =>
      ∃ gs' tot, pass gs = Some (gs', tot)
                 ∧ Float32.ltb (Float32.mul tot tot) tolSquared = false
                 ∧ stallsFor tolSquared k' gs'
  end.

(** The convergence check fails at passes [0 .. k-1] and holds at pass [k]. *)
Fixpoint convergesAt (tolSquared : float32) (k : nat) (gs : GaussSeidel) : Prop :=
  match k with
  | O => ∃ gs' tot, pass gs = Some (gs', tot)
                    ∧ Float32.ltb (Float32.mul tot tot) tolSquared = true
  | S k' =>
      ∃ gs' tot, pass gs = Some (gs', tot)
                 ∧ Float32.ltb (Float32.mul tot tot) tolSquared = false
                 ∧ convergesAt tolSquared k' gs'
  end.

(* ===================================================================== *)
(** ** Sample systems *)
(* ===================================================================== *)

Module Examples.
Definition zeroMatrix3 : math32.Matrix3 :=
  math32.mkMatrix3 Float32.zero Float32.zero Float32.zero Float32.zero Float32.zero
                   Float32.zero Float32.zero Float32.zero Float32.zero.

Definition identity3 : math32.Matrix3 :=
  math32.mkMatrix3 Float32.one Float32.zero Float32.zero Float32.zero Float32.one
                   Float32.zero Float32.zero Float32.zero Float32.one.

(** A fixed body and a free body of unit mass and inertia. *)
Definition ground (i : Z) : Body := mkBody i Float32.zero zeroMatrix3.
Definition ball (i : Z) : Body := mkBody i Float32.one identity3.

Definition noJacobian : JacobianElement := mkJacobianElement math32.zero3 math32.zero3.
Definition up : math32.Vector3 := math32.mkVector3 Float32.zero Float32.one Float32.zero.
Definition down : math32.Vector3 :=
  math32.mkVector3 Float32.zero (Float32.of_Z (-1)) Float32.zero.

(** A frame of 16 ms. *)
Definition frame : Z := 16000000.

(** A solver with the default tolerance and empty buffers. *)
Definition solver (eqs : list Equation) (maxIter : Z) : GaussSeidel :=
  mkGaussSeidel eqs Slice.make0 Slice.make0 maxIter (tolerance NewGaussSeidel)
                Slice.make0 Slice.make0 Slice.make0.

(** An unbounded equation between two fixed bodies with bias [1]: every
    pass adds [1] to its [lambda], so the total never falls below the
    tolerance. *)
Definition pushEq : Equation :=
  mkEquation (ground 0) (ground 1) Float32.one (λ _, Float32.one) Float32.zero
             Float32.neg_infinity Float32.infinity noJacobian noJacobian Float32.zero.

(** A contact of a ball resting on the ground: a unilateral equation
    that converges at the second pass. *)
Definition contactEq : Equation :=
  mkEquation (ground 0) (ball 1) Float32.one (λ _, Float32.one) Float32.zero
             Float32.zero Float32.infinity
             (mkJacobianElement down math32.zero3) (mkJacobianElement up math32.zero3)
             Float32.zero.



(** An equation with bounds [3] and [5], which leave out the [0] that every
    [lambda] starts from. *)
Definition liftedEq : Equation :=
  mkEquation (ground 0) (ground 1) Float32.one (λ _, Float32.one) Float32.zero
             (Float32.of_Z 3) (Float32.of_Z 5) noJacobian noJacobian Float32.zero.

(** An equation with bounds [-100] and [+Inf], bias [2^30] and
    regularisation [100]: the first pass lifts [lambda] to [2^30], the
    second pass pushes far below [-100] and is clamped. *)
Definition halfEq : Equation :=
  mkEquation (ground 0) (ground 1) Float32.one (λ _, Float32.of_Z 1073741824)
             (Float32.of_Z 100) (Float32.of_Z (-100)) Float32.infinity
             noJacobian noJacobian Float32.zero.

(** An equation with bounds [-2^127] and [2^127], bias [2^127] and
    regularisation [100]: [bound - lambda] overflows. *)
Definition hugeEq : Equation :=
  mkEquation (ground 0) (ground 1) Float32.one (λ _, Float32.of_scaled 1 127)
             (Float32.of_Z 100) (Float32.of_scaled (-1) 127) (Float32.of_scaled 1 127)
             noJacobian noJacobian Float32.zero.

(** An equation with bounds [-5] and [5] whose bias is a NaN. *)
Definition nanEq : Equation :=
  mkEquation (ground 0) (ground 1) Float32.one (λ _, S754_nan) Float32.zero
             (Float32.of_Z (-5)) (Float32.of_Z 5) noJacobian noJacobian Float32.zero.

(** A contact whose bias pulls the bodies together: the update is
    negative and the clamp holds [lambda] at [0]. *)
Definition pullEq : Equation :=
  mkEquation (ground 0) (ball 1) Float32.one (λ _, Float32.of_Z (-1)) Float32.zero
             Float32.zero Float32.infinity
             (mkJacobianElement down math32.zero3) (mkJacobianElement up math32.zero3)
             Float32.zero.

(** The contact with the multiplier [1] that an earlier call has left. *)
Definition loadedEq : Equation := SetMultiplier contactEq Float32.one.

(** Buffers as an earlier call may have left them. *)
Definition staleV : slice math32.Vector3 := mkSlice [up; down] [down].
Definition staleF : slice float32 := mkSlice [Float32.one; Float32.infinity] [S754_nan].
End Examples.

(* ===================================================================== *)
(** ** The vertex buffer object (package gls, the second part of the file) *)
(* ===================================================================== *)

(** [uint32] and [int32]: conversions and arithmetic wrap around. *)
Module Uint32.
Definition wrap (z : Z) : Z := z mod 2 ^ 32.
Definition add (a b : Z) : Z := wrap (a + b).
Definition mul (a b : Z) : Z := wrap (a * b).
End Uint32.

Module Int32.
Definition wrap (z : Z) : Z := (z + 2 ^ 31) mod 2 ^ 32 - 2 ^ 31.
Definition in_range (z : Z) : Prop := - 2 ^ 31 <= z < 2 ^ 31.
End Int32.

Module gls.

(** [VBOattrib]: the name of an attribute and its number of elements (an
    [int32]). *)
Record VBOattrib : Type := mkVBOattrib {
  Name : string;
  ItemSize : Z
}.

(** A call made on an OpenGL state object.  [GenBuffer] carries the handle
    it returned, [BufferData] the array whose first element it was handed. *)
Inductive GLcall : Type :=
| GenBuffer (handle : Z)
| BindBuffer (target handle : Z)
| EnableVertexAttribArray (index : Z)
| VertexAttribPointer (index size type : Z) (normalized : bool) (stride offset : Z)
| BufferData (target size : Z) (data : list float32) (usage : Z)
| DeleteBuffers (handle : Z).

(** A [*GLS] as a VBO sees it: the identity of the object, the handle that
    its next [GenBuffer] returns and the attribute locations of its current
    program.  The type itself is not among the sources. *)
Record GLS : Type := mkGLS {
  glsId : nat;
  nextBuffer : Z;
  GetAttribLocation : string -> Z
}.

(** A call together with the object it was made on. *)
Definition Event : Type := nat * GLcall.

(** [VBO]: [gs] is [None] for a nil pointer, [buffer] is the [ArrayF32]. *)
Record VBO : Type := mkVBO {
  gs : option nat;
  handle : Z;
  usage : Z;
  update : bool;
  buffer : list float32;
  attribs : list VBOattrib
}.

(** [new(VBO)]: every field has its zero value. *)
Definition zeroVBO : VBO := mkVBO None 0 0 false [] [].

(** [AddAttrib] appends an attribute. *)
Definition AddAttrib (vbo : VBO) (name : string) (itemSize : Z) : VBO :=
  mkVBO (gs vbo) (handle vbo) (usage vbo) (update vbo) (buffer vbo)
        (attribs vbo ++ [mkVBOattrib name itemSize]).

(** The loop of [Attrib]: the first attribute with the name, if any. *)
Fixpoint findAttrib (attrs : list VBOattrib) (name : string) : option VBOattrib :=
  match attrs with
  | [] => None
  | attr :: rest => if decide (Name attr = name) then Some attr else findAttrib rest name
  end.

(** [Attrib]: [None] stands for the nil result. *)
Definition Attrib (vbo : VBO) (name : string) : option VBOattrib :=
  findAttrib (attribs vbo) name.

(** [AttribAt]: [None] stands for the panic of an index out of range. *)
Definition AttribAt (vbo : VBO) (idx : Z) : option VBOattrib :=
  if decide (0 <= idx) then attribs vbo !! Z.to_nat idx else None.

Definition AttribCount (vbo : VBO) : Z := Z.of_nat (length (attribs vbo)).

Definition Attributes (vbo : VBO) : list VBOattrib := attribs vbo.

(** [Dispose]: the buffer is deleted on the object that made it, if there
    is one, and the pointer is cleared. *)
Definition Dispose (vbo : VBO) : VBO * list Event :=
  (mkVBO None (handle vbo) (usage vbo) (update vbo) (buffer vbo) (attribs vbo),
   match gs vbo with
   | Some g => [(g, DeleteBuffers (handle vbo))]
   | None => []
   end).

Definition SetBuffer (vbo : VBO) (buffer : list float32) : VBO :=
  mkVBO (gs vbo) (handle vbo) (usage vbo) true buffer (attribs vbo).

Definition SetUsage (vbo : VBO) (usage : Z) : VBO :=
  mkVBO (gs vbo) (handle vbo) usage (update vbo) (buffer vbo) (attribs vbo).

Definition Buffer (vbo : VBO) : list float32 := buffer vbo.

Definition Update (vbo : VBO) : VBO :=
  mkVBO (gs vbo) (handle vbo) (usage vbo) true (buffer vbo) (attribs vbo).

(** The loop of [AttribOffset], entered with [elementCount]. *)
Fixpoint offsetLoop (attrs : list VBOattrib) (name : string) (elementCount : Z) : Z :=
  match attrs with
  | [] => elementCount
  | attr :: rest =>
      if decide (Name attr = name) then elementCount
      else offsetLoop rest name (Int.add elementCount (ItemSize attr))
  end.

Definition AttribOffset (vbo : VBO) (name : string) : Z :=
  offsetLoop (attribs vbo) name 0.

(** The loop of [Stride], entered with [stride]. *)
Fixpoint strideLoop (attrs : list VBOattrib) (stride : Z) : Z :=
  match attrs with
  | [] => stride
  | attrib :: rest => strideLoop rest (Int.add stride (ItemSize attrib))
  end.

Definition Stride (vbo : VBO) : Z := strideLoop (attribs vbo) 0.

(** [unsafe.Sizeof(float32(0))]. *)
Definition elsize : Z := 4.

Definition StrideSize (vbo : VBO) : Z := Int.wrap (Stride vbo * elsize).

Section Constants.
(** The constants [STATIC_DRAW], [ARRAY_BUFFER] and [FLOAT] and the method
    [ArrayF32.Bytes] are not among the sources; they are parameters. *)
Variables STATIC_DRAW ARRAY_BUFFER FLOAT : Z.
Variable Bytes : list float32 -> Z.

(** [init]: the buffer is the one field that is left as it is. *)
Definition init (vbo : VBO) : VBO := mkVBO None 0 STATIC_DRAW true (buffer vbo) [].

Definition NewVBO : VBO := init zeroVBO.

(** The loop over the attributes in [Transfer], entered with the counters
    [items] and [offset]: the calls it makes on [g], in order. *)
Fixpoint bindAttribs (g : GLS) (strideSize : Z) (attrs : list VBOattrib) (items offset : Z)
  : list Event :=
  match attrs with
  | [] => []
  | attrib :: rest =>
      let loc := GetAttribLocation g (Name attrib) in
      if decide (loc < 0) then bindAttribs g strideSize rest items offset
      else
        (glsId g, EnableVertexAttribArray (Uint32.wrap loc))
        :: (glsId g, VertexAttribPointer (Uint32.wrap loc) (ItemSize attrib) FLOAT false
                                         (Int32.wrap strideSize) offset)
        :: (let items := Uint32.add items (Uint32.wrap (ItemSize attrib)) in
            let offset := Uint32.mul (Uint32.wrap elsize) items in
            bindAttribs g strideSize rest items offset)
  end.

(** [Transfer]: the VBO after the call and the calls made, in order, or
    [None] for the panic of [&vbo.buffer[0]] on an empty array. *)
Definition Transfer (vbo : VBO) (g : GLS) : option (VBO * list Event) :=
  if decide (Bytes (buffer vbo) = 0) then Some (vbo, [])
  else
    let '(vbo, initCalls) :=
      match gs vbo with
      | None =>
          let h := nextBuffer g in
          (mkVBO (Some (glsId g)) h (usage vbo) (update vbo) (buffer vbo) (attribs vbo),
           (glsId g, GenBuffer h) :: (glsId g, BindBuffer ARRAY_BUFFER h)
           :: bindAttribs g (StrideSize vbo) (attribs vbo) 0 0)
      | Some _ => (vbo, [])
      end in
    if negb (update vbo) then Some (vbo, initCalls)
    else
      match buffer vbo with
      | [] => None
      | _ :: _ =>
          Some (mkVBO (gs vbo) (handle vbo) (usage vbo) false (buffer vbo) (attribs vbo),
                initCalls ++ [(glsId g, BindBuffer ARRAY_BUFFER (handle vbo));
                              (glsId g, BufferData ARRAY_BUFFER (Bytes (buffer vbo))
                                                   (buffer vbo) (usage vbo))])
      end.
End Constants.

End gls.

(** The plain sum of the item sizes. *)
Fixpoint sizesSum (attrs : list gls.VBOattrib) : Z :=
  match attrs with
  | [] => 0
  | a :: rest => gls.ItemSize a + sizesSum rest
  end.

(** [AddAttrib] called for each entry of [attrs], in order. *)
Definition addAll (vbo : gls.VBO) (attrs : list gls.VBOattrib) : gls.VBO :=
  foldl (λ v a, gls.AddAttrib v (gls.Name a) (gls.ItemSize a)) vbo attrs.

(** Every name occurs at most once. *)
Definition distinctNames (attrs : list gls.VBOattrib) : Prop :=
  NoDup (map gls.Name attrs).

Definition isBufferData (e : gls.Event) : bool :=
  match e.2 with gls.BufferData _ _ _ _ => true | _ => false end.

Definition isGenBuffer (e : gls.Event) : bool :=
  match e.2 with gls.GenBuffer _ => true | _ => false end.

(** Item sizes as the type [int32] has them, and non-negative ones. *)
Definition int32Sizes (attrs : list gls.VBOattrib) : Prop :=
  Forall (λ a, Int32.in_range (gls.ItemSize a)) attrs.

Definition naturalSizes (attrs : list gls.VBOattrib) : Prop :=
  Forall (λ a, 0 <= gls.ItemSize a < 2 ^ 31) attrs.

(** Neither body of [eq] has index [i]. *)
Definition untouched (i : Z) (eq : Equation) : Prop :=
  Index (BodyA eq) ≠ i ∧ Index (BodyB eq) ≠ i.

(** The capacity of a slice. *)
Definition cap {A : Type} (s : slice A) : nat := (length (elems s) + length (spare s))%nat.

(** A sample VBO: the interleaved layout of the comment on [Stride],
    "VertexPosition" (3 elements) and "VertexTexcoord" (2 elements), with
    one vertex of data. *)
Module VBOExamples.
Definition bytes (b : list float32) : Z := 4 * Z.of_nat (length b).

Definition vertex : list float32 :=
  [Float32.zero; Float32.one; Float32.zero; Float32.one; Float32.one].

Definition interleaved : gls.VBO :=
  gls.SetBuffer
    (gls.AddAttrib (gls.AddAttrib (gls.NewVBO 35044) "VertexPosition" 3) "VertexTexcoord" 2)
    vertex.

(** A GLS whose program has both attributes, at locations 0 and 1. *)
Definition program : gls.GLS :=
  gls.mkGLS 1 7 (λ name, if decide (name = "VertexPosition"%string) then 0
                         else if decide (name = "VertexTexcoord"%string) then 1 else -1).

(** A solver that never exits early. *)
Definition strictSolver : GaussSeidel :=
  mkGaussSeidel [Examples.contactEq] Slice.make0 Slice.make0 3 Float32.zero
                Slice.make0 Slice.make0 Slice.make0.
End VBOExamples.

(* ===================================================================== *)
(** ** Facts about slices *)
(* ===================================================================== *)

Section SliceFacts.
Context {A : Type}.
Implicit Types (s : slice A) (x : A).

Lemma elems_reslice0 s : elems (Slice.reslice0 s) = [].
Proof. reflexivity. Qed.

Lemma elems_append s x : elems (Slice.append s x) = elems s ++ [x].
Proof. reflexivity. Qed.

Lemma set_at_Some s j x s' :
  Slice.set_at s j x = Some s' →
  elems s' = <[j := x]> (elems s) ∧ spare s' = spare s ∧ (j < length (elems s))%nat.
Proof.
  unfold Slice.set_at, Slice.len. case_decide; [|discriminate].
  intros [= <-]. auto.
Qed.

Lemma set_at_in_range s j x :
  (j < length (elems s))%nat →
  Slice.set_at s j x = Some (mkSlice (<[j := x]> (elems s)) (spare s)).
Proof. intros Hj. unfold Slice.set_at, Slice.len. by rewrite decide_True. Qed.

Lemma index_Some s i x :
  Slice.index s i = Some x → 0 <= i ∧ elems s !! Z.to_nat i = Some x.
Proof. unfold Slice.index, Slice.at_. case_decide; [auto|discriminate]. Qed.

Lemma index_in_range s i :
  0 <= i < Z.of_nat (length (elems s)) → is_Some (Slice.index s i).
Proof.
  intros [H0 Hi]. unfold Slice.index, Slice.at_. rewrite decide_True by done.
  apply lookup_lt_is_Some. lia.
Qed.

Lemma store_Some s i x s' :
  Slice.store s i x = Some s' →
  0 <= i ∧ elems s' = <[Z.to_nat i := x]> (elems s) ∧ spare s' = spare s
  ∧ (Z.to_nat i < length (elems s))%nat.
Proof.
  unfold Slice.store. case_decide; [|discriminate].
  intros H'. apply set_at_Some in H'. tauto.
Qed.
End SliceFacts.

Lemma addAt_Some v i d v' :
  addAt v i d = Some v' →
  ∃ cur, 0 <= i ∧ elems v !! Z.to_nat i = Some cur
         ∧ elems v' = <[Z.to_nat i := math32.Add cur d]> (elems v)
         ∧ spare v' = spare v.
Proof.
  unfold addAt. intros H.
  destruct (Slice.index v i) as [cur|] eqn:Hc; simpl in H; [|discriminate].
  apply index_Some in Hc as [H0 Hc]. apply store_Some in H as (_ & He & Hs & _).
  eauto 10.
Qed.

Lemma addAt_length v i d v' :
  addAt v i d = Some v' → length (elems v') = length (elems v).
Proof.
  intros (cur & _ & _ & -> & _)%addAt_Some. by rewrite length_insert.
Qed.

Lemma addAt_in_range v i d :
  0 <= i < Z.of_nat (length (elems v)) → is_Some (addAt v i d).
Proof.
  intros Hi. unfold addAt.
  destruct (index_in_range v i Hi) as [cur ->]. simpl.
  unfold Slice.store. rewrite decide_True by lia.
  rewrite set_at_in_range by lia. eauto.
Qed.

(* ===================================================================== *)
(** ** The per-equation step, inverted *)
(* ===================================================================== *)

Ltac bind_case H :=
  match type of H with
  | (?m ≫= _) = Some _ =>
      let E := fresh "E" in
      destruct m eqn:E; simpl in H; [|discriminate H]
  end.

Lemma eqStep_Some eq j gs gs' dl :
  eqStep eq j gs = Some (gs', dl) → StepFacts eq j gs gs' dl.
Proof.
  unfold eqStep, Slice.at_. intros H.
  destruct gs as [eqs V W mi tol ic bs lam]; simpl in *.
  do 8 bind_case H.
  apply set_at_Some in E6 as (He & Hs & _).
  do 3 bind_case H.
  destruct (addAt _ _ _) eqn:E10 in H; simpl in H; [|discriminate H].
  injection H as <- <-.
  econstructor; simpl; try eassumption; try reflexivity.
Qed.

Lemma eqStep_is_Some eq j gs :
  (j < length (elems (solveLambda gs)))%nat →
  (j < length (elems (solveInvCs gs)))%nat →
  (j < length (elems (solveBs gs)))%nat →
  0 <= Index (BodyA eq) < Z.of_nat (length (elems (VelocityDeltas gs))) →
  0 <= Index (BodyB eq) < Z.of_nat (length (elems (VelocityDeltas gs))) →
  0 <= Index (BodyA eq) < Z.of_nat (length (elems (AngularVelocityDeltas gs))) →
  0 <= Index (BodyB eq) < Z.of_nat (length (elems (AngularVelocityDeltas gs))) →
  is_Some (eqStep eq j gs).
Proof.
  intros Hl Hc Hb HvA HvB HwA HwB.
  unfold eqStep, Slice.at_.
  destruct gs as [eqs V W mi tol ic bs lam]; simpl in *.
  destruct (lookup_lt_is_Some_2 _ _ Hl) as [lamJ ->]; simpl.
  destruct (index_in_range V _ HvA) as [vA ->]; simpl.
  destruct (index_in_range V _ HvB) as [vB ->]; simpl.
  destruct (index_in_range W _ HwA) as [wA ->]; simpl.
  destruct (index_in_range W _ HwB) as [wB ->]; simpl.
  destruct (lookup_lt_is_Some_2 _ _ Hc) as [invC ->]; simpl.
  destruct (lookup_lt_is_Some_2 _ _ Hb) as [b ->]; simpl.
  rewrite set_at_in_range by done. simpl.
  match goal with |- context [addAt V ?i ?d] =>
    destruct (addAt_in_range V i d HvA) as [v1 E1]; rewrite E1; simpl;
    pose proof (addAt_length _ _ _ _ E1) as L1 end.
  match goal with |- context [addAt v1 ?i ?d] =>
    destruct (addAt_in_range v1 i d) as [v2 E2]; [lia|]; rewrite E2; simpl end.
  match goal with |- context [addAt W ?i ?d] =>
    destruct (addAt_in_range W i d HwA) as [w1 E3]; rewrite E3; simpl;
    pose proof (addAt_length _ _ _ _ E3) as L3 end.
  match goal with |- context [addAt w1 ?i ?d] =>
    destruct (addAt_in_range w1 i d) as [w2 E4]; [lia|]; rewrite E4; simpl end.
  eauto.
Qed.

(* ===================================================================== *)
(** ** What the loops leave alone *)
(* ===================================================================== *)

Lemma Frame_refl gs : Frame gs gs.
Proof. by constructor. Qed.

Lemma Frame_trans g1 g2 g3 : Frame g1 g2 → Frame g2 g3 → Frame g1 g3.
Proof. intros [] []. constructor; congruence. Qed.

Lemma eqStep_Frame eq j gs gs' dl :
  eqStep eq j gs = Some (gs', dl) → Frame gs gs'.
Proof.
  intros []%eqStep_Some. constructor; try done.
  - rewrite sf_lambda. apply length_insert.
  - apply addAt_length in sf_addVA, sf_addVB. congruence.
  - apply addAt_length in sf_addWA, sf_addWB. congruence.
Qed.

Lemma eqLoop_Frame eqs j gs tot gs' tot' :
  eqLoop eqs j gs tot = Some (gs', tot') → Frame gs gs'.
Proof.
  revert j gs tot. induction eqs as [|eq rest IH]; intros j gs tot H; simpl in H.
  - injection H as <- <-. apply Frame_refl.
  - destruct (eqStep eq j gs) as [[g1 dl]|] eqn:E; simpl in H; [|discriminate].
    eapply Frame_trans; [by eapply eqStep_Frame | by eapply IH].
Qed.

Lemma pass_Frame gs gs' tot : pass gs = Some (gs', tot) → Frame gs gs'.
Proof. apply eqLoop_Frame. Qed.

Lemma iterate_Frame tolSq remaining iter gs iter' gs' :
  iterate tolSq remaining iter gs = Some (iter', gs') → Frame gs gs'.
Proof.
  revert iter gs. induction remaining as [|r IH]; intros iter gs H; simpl in H.
  - injection H as <- <-. apply Frame_refl.
  - destruct (pass gs) as [[g1 tot]|] eqn:E; simpl in H; [|discriminate].
    apply pass_Frame in E.
    destruct (Float32.ltb _ _).
    + injection H as <- <-. done.
    + eapply Frame_trans; [done | by eapply IH].
Qed.

(* ===================================================================== *)
(** ** The state at the head of the iteration *)
(* ===================================================================== *)

Lemma Solve_unfold frameDelta nBodies gs :
  Solve frameDelta nBodies gs =
  let h := timestep frameDelta in
  let g := setup h (Z.to_nat nBodies) gs in
  if decide (0 < length (equations gs))%nat then
    '(iter, g') ← iterate (Float32.mul (tolerance g) (tolerance g))
                          (Z.to_nat (maxIter g)) 0 g;
    eqs ← setMultipliers h (solveLambda g') 0%nat (equations g');
    Some (Int.add iter 1, with_equations eqs g')
  else Some (0, g).
Proof. reflexivity. Qed.

Lemma resetDeltas_facts n gs :
  equations (resetDeltas n gs) = equations gs
  ∧ maxIter (resetDeltas n gs) = maxIter gs
  ∧ tolerance (resetDeltas n gs) = tolerance gs
  ∧ solveInvCs (resetDeltas n gs) = solveInvCs gs
  ∧ solveBs (resetDeltas n gs) = solveBs gs
  ∧ solveLambda (resetDeltas n gs) = solveLambda gs
  ∧ elems (VelocityDeltas (resetDeltas n gs))
    = elems (VelocityDeltas gs) ++ replicate n math32.zero3
  ∧ elems (AngularVelocityDeltas (resetDeltas n gs))
    = elems (AngularVelocityDeltas gs) ++ replicate n math32.zero3.
Proof.
  revert gs. induction n as [|n IH]; intros gs; simpl.
  - by rewrite !app_nil_r.
  - match goal with |- context [resetDeltas n ?g] =>
      destruct (IH g) as (-> & -> & -> & -> & -> & -> & -> & ->) end.
    simpl. by rewrite <- !app_assoc.
Qed.

Lemma precompute_facts h eqs gs :
  equations (precompute h eqs gs) = equations gs
  ∧ maxIter (precompute h eqs gs) = maxIter gs
  ∧ tolerance (precompute h eqs gs) = tolerance gs
  ∧ VelocityDeltas (precompute h eqs gs) = VelocityDeltas gs
  ∧ AngularVelocityDeltas (precompute h eqs gs) = AngularVelocityDeltas gs
  ∧ elems (solveInvCs (precompute h eqs gs)) = elems (solveInvCs gs) ++ map invCOf eqs
  ∧ elems (solveBs (precompute h eqs gs))
    = elems (solveBs gs) ++ map (λ eq, ComputeB eq h) eqs
  ∧ elems (solveLambda (precompute h eqs gs))
    = elems (solveLambda gs) ++ replicate (length eqs) Float32.zero.
Proof.
  revert gs. induction eqs as [|eq rest IH]; intros gs; simpl.
  - by rewrite !app_nil_r.
  - match goal with |- context [precompute h rest ?g] =>
      destruct (IH g) as (-> & -> & -> & -> & -> & -> & -> & ->) end.
    simpl. by rewrite <- !app_assoc.
Qed.

Lemma setup_Ready h n gs : Ready h n gs (setup h n gs).
Proof.
  unfold setup.
  destruct (resetDeltas_facts n (Reset gs)) as (Re & Rm & Rt & Ri & Rb & Rl & Rv & Rw).
  destruct (precompute_facts h (equations (resetDeltas n (Reset gs))) (resetDeltas n (Reset gs)))
    as (Pe & Pm & Pt & Pv & Pw & Pi & Pb & Pl).
  constructor.
  - by rewrite Pe, Re.
  - by rewrite Pm, Rm.
  - by rewrite Pt, Rt.
  - by rewrite Pv, Rv.
  - by rewrite Pw, Rw.
  - by rewrite Pi, Ri, Re.
  - by rewrite Pb, Rb, Re.
  - by rewrite Pl, Rl, Re.
Qed.

(* ===================================================================== *)
(** ** The iteration does not panic on indices in range *)
(* ===================================================================== *)

Lemma eqLoop_is_Some nB eqs j gs tot :
  Forall (indicesBelow nB) eqs →
  (j + length eqs <= length (elems (solveLambda gs)))%nat →
  (j + length eqs <= length (elems (solveInvCs gs)))%nat →
  (j + length eqs <= length (elems (solveBs gs)))%nat →
  length (elems (VelocityDeltas gs)) = nB →
  length (elems (AngularVelocityDeltas gs)) = nB →
  is_Some (eqLoop eqs j gs tot).
Proof.
  revert j gs tot. induction eqs as [|eq rest IH]; intros j gs tot Hall Hl Hc Hb Hv Hw; simpl.
  - eauto.
  - apply Forall_cons in Hall as [[HA HB] Hall]. simpl in *.
    destruct (eqStep_is_Some eq j gs) as [[g1 dl] E]; try lia.
    rewrite E. simpl. pose proof (eqStep_Frame _ _ _ _ _ E) as [].
    apply IH; try done; try lia.
    + rewrite fr_invCs0. lia.
    + rewrite fr_Bs0. lia.
Qed.

Lemma iterate_is_Some nB tolSq remaining iter gs :
  Forall (indicesBelow nB) (equations gs) →
  (length (equations gs) <= length (elems (solveLambda gs)))%nat →
  (length (equations gs) <= length (elems (solveInvCs gs)))%nat →
  (length (equations gs) <= length (elems (solveBs gs)))%nat →
  length (elems (VelocityDeltas gs)) = nB →
  length (elems (AngularVelocityDeltas gs)) = nB →
  is_Some (iterate tolSq remaining iter gs).
Proof.
  revert iter gs. induction remaining as [|r IH]; intros iter gs Hall Hl Hc Hb Hv Hw; simpl.
  - eauto.
  - destruct (eqLoop_is_Some nB (equations gs) 0 gs Float32.zero) as [[g1 tot] E]; try done.
    unfold pass. rewrite E. simpl.
    destruct (Float32.ltb _ _); [eauto|].
    pose proof (eqLoop_Frame _ _ _ _ _ _ E) as [].
    apply IH; try congruence.
Qed.

(* ===================================================================== *)
(** ** The loop that writes the multipliers *)
(* ===================================================================== *)

Lemma setMultipliers_Some h lam i eqs eqs' :
  setMultipliers h lam i eqs = Some eqs' →
  length eqs' = length eqs
  ∧ ∀ k eq, eqs !! k = Some eq →
      ∃ l, elems lam !! (i + k)%nat = Some l
           ∧ eqs' !! k = Some (SetMultiplier eq (Float32.div l h)).
Proof.
  revert i eqs'. induction eqs as [|eq rest IH]; intros i eqs' H; simpl in H.
  - injection H as <-. split; [done|]. intros k e Hk. by rewrite lookup_nil in Hk.
  - unfold Slice.at_ in H.
    destruct (elems lam !! i) as [l|] eqn:El; simpl in H; [|discriminate].
    destruct (setMultipliers h lam (S i) rest) as [rest'|] eqn:Er; simpl in H; [|discriminate].
    injection H as <-. destruct (IH _ _ Er) as [Hlen Hk].
    split; [simpl; congruence|].
    intros [|k] e He; simpl in *.
    + injection He as <-. exists l. by rewrite Nat.add_0_r.
    + destruct (Hk k e He) as (l' & Hl' & He').
      exists l'. by rewrite <- Nat.add_succ_comm.
Qed.

Lemma setMultipliers_is_Some h lam i eqs :
  (i + length eqs <= length (elems lam))%nat →
  is_Some (setMultipliers h lam i eqs).
Proof.
  revert i. induction eqs as [|eq rest IH]; intros i Hi; simpl in *; [eauto|].
  unfold Slice.at_.
  destruct (lookup_lt_is_Some_2 (elems lam) i) as [l ->]; [lia|]. simpl.
  destruct (IH (S i)) as [rest' ->]; [lia|]. simpl. eauto.
Qed.

(** [Solve] returns whenever every body index is below [nBodies]. *)
Lemma Solve_is_Some frameDelta nBodies gs :
  Forall (indicesBelow (Z.to_nat nBodies)) (equations gs) →
  is_Some (Solve frameDelta nBodies gs).
Proof.
  intros Hall. rewrite Solve_unfold. cbv zeta.
  pose proof (setup_Ready (timestep frameDelta) (Z.to_nat nBodies) gs) as [].
  case_decide; [|eauto].
  destruct (iterate_is_Some (Z.to_nat nBodies)
              (Float32.mul (tolerance (setup (timestep frameDelta) (Z.to_nat nBodies) gs))
                           (tolerance (setup (timestep frameDelta) (Z.to_nat nBodies) gs)))
              (Z.to_nat (maxIter (setup (timestep frameDelta) (Z.to_nat nBodies) gs))) 0
              (setup (timestep frameDelta) (Z.to_nat nBodies) gs)) as [[it g'] E].
  - by rewrite rd_equations0.
  - by rewrite rd_equations0, rd_lambda0, length_replicate.
  - by rewrite rd_equations0, rd_invCs0, length_map.
  - by rewrite rd_equations0, rd_Bs0, length_map.
  - by rewrite rd_V0, length_replicate.
  - by rewrite rd_W0, length_replicate.
  - rewrite E. simpl. pose proof (iterate_Frame _ _ _ _ _ _ E) as [].
    destruct (setMultipliers_is_Some (timestep frameDelta) (solveLambda g') 0 (equations g'))
      as [eqs' ->]; [|simpl; eauto].
    rewrite fr_lambda_len0, fr_equations0, rd_equations0, rd_lambda0, length_replicate. lia.
Qed.

(* ===================================================================== *)
(** ** Empty list, no round, multipliers and frame *)
(* ===================================================================== *)

Lemma sameButMultiplier_refl eq : sameButMultiplier eq eq.
Proof. by repeat split. Qed.

Lemma sameButMultiplier_SetMultiplier eq m : sameButMultiplier eq (SetMultiplier eq m).
Proof. by repeat split. Qed.

(** C3. With an empty equation list and [bodyCount >= 0], [Solve] returns
    [0]; the solver it leaves is the one that the two resets alone produce
    (no pass has run, nothing was cached, no multiplier was written: the
    equation list is the one it was), and both solution arrays hold exactly
    [bodyCount] zero vectors. *)
Theorem Solve_zero_equations frameDelta nBodies gs :
  equations gs = [] → 0 <= nBodies →
  ∃ gs',
    Solve frameDelta nBodies gs = Some (0, gs')
    ∧ gs' = resetDeltas (Z.to_nat nBodies) (Reset gs)
    ∧ equations gs' = equations gs
    ∧ elems (solveInvCs gs') = [] ∧ elems (solveBs gs') = [] ∧ elems (solveLambda gs') = []
    ∧ elems (VelocityDeltas gs') = replicate (Z.to_nat nBodies) math32.zero3
    ∧ elems (AngularVelocityDeltas gs') = replicate (Z.to_nat nBodies) math32.zero3
    ∧ Z.of_nat (length (elems (VelocityDeltas gs'))) = nBodies
    ∧ Z.of_nat (length (elems (AngularVelocityDeltas gs'))) = nBodies.
Proof.
  intros Heq Hn. exists (resetDeltas (Z.to_nat nBodies) (Reset gs)).
  destruct (resetDeltas_facts (Z.to_nat nBodies) (Reset gs))
    as (Re & Rm & Rt & Ri & Rb & Rl & Rv & Rw).
  split.
  - unfold Solve. cbv zeta. rewrite Re. simpl equations. rewrite Heq. reflexivity.
  - rewrite Re, Ri, Rb, Rl, Rv, Rw. simpl. rewrite !length_replicate.
    repeat split; lia.
Qed.

Lemma Solve_zero_equations_witness :
  ∃ gs', Solve 16000000 3 NewGaussSeidel = Some (0, gs')
         ∧ Z.of_nat (length (elems (VelocityDeltas gs'))) = 3.
Proof.
  destruct (Solve_zero_equations 16000000 3 NewGaussSeidel) as (gs' & H & _ & _ & _ & _ & _ & _ & _ & L & _).
  - reflexivity.
  - lia.
  - exists gs'. split; assumption.
Defined.

Lemma div_zero_positive h :
  Float32.ltb Float32.zero h = true → Float32.div Float32.zero h = Float32.zero.
Proof. destruct h as [[]|[]| |[] m e]; simpl; try discriminate; reflexivity. Qed.

(** C10. With at least one equation and [maxIter <= 0] no pass runs (no
    update is applied), yet [Solve] returns [1]: every [lambda[j]] is still
    [0], the multiplier that every equation carries after the call is
    [0 / h] (which is [0] when [h > 0]) whatever it was before, the other
    fields of the equations are the ones they had, and the solution arrays
    are zero-filled with [bodyCount] entries. *)
Theorem Solve_no_iterations frameDelta nBodies gs :
  equations gs ≠ [] → maxIter gs <= 0 →
  ∃ gs',
    Solve frameDelta nBodies gs = Some (1, gs')
    ∧ appliedDeltas frameDelta nBodies gs = []
    ∧ elems (solveLambda gs') = replicate (length (equations gs)) Float32.zero
    ∧ equations gs'
      = map (λ eq, SetMultiplier eq (Float32.div Float32.zero (timestep frameDelta)))
            (equations gs)
    ∧ Forall (λ eq', multiplier eq' = Float32.div Float32.zero (timestep frameDelta))
             (equations gs')
    ∧ Forall2 sameButMultiplier (equations gs) (equations gs')
    ∧ (Float32.ltb Float32.zero (timestep frameDelta) = true →
       Float32.div Float32.zero (timestep frameDelta) = Float32.zero)
    ∧ elems (VelocityDeltas gs') = replicate (Z.to_nat nBodies) math32.zero3
    ∧ elems (AngularVelocityDeltas gs') = replicate (Z.to_nat nBodies) math32.zero3
    ∧ (0 <= nBodies →
       Z.of_nat (length (elems (VelocityDeltas gs'))) = nBodies
       ∧ Z.of_nat (length (elems (AngularVelocityDeltas gs'))) = nBodies).
Proof.
  intros Hne Hmax. rewrite Solve_unfold. cbv zeta.
  set (h := timestep frameDelta). set (g := setup h (Z.to_nat nBodies) gs).
  pose proof (setup_Ready h (Z.to_nat nBodies) gs) as []. fold g in rd_equations0,
    rd_maxIter0, rd_tolerance0, rd_V0, rd_W0, rd_invCs0, rd_Bs0, rd_lambda0.
  rewrite decide_True by (destruct (equations gs); [done | simpl; lia]).
  rewrite rd_maxIter0. replace (Z.to_nat (maxIter gs)) with 0%nat by lia.
  simpl iterate. simpl mbind.
  destruct (setMultipliers_is_Some h (solveLambda g) 0 (equations g)) as [eqs' Es].
  { rewrite rd_equations0, rd_lambda0, length_replicate. lia. }
  rewrite Es. simpl. exists (with_equations eqs' g).
  apply setMultipliers_Some in Es as [Hlen Hk].
  split; [reflexivity|]. simpl.
  split.
  { unfold appliedDeltas. fold h. fold g. rewrite rd_maxIter0.
    by replace (Z.to_nat (maxIter gs)) with 0%nat by lia. }
  split; [done|].
  assert (Heqs : eqs' = map (λ eq, SetMultiplier eq (Float32.div Float32.zero h))
                            (equations gs)).
  { apply list_eq. intros k. rewrite list_lookup_fmap.
    destruct (equations gs !! k) as [eq|] eqn:Ek; simpl.
    + rewrite rd_equations0 in Hk. destruct (Hk k eq Ek) as (l & Hl & ->).
      rewrite rd_lambda0 in Hl. apply lookup_replicate in Hl as [-> _]. done.
    + apply lookup_ge_None. apply lookup_ge_None in Ek. rewrite Hlen, rd_equations0. done. }
  split; [exact Heqs|]. split; [|split].
  - rewrite Heqs. apply Forall_forall. intros e' (e & -> & _)%list_elem_of_fmap. done.
  - rewrite Heqs. apply Forall2_fmap_r, Forall_Forall2_diag, Forall_forall.
    intros e _. apply sameButMultiplier_SetMultiplier.
  - split; [apply div_zero_positive|]. rewrite rd_V0, rd_W0.
    split; [done|]. split; [done|]. rewrite !length_replicate. lia.
Qed.

(* ===================================================================== *)
(** ** Objects that are listed more than once *)
(* ===================================================================== *)

Lemma sameButMultiplier_trans e1 e2 e3 :
  sameButMultiplier e1 e2 → sameButMultiplier e2 e3 → sameButMultiplier e1 e3.
Proof.
  unfold sameButMultiplier.
  intros (A1 & A2 & A3 & A4 & A5 & A6 & A7 & A8 & A9) (B1 & B2 & B3 & B4 & B5 & B6 & B7 & B8 & B9).
  repeat split; congruence.
Qed.

Lemma precomputeOn_Some h refs gs gs' :
  precomputeOn h refs gs = Some gs' →
  equations gs' = equations gs ∧ maxIter gs' = maxIter gs ∧ tolerance gs' = tolerance gs
  ∧ VelocityDeltas gs' = VelocityDeltas gs
  ∧ AngularVelocityDeltas gs' = AngularVelocityDeltas gs
  ∧ length (elems (solveInvCs gs')) = (length (elems (solveInvCs gs)) + length refs)%nat
  ∧ length (elems (solveBs gs')) = (length (elems (solveBs gs)) + length refs)%nat
  ∧ length (elems (solveLambda gs')) = (length (elems (solveLambda gs)) + length refs)%nat.
Proof.
  revert gs. induction refs as [|r rest IH]; intros gs H; simpl in H.
  - injection H as <-. repeat split; try done; simpl; lia.
  - destruct (equations gs !! r) as [eq|]; simpl in H; [|discriminate].
    apply IH in H as (-> & -> & -> & -> & -> & -> & -> & ->). simpl.
    rewrite !length_app. simpl. repeat split; try done; lia.
Qed.

Lemma precomputeOn_is_Some h refs gs :
  Forall (λ r, is_Some (equations gs !! r)) refs → is_Some (precomputeOn h refs gs).
Proof.
  revert gs. induction refs as [|r rest IH]; intros gs H; simpl; [eauto|].
  apply Forall_cons in H as [[eq ->] H]. simpl. by apply IH.
Qed.

Lemma eqLoopOn_Frame refs j gs tot gs' tot' :
  eqLoopOn refs j gs tot = Some (gs', tot') → Frame gs gs'.
Proof.
  revert j gs tot. induction refs as [|r rest IH]; intros j gs tot H; simpl in H.
  - injection H as <- <-. apply Frame_refl.
  - destruct (equations gs !! r) as [eq|]; simpl in H; [|discriminate].
    destruct (eqStep eq j gs) as [[g1 dl]|] eqn:E; simpl in H; [|discriminate].
    eapply Frame_trans; [by eapply eqStep_Frame | by eapply IH].
Qed.

Lemma iterateOn_Frame refs tolSq remaining iter gs iter' gs' :
  iterateOn refs tolSq remaining iter gs = Some (iter', gs') → Frame gs gs'.
Proof.
  revert iter gs. induction remaining as [|n IH]; intros iter gs H; simpl in H.
  - injection H as <- <-. apply Frame_refl.
  - destruct (passOn refs gs) as [[g1 tot]|] eqn:E; simpl in H; [|discriminate].
    apply eqLoopOn_Frame in E.
    destruct (Float32.ltb _ _).
    + injection H as <- <-. done.
    + eapply Frame_trans; [done | by eapply IH].
Qed.

Lemma eqLoopOn_is_Some nB refs j gs tot :
  Forall (listedBelow nB gs) refs →
  (j + length refs <= length (elems (solveLambda gs)))%nat →
  (j + length refs <= length (elems (solveInvCs gs)))%nat →
  (j + length refs <= length (elems (solveBs gs)))%nat →
  length (elems (VelocityDeltas gs)) = nB →
  length (elems (AngularVelocityDeltas gs)) = nB →
  is_Some (eqLoopOn refs j gs tot).
Proof.
  revert j gs tot. induction refs as [|r rest IH]; intros j gs tot Hall Hl Hc Hb Hv Hw; simpl.
  - eauto.
  - apply Forall_cons in Hall as [(eq & -> & HA & HB) Hall]. simpl in *.
    destruct (eqStep_is_Some eq j gs) as [[g1 dl] E]; try lia.
    rewrite E. simpl. pose proof (eqStep_Frame _ _ _ _ _ E) as [].
    apply IH; try done; try lia.
    + unfold listedBelow in *. by rewrite fr_equations0.
    + rewrite fr_invCs0. lia.
    + rewrite fr_Bs0. lia.
Qed.

Lemma iterateOn_is_Some nB refs tolSq remaining iter gs :
  Forall (listedBelow nB gs) refs →
  (length refs <= length (elems (solveLambda gs)))%nat →
  (length refs <= length (elems (solveInvCs gs)))%nat →
  (length refs <= length (elems (solveBs gs)))%nat →
  length (elems (VelocityDeltas gs)) = nB →
  length (elems (AngularVelocityDeltas gs)) = nB →
  is_Some (iterateOn refs tolSq remaining iter gs).
Proof.
  revert iter gs. induction remaining as [|n IH]; intros iter gs Hall Hl Hc Hb Hv Hw; simpl.
  - eauto.
  - destruct (eqLoopOn_is_Some nB refs 0 gs Float32.zero) as [[g1 tot] E]; try done.
    unfold passOn. rewrite E. simpl.
    destruct (Float32.ltb _ _); [eauto|].
    pose proof (eqLoopOn_Frame _ _ _ _ _ _ E) as [].
    apply IH; try congruence.
    unfold listedBelow in *. by rewrite fr_equations0.
Qed.

(** What the loop of lines 138-140 leaves: every object keeps all its
    fields but the multiplier, an object that no position lists is
    untouched, and an object that is listed carries the quotient for the
    last position that lists it. *)
Lemma writeMultipliers_Some h refs i gs gs' :
  writeMultipliers h refs i gs = Some gs' →
  gs' = with_equations (equations gs') gs
  ∧ length (equations gs') = length (equations gs)
  ∧ (∀ r eq, equations gs !! r = Some eq →
       ∃ eq', equations gs' !! r = Some eq' ∧ sameButMultiplier eq eq')
  ∧ (∀ r, r ∉ refs → equations gs' !! r = equations gs !! r)
  ∧ (∀ k r, refs !! k = Some r →
       ∃ k' l eq', (k <= k')%nat ∧ lastListing refs r k'
                   ∧ elems (solveLambda gs) !! (i + k')%nat = Some l
                   ∧ equations gs' !! r = Some eq'
                   ∧ multiplier eq' = Float32.div l h).
Proof.
  revert i gs. induction refs as [|r0 rest IH]; intros i gs H; simpl in H.
  - injection H as <-. split; [by destruct gs|]. split; [done|].
    split; [intros r eq Hr; exists eq; split; [done | apply sameButMultiplier_refl]|].
    split; [done|]. intros k r Hk. by rewrite lookup_nil in Hk.
  - unfold Slice.at_ in H.
    destruct (elems (solveLambda gs) !! i) as [l0|] eqn:El; simpl in H; [|discriminate].
    destruct (equations gs !! r0) as [eq0|] eqn:E0; simpl in H; [|discriminate].
    set (new := SetMultiplier eq0 (Float32.div l0 h)) in *.
    apply IH in H as (Hgs & Hlen & Hsame & Hout & Hin). simpl in *.
    assert (Hr0 : (r0 < length (equations gs))%nat) by (by eapply lookup_lt_Some).
    split; [by rewrite Hgs|]. split; [by rewrite Hlen, length_insert|].
    assert (Hlater : ∀ k1 r, rest !! k1 = Some r →
              ∃ k' l eq', (S k1 <= k')%nat ∧ lastListing (r0 :: rest) r k'
                          ∧ elems (solveLambda gs) !! (i + k')%nat = Some l
                          ∧ equations gs' !! r = Some eq'
                          ∧ multiplier eq' = Float32.div l h).
    { intros k1 r Hk1. destruct (Hin k1 r Hk1) as (k' & l & eq' & Hle & [Hk' Hlast] & Hl & He & Hm).
      exists (S k'), l, eq'. split; [lia|]. split.
      - split; [done|]. intros [|k''] Hlt; [lia|]. simpl. apply Hlast. lia.
      - rewrite <- Nat.add_succ_comm. done. }
    split; [|split].
    + intros r eq Hr. destruct (decide (r = r0)) as [->|Hne].
      * rewrite E0 in Hr. injection Hr as <-.
        destruct (Hsame r0 new) as (eq' & He' & Hs').
        { by apply list_lookup_insert_eq. }
        exists eq'. split; [done|].
        eapply sameButMultiplier_trans; [apply sameButMultiplier_SetMultiplier | exact Hs'].
      * apply Hsame. by rewrite list_lookup_insert_ne.
    + intros r Hr. apply not_elem_of_cons in Hr as [Hne Hr].
      rewrite (Hout r Hr). by apply list_lookup_insert_ne.
    + intros [|k1] r Hk; simpl in Hk.
      * injection Hk as <-. destruct (decide (r0 ∈ rest)) as [Hel|Hnel].
        -- apply list_elem_of_lookup in Hel as [k1 Hk1].
           destruct (Hlater k1 r0 Hk1) as (k' & l & eq' & Hle & Hrest).
           exists k', l, eq'. split; [lia | exact Hrest].
        -- exists 0%nat, l0, new. split; [lia|]. split.
           { split; [done|]. intros [|k''] Hlt; [lia|]. simpl. intros Hk''.
             apply Hnel. by eapply list_elem_of_lookup_2. }
           rewrite Nat.add_0_r. split; [done|]. split; [|done].
           rewrite (Hout r0 Hnel). by apply list_lookup_insert_eq.
      * destruct (Hlater k1 r Hk) as (k' & l & eq' & Hle & Hrest).
        exists k', l, eq'. split; [lia | exact Hrest].
Qed.

Lemma writeMultipliers_is_Some h refs i gs :
  Forall (λ r, is_Some (equations gs !! r)) refs →
  (i + length refs <= length (elems (solveLambda gs)))%nat →
  is_Some (writeMultipliers h refs i gs).
Proof.
  revert i gs. induction refs as [|r rest IH]; intros i gs Hall Hi; simpl in *; [eauto|].
  apply Forall_cons in Hall as [[eq Hr] Hall]. unfold Slice.at_.
  destruct (lookup_lt_is_Some_2 (elems (solveLambda gs)) i) as [l ->]; [lia|]. simpl.
  rewrite Hr. simpl. apply IH; simpl; [|lia].
  eapply Forall_impl; [exact Hall|]. intros r' [eq' Hr']. simpl.
  apply lookup_lt_is_Some. rewrite length_insert. by eapply lookup_lt_Some.
Qed.

(** What a successful call on the slice [refs] went through. *)
Lemma SolveOn_Some frameDelta nBodies refs gs iter gs' :
  SolveOn frameDelta nBodies refs gs = Some (iter, gs') →
  ∃ g, precomputeOn (timestep frameDelta) refs (resetDeltas (Z.to_nat nBodies) (Reset gs)) = Some g
       ∧ ((refs = [] ∧ iter = 0 ∧ gs' = g)
          ∨ (refs ≠ [] ∧
             ∃ it g',
               iterateOn refs (Float32.mul (tolerance g) (tolerance g))
                         (Z.to_nat (maxIter g)) 0 g = Some (it, g')
               ∧ writeMultipliers (timestep frameDelta) refs 0%nat g' = Some gs'
               ∧ iter = Int.add it 1)).
Proof.
  unfold SolveOn. cbv zeta. fold (timestep frameDelta).
  destruct (precomputeOn _ _ _) as [g|]; simpl; [|discriminate].
  intros H. exists g. split; [done|]. case_decide as Hd.
  - right. split; [intros ->; simpl in Hd; lia|].
    destruct (iterateOn _ _ _ _ _) as [[it g1]|]; simpl in H; [|discriminate].
    destruct (writeMultipliers _ _ _ _) as [g2|] eqn:Ew; simpl in H; [|discriminate].
    injection H as <- <-. eauto.
  - injection H as <- <-. left. destruct refs; simpl in *; [done|lia].
Qed.

(** The call returns whenever every position lists an object whose body
    indices are below [nBodies]. *)
Lemma SolveOn_is_Some frameDelta nBodies refs gs :
  Forall (listedBelow (Z.to_nat nBodies) gs) refs →
  is_Some (SolveOn frameDelta nBodies refs gs).
Proof.
  intros Hall. unfold SolveOn. cbv zeta. fold (timestep frameDelta).
  destruct (resetDeltas_facts (Z.to_nat nBodies) (Reset gs))
    as (Re & Rm & Rt & Ri & Rb & Rl & Rv & Rw).
  destruct (precomputeOn_is_Some (timestep frameDelta) refs
              (resetDeltas (Z.to_nat nBodies) (Reset gs))) as [g Eg].
  { rewrite Re. simpl. eapply Forall_impl; [exact Hall|]. intros r (eq & Hr & _). eauto. }
  rewrite Eg. simpl.
  apply precomputeOn_Some in Eg as (Pe & Pm & Pt & Pv & Pw & Pi & Pb & Pl).
  rewrite Re in Pe. simpl in Pe. rewrite Ri in Pi. rewrite Rb in Pb. rewrite Rl in Pl.
  simpl in Pi, Pb, Pl.
  case_decide; [|eauto].
  destruct (iterateOn_is_Some (Z.to_nat nBodies) refs
              (Float32.mul (tolerance g) (tolerance g)) (Z.to_nat (maxIter g)) 0 g)
    as [[it g'] E].
  - unfold listedBelow in *. by rewrite Pe.
  - lia.
  - lia.
  - lia.
  - rewrite Pv, Rv. simpl. by rewrite length_replicate.
  - rewrite Pw, Rw. simpl. by rewrite length_replicate.
  - rewrite E. simpl. pose proof (iterateOn_Frame _ _ _ _ _ _ _ E) as [].
    destruct (writeMultipliers_is_Some (timestep frameDelta) refs 0 g') as [g2 ->];
      [| |simpl; eauto].
    + rewrite fr_equations0, Pe. eapply Forall_impl; [exact Hall|].
      intros r (eq & Hr & _). eauto.
    + rewrite fr_lambda_len0. lia.
Qed.

(** When the slice lists every object once, in order, the loops are those
    of [Solve]. *)
Lemma precomputeOn_seq h j k gs :
  (j + k <= length (equations gs))%nat →
  precomputeOn h (seq j k) gs = Some (precompute h (take k (drop j (equations gs))) gs).
Proof.
  revert j gs. induction k as [|k IH]; intros j gs Hjk; simpl; [done|].
  destruct (lookup_lt_is_Some_2 (equations gs) j) as [eq Hj]; [lia|].
  rewrite Hj. simpl. rewrite (drop_S _ _ _ Hj). simpl.
  rewrite IH by (simpl; lia). done.
Qed.

Lemma eqLoopOn_seq j k j' gs tot :
  (j + k <= length (equations gs))%nat →
  eqLoopOn (seq j k) j' gs tot = eqLoop (take k (drop j (equations gs))) j' gs tot.
Proof.
  revert j j' gs tot. induction k as [|k IH]; intros j j' gs tot Hjk; simpl; [done|].
  destruct (lookup_lt_is_Some_2 (equations gs) j) as [eq Hj]; [lia|].
  rewrite Hj. simpl. rewrite (drop_S _ _ _ Hj). simpl.
  destruct (eqStep eq j' gs) as [[g1 dl]|] eqn:E; simpl; [|done].
  apply eqStep_Frame in E as [He _ _ _ _ _ _ _].
  rewrite IH by (rewrite He; lia). by rewrite He.
Qed.

Lemma passOn_seq gs : passOn (seq 0 (length (equations gs))) gs = pass gs.
Proof.
  unfold passOn, pass. rewrite eqLoopOn_seq by lia.
  by rewrite drop_0, firstn_all.
Qed.

Lemma iterateOn_seq tolSq remaining iter gs :
  iterateOn (seq 0 (length (equations gs))) tolSq remaining iter gs
  = iterate tolSq remaining iter gs.
Proof.
  revert iter gs. induction remaining as [|n IH]; intros iter gs; simpl; [done|].
  rewrite passOn_seq.
  destruct (pass gs) as [[g1 tot]|] eqn:E; simpl; [|done].
  destruct (Float32.ltb _ _); [done|].
  apply pass_Frame in E as [He _ _ _ _ _ _ _]. rewrite <- He. apply IH.
Qed.

Lemma writeMultipliers_seq h j k i gs :
  (j + k <= length (equations gs))%nat →
  writeMultipliers h (seq j k) i gs
  = (eqs' ← setMultipliers h (solveLambda gs) i (take k (drop j (equations gs)));
     Some (with_equations (take j (equations gs) ++ eqs' ++ drop (j + k) (equations gs)) gs)).
Proof.
  revert j i gs. induction k as [|k IH]; intros j i gs Hjk; simpl.
  - rewrite Nat.add_0_r, take_drop. by destruct gs.
  - destruct (lookup_lt_is_Some_2 (equations gs) j) as [eq Hj]; [lia|].
    rewrite (drop_S _ _ _ Hj). simpl.
    destruct (Slice.at_ (solveLambda gs) i) as [l|]; simpl; [|done].
    rewrite Hj. simpl. rewrite IH by (simpl; rewrite length_insert; lia). simpl.
    rewrite !drop_insert_lt by lia.
    destruct (setMultipliers h (solveLambda gs) (S i) (take k (drop (S j) (equations gs))))
      as [rest'|]; simpl; [|done].
    f_equal. unfold with_equations. simpl. f_equal.
    rewrite (take_S_r _ _ (SetMultiplier eq (Float32.div l h)))
      by (apply list_lookup_insert_eq; lia).
    rewrite take_insert_ge by lia. rewrite <- app_assoc. simpl.
    by rewrite <- Nat.add_succ_comm.
Qed.

Lemma SolveOn_listed_once frameDelta nBodies gs :
  SolveOn frameDelta nBodies (seq 0 (length (equations gs))) gs = Solve frameDelta nBodies gs.
Proof.
  rewrite Solve_unfold. unfold SolveOn. cbv zeta. fold (timestep frameDelta).
  set (h := timestep frameDelta). rewrite length_seq.
  assert (Hpre : precomputeOn h (seq 0 (length (equations gs)))
                   (resetDeltas (Z.to_nat nBodies) (Reset gs))
                 = Some (setup h (Z.to_nat nBodies) gs)).
  { unfold setup. cbv zeta.
    destruct (resetDeltas_facts (Z.to_nat nBodies) (Reset gs)) as (Re & _). simpl in Re.
    rewrite <- Re at 1. rewrite precomputeOn_seq by lia. by rewrite drop_0, firstn_all. }
  rewrite Hpre. simpl.
  set (g := setup h (Z.to_nat nBodies) gs).
  destruct (setup_Ready h (Z.to_nat nBodies) gs) as [He _ _ _ _ _ _ _]. fold g in He.
  case_decide; [|done].
  rewrite <- He, iterateOn_seq.
  destruct (iterate _ _ _ _) as [[it g1]|] eqn:Ei; simpl; [|done].
  apply iterate_Frame in Ei as [He1 _ _ _ _ _ _ _]. rewrite <- He1.
  rewrite writeMultipliers_seq by lia. rewrite drop_0, firstn_all. simpl.
  destruct (setMultipliers _ _ _ _) as [eqs'|] eqn:Es; simpl; [|done].
  rewrite drop_all, app_nil_r. done.
Qed.

Lemma writeMultipliers_app h l1 l2 i gs :
  writeMultipliers h (l1 ++ l2) i gs
  = writeMultipliers h l1 i gs ≫= writeMultipliers h l2 (i + length l1).
Proof.
  revert i gs. induction l1 as [|r rest IH]; intros i gs; simpl.
  - by rewrite Nat.add_0_r.
  - destruct (Slice.at_ (solveLambda gs) i) as [l|]; simpl; [|done].
    destruct (equations gs !! r) as [eq|]; simpl; [|done].
    rewrite IH. by rewrite Nat.add_succ_comm.
Qed.

(** The writes up to position [j] leave [lambda[j] / h] on the object that
    position [j] lists, and the writes after it complete the loop. *)
Lemma writeMultipliers_at h refs gs gs' j r :
  writeMultipliers h refs 0 gs = Some gs' → refs !! j = Some r →
  ∃ l gj eq',
    writeMultipliers h (take (S j) refs) 0 gs = Some gj
    ∧ writeMultipliers h (drop (S j) refs) (S j) gj = Some gs'
    ∧ elems (solveLambda gs) !! j = Some l
    ∧ equations gj !! r = Some eq'
    ∧ multiplier eq' = Float32.div l h.
Proof.
  intros H Hj. pose proof (lookup_lt_Some _ _ _ Hj) as Hlt.
  rewrite <- (take_drop (S j) refs), writeMultipliers_app in H.
  rewrite length_take, Nat.min_l in H by lia. simpl in H.
  destruct (writeMultipliers h (take (S j) refs) 0 gs) as [gj|] eqn:Ej; simpl in H; [|discriminate].
  rewrite (take_S_r _ _ _ Hj), writeMultipliers_app in Ej.
  rewrite length_take, Nat.min_l in Ej by lia. simpl in Ej.
  destruct (writeMultipliers h (take j refs) 0 gs) as [g1|] eqn:E1; simpl in Ej; [|discriminate].
  apply writeMultipliers_Some in E1 as (Hg1 & _).
  unfold Slice.at_ in Ej. rewrite Hg1 in Ej. simpl in Ej.
  destruct (elems (solveLambda gs) !! j) as [l|] eqn:El; simpl in Ej; [|discriminate].
  destruct (equations g1 !! r) as [eq|] eqn:Er; simpl in Ej; [|discriminate].
  injection Ej as <-. exists l. eexists. exists (SetMultiplier eq (Float32.div l h)).
  split; [reflexivity|]. split; [exact H|]. split; [done|]. split; [|done].
  simpl. apply list_lookup_insert_eq. by eapply lookup_lt_Some.
Qed.

(** C5.  Whenever the call returns (whether the loop stopped early or ran
    out of rounds), the loop of lines 138-140 has gone through the
    positions in list order and has written, at position [j],
    [lambda[j] / h] onto the object that the position lists: right after
    the writes for the positions up to [j] that object carries the
    multiplier [lambda[j] / h], with [lambda] the final buffer of
    accumulated impulses and [h] the timestep in seconds.  So after the
    call the object carries the value written at the last position that
    lists it, which is [lambda[j] / h] when no later position lists it: for
    every [j] when no object is listed twice, as in [Solve].  The other
    fields of the objects are the ones they had, and an object that no
    position lists is untouched. *)
Theorem Solve_writes_multipliers frameDelta nBodies refs gs iter gs' :
  SolveOn frameDelta nBodies refs gs = Some (iter, gs') →
  length (equations gs') = length (equations gs)
  ∧ (∃ g, writeMultipliers (timestep frameDelta) refs 0 g = Some gs'
          ∧ equations g = equations gs
          ∧ solveLambda g = solveLambda gs'
          ∧ ∀ j r, refs !! j = Some r →
              ∃ l gj eq',
                writeMultipliers (timestep frameDelta) (take (S j) refs) 0 g = Some gj
                ∧ writeMultipliers (timestep frameDelta) (drop (S j) refs) (S j) gj = Some gs'
                ∧ elems (solveLambda gs') !! j = Some l
                ∧ equations gj !! r = Some eq'
                ∧ multiplier eq' = Float32.div l (timestep frameDelta))
  ∧ (∀ j r, refs !! j = Some r →
       ∃ k l eq eq',
         (j <= k)%nat ∧ lastListing refs r k
         ∧ elems (solveLambda gs') !! k = Some l
         ∧ equations gs !! r = Some eq ∧ equations gs' !! r = Some eq'
         ∧ multiplier eq' = Float32.div l (timestep frameDelta)
         ∧ sameButMultiplier eq eq')
  ∧ (∀ j r, refs !! j = Some r → r ∉ drop (S j) refs →
       ∃ l eq eq', elems (solveLambda gs') !! j = Some l
                   ∧ equations gs !! r = Some eq ∧ equations gs' !! r = Some eq'
                   ∧ multiplier eq' = Float32.div l (timestep frameDelta)
                   ∧ sameButMultiplier eq eq')
  ∧ (NoDup refs →
     ∀ j r, refs !! j = Some r →
       ∃ l eq eq', elems (solveLambda gs') !! j = Some l
                   ∧ equations gs !! r = Some eq ∧ equations gs' !! r = Some eq'
                   ∧ multiplier eq' = Float32.div l (timestep frameDelta)
                   ∧ sameButMultiplier eq eq')
  ∧ (∀ r, r ∉ refs → equations gs' !! r = equations gs !! r)
  ∧ (refs = seq 0 (length (equations gs)) →
     Solve frameDelta nBodies gs = Some (iter, gs')).
Proof.
  intros HS. pose proof HS as (g & Hpre & H)%SolveOn_Some.
  destruct (resetDeltas_facts (Z.to_nat nBodies) (Reset gs)) as (Re & _). simpl in Re.
  apply precomputeOn_Some in Hpre as (Pe & _). rewrite Re in Pe.
  assert (Hmain : length (equations gs') = length (equations gs)
    ∧ (∃ g, writeMultipliers (timestep frameDelta) refs 0 g = Some gs'
            ∧ equations g = equations gs
            ∧ solveLambda g = solveLambda gs')
    ∧ (∀ j r, refs !! j = Some r →
         ∃ k l eq eq',
           (j <= k)%nat ∧ lastListing refs r k
           ∧ elems (solveLambda gs') !! k = Some l
           ∧ equations gs !! r = Some eq ∧ equations gs' !! r = Some eq'
           ∧ multiplier eq' = Float32.div l (timestep frameDelta)
           ∧ sameButMultiplier eq eq')
    ∧ (∀ r, r ∉ refs → equations gs' !! r = equations gs !! r)).
  { destruct H as [(-> & _ & ->)|(_ & it & g' & Hit & Hw & _)].
    - rewrite Pe. split; [done|]. split; [by exists g|]. split; [|done].
      intros j r Hj. by rewrite lookup_nil in Hj.
    - apply iterateOn_Frame in Hit as [He _ _ _ _ _ _ _]. rewrite Pe in He.
      pose proof Hw as (Hgs & Hlen & Hsame & Hout & Hin)%writeMultipliers_Some.
      rewrite He in Hlen, Hsame, Hout. split; [done|]. split.
      { exists g'. split; [done|]. split; [done|]. by rewrite Hgs. }
      split; [|done].
      intros j r Hj. destruct (Hin j r Hj) as (k & l & eq' & Hle & Hlast & Hl & He' & Hm).
      destruct (lookup_lt_is_Some_2 (equations gs) r) as [eq Hr].
      { rewrite <- Hlen. by eapply lookup_lt_Some. }
      destruct (Hsame r eq Hr) as (eq'' & He'' & Hs). rewrite He' in He''.
      injection He'' as <-. exists k, l, eq, eq'. rewrite Hgs. simpl. auto 10. }
  destruct Hmain as (Hlen & (g0 & Hw0 & He0 & Hl0) & Hpos & Hout).
  assert (Honce : ∀ j r, refs !! j = Some r → r ∉ drop (S j) refs →
            ∃ l eq eq', elems (solveLambda gs') !! j = Some l
                        ∧ equations gs !! r = Some eq ∧ equations gs' !! r = Some eq'
                        ∧ multiplier eq' = Float32.div l (timestep frameDelta)
                        ∧ sameButMultiplier eq eq').
  { intros j r Hj Hnot.
    destruct (Hpos j r Hj) as (k & l & eq & eq' & Hle & [Hk _] & Hl & He & He' & Hm & Hs).
    destruct (decide (k = j)) as [->|Hne]; [eauto 10|].
    exfalso. apply Hnot. apply list_elem_of_lookup. exists (k - S j)%nat.
    rewrite lookup_drop. replace (S j + (k - S j))%nat with k by lia. done. }
  split; [done|]. split.
  { exists g0. split; [done|]. split; [done|]. split; [done|]. intros j r Hj.
    destruct (writeMultipliers_at _ _ _ _ j r Hw0 Hj) as (l & gj & eq' & H1 & H2 & Hl & He' & Hm).
    exists l, gj, eq'. rewrite <- Hl0. auto. }
  split; [done|]. split; [done|]. split.
  { intros Hnd j r Hj. apply Honce; [done|].
    rewrite <- (take_drop (S j) refs) in Hnd. apply NoDup_app in Hnd as (_ & Hnd & _).
    apply Hnd. rewrite (take_S_r _ _ _ Hj).
    apply list_elem_of_lookup. exists (length (take j refs)). apply list_lookup_middle. done. }
  split; [done|].
  intros ->. by rewrite <- SolveOn_listed_once.
Qed.

(** C9. [Solve] changes nothing of an equation but its multiplier: the
    list it leaves has the same length, and entry by entry the bodies
    (with their index, inverse mass and inverse inertia), the coefficients
    [C], [B], [eps], [minForce], [maxForce] and both Jacobian rows are the
    ones that were passed in. *)
Theorem Solve_frame frameDelta nBodies gs iter gs' :
  Solve frameDelta nBodies gs = Some (iter, gs') →
  Forall2 sameButMultiplier (equations gs) (equations gs').
Proof.
  rewrite Solve_unfold. cbv zeta.
  set (h := timestep frameDelta). set (g := setup h (Z.to_nat nBodies) gs).
  pose proof (setup_Ready h (Z.to_nat nBodies) gs) as []. fold g in rd_equations0.
  case_decide as Hdec.
  - intros H.
    destruct (iterate _ _ _ _) as [[it g1]|] eqn:Ei; simpl in H; [|discriminate].
    destruct (setMultipliers _ _ _ _) as [eqs'|] eqn:Es; simpl in H; [|discriminate].
    injection H as <- <-. simpl.
    apply iterate_Frame in Ei as []. apply setMultipliers_Some in Es as [Hlen Hk].
    rewrite fr_equations0, rd_equations0 in Hlen, Hk.
    apply Forall2_same_length_lookup. split; [done|].
    intros j eq eq' Hj Hj'. destruct (Hk j eq Hj) as (l & _ & He).
    rewrite He in Hj'. injection Hj' as <-. apply sameButMultiplier_SetMultiplier.
  - intros [= <- <-]. rewrite rd_equations0.
    apply Forall2_same_length_lookup. split; [done|].
    intros j eq eq' Hj Hj'. rewrite Hj in Hj'. injection Hj' as <-.
    apply sameButMultiplier_refl.
Qed.

(* ===================================================================== *)
(** ** Facts about float32: comparison, signed zeros, NaN *)
(* ===================================================================== *)

Section Float32Facts.
Implicit Types x y z : float32.

Lemma compare_cont_Eq_antisym p q :
  Pos.compare_cont Eq q p = CompOpp (Pos.compare_cont Eq p q).
Proof. by rewrite (Pos.compare_cont_antisym p q Eq). Qed.

Lemma SFcompare_antisym x y : SFcompare y x = CompOpp <$> SFcompare x y.
Proof.
  destruct x as [[]|[]| |[] mx ex], y as [[]|[]| |[] my ey]; simpl; try reflexivity.
  - rewrite (Z.compare_antisym ey ex), (compare_cont_Eq_antisym mx my).
    destruct (ey ?= ex); simpl; try reflexivity.
  - rewrite (Z.compare_antisym ey ex), (compare_cont_Eq_antisym mx my).
    destruct (ey ?= ex); simpl; reflexivity.
Qed.

Lemma SFcompare_refl x : Float32.is_nan x = false → SFcompare x x = Some Eq.
Proof.
  destruct x as [[]|[]| |[] m e]; simpl; try done; intros _;
    by rewrite Z.compare_refl, Pos.compare_cont_refl.
Qed.


Lemma leb_not_nan x y :
  Float32.leb x y = true → Float32.is_nan x = false ∧ Float32.is_nan y = false.
Proof.
  unfold Float32.leb, SFleb.
  destruct x as [[]|[]| |[] mx ex], y as [[]|[]| |[] my ey]; simpl; try discriminate; auto.
Qed.

Lemma leb_refl x : Float32.is_nan x = false → Float32.leb x x = true.
Proof. intros H. unfold Float32.leb, SFleb. by rewrite SFcompare_refl. Qed.


Lemma ltb_infinity x : Float32.ltb Float32.infinity x = false.
Proof. by destruct x as [[]|[]| |[] m e]. Qed.


(** NaN is contagious. *)
Lemma add_not_nan x y :
  Float32.is_nan (Float32.add x y) = false →
  Float32.is_nan x = false ∧ Float32.is_nan y = false.
Proof. destruct x as [[]|[]| |[] mx ex], y as [[]|[]| |[] my ey]; simpl; try done. Qed.

Lemma sub_not_nan x y :
  Float32.is_nan (Float32.sub x y) = false →
  Float32.is_nan x = false ∧ Float32.is_nan y = false.
Proof. destruct x as [[]|[]| |[] mx ex], y as [[]|[]| |[] my ey]; simpl; try done. Qed.

Lemma mul_not_nan x y :
  Float32.is_nan (Float32.mul x y) = false →
  Float32.is_nan x = false ∧ Float32.is_nan y = false.
Proof. destruct x as [[]|[]| |[] mx ex], y as [[]|[]| |[] my ey]; simpl; try done. Qed.

(** A product with a zero is a NaN unless the other factor is finite. *)
Lemma mul_zero_not_nan x z :
  Float32.is_zero z = true → Float32.is_nan (Float32.mul x z) = false →
  Float32.is_finite x = true.
Proof. destruct z as [[]| | |]; try discriminate; by destruct x as [[]|[]| |[] mx ex]. Qed.

Lemma mul_zero_l z x :
  Float32.is_zero z = true → Float32.is_finite x = true →
  Float32.is_zero (Float32.mul z x) = true.
Proof. destruct z as [[]| | |]; try discriminate; by destruct x as [[]|[]| |[] mx ex]. Qed.

Lemma mul_zero_r x z :
  Float32.is_finite x = true → Float32.is_zero z = true →
  Float32.is_zero (Float32.mul x z) = true.
Proof. destruct z as [[]| | |]; try discriminate; by destruct x as [[]|[]| |[] mx ex]. Qed.

Lemma add_zeros x y :
  Float32.is_zero x = true → Float32.is_zero y = true →
  Float32.is_zero (Float32.add x y) = true.
Proof. by destruct x as [[]| | |], y as [[]| | |]. Qed.

(** [+0] absorbs a zero of either sign. *)
Lemma add_zero_r z :
  Float32.is_zero z = true → Float32.add Float32.zero z = Float32.zero.
Proof. by destruct z as [[]| | |]. Qed.

Lemma is_zero_finite z : Float32.is_zero z = true → Float32.is_finite z = true.
Proof. by destruct z. Qed.

Lemma is_finite_not_nan x : Float32.is_finite x = true → Float32.is_nan x = false.
Proof. by destruct x. Qed.
End Float32Facts.

(* ===================================================================== *)
(** ** Rounding in binary32: well-formed values and rounding errors *)
(* ===================================================================== *)

(** *** Binary digits *)








Lemma pow2_split a b : 0 <= a → 0 <= b → 2 ^ (a + b) = 2 ^ a * 2 ^ b.
Proof. intros. by apply Z.pow_add_r. Qed.

(** *** Shifting a mantissa to the right *)










(** *** Rounding to 24 bits *)














(** *** The value of a rounded float *)


(** *** Operations keep values well-formed *)







Lemma wellFormed_abs x : wellFormed x → wellFormed (Float32.abs x).
Proof. by destruct x. Qed.

(** *** Comparison by value *)






(** *** Sums and differences by value *)





(* ===================================================================== *)
(** ** Invariants of the iteration *)
(* ===================================================================== *)

Section Invariant.
Variable all : list Equation.
Variable P : GaussSeidel → Prop.
Variable Q : float32 → Prop.

(** A step on equation [k] of the list that applies an update satisfying
    [Q] keeps [P]. *)
Hypothesis step_keeps : ∀ k eq g g' dl,
  all !! k = Some eq → eqStep eq k g = Some (g', dl) → Q dl → P g → P g'.

Lemma eqLoop_invariant eqs j gs tot gs' tot' :
  drop j all = eqs →
  eqLoop eqs j gs tot = Some (gs', tot') →
  Forall Q (deltasOfLoop eqs j gs) →
  P gs → P gs'.
Proof.
  revert j gs tot. induction eqs as [|eq rest IH]; intros j gs tot Hd H HQ HP; simpl in *.
  - by injection H as <- <-.
  - destruct (eqStep eq j gs) as [[g1 dl]|] eqn:E; simpl in H; [|discriminate].
    apply Forall_cons in HQ as [Hdl HQ].
    assert (Hj : all !! j = Some eq).
    { rewrite <- (Nat.add_0_r j), <- lookup_drop, Hd. done. }
    eapply (IH (S j)); [| exact H | exact HQ | by eapply step_keeps].
    rewrite <- Nat.add_1_r, <- drop_drop, Hd. done.
Qed.

Lemma iterate_invariant tolSq remaining iter gs iter' gs' :
  equations gs = all →
  iterate tolSq remaining iter gs = Some (iter', gs') →
  Forall Q (deltasOfIterate tolSq remaining gs) →
  P gs → P gs'.
Proof.
  revert iter gs. induction remaining as [|r IH]; intros iter gs Hall H HQ HP; simpl in *.
  - by injection H as <- <-.
  - apply Forall_app in HQ as [HQ1 HQ2].
    destruct (pass gs) as [[g1 tot]|] eqn:E; simpl in H; [|discriminate].
    assert (P g1) as HP1.
    { eapply (eqLoop_invariant (equations gs) 0); [by rewrite Hall | exact E | done | done]. }
    destruct (Float32.ltb _ _).
    + by injection H as <- <-.
    + apply pass_Frame in E as [He _ _ _ _ _ _ _].
      eapply IH; [by rewrite He | exact H | done | done].
Qed.
End Invariant.

(** What a successful call went through. *)
Lemma Solve_Some frameDelta nBodies gs iter gs' :
  Solve frameDelta nBodies gs = Some (iter, gs') →
  let g := setup (timestep frameDelta) (Z.to_nat nBodies) gs in
  (equations gs = [] ∧ iter = 0 ∧ gs' = g)
  ∨ (equations gs ≠ [] ∧
     ∃ it g' eqs',
       iterate (Float32.mul (tolerance g) (tolerance g)) (Z.to_nat (maxIter g)) 0 g
       = Some (it, g')
       ∧ setMultipliers (timestep frameDelta) (solveLambda g') 0%nat (equations g') = Some eqs'
       ∧ iter = Int.add it 1 ∧ gs' = with_equations eqs' g').
Proof.
  rewrite Solve_unfold. cbv zeta. case_decide as Hd.
  - intros H. right. split; [intros Hnil; rewrite Hnil in Hd; simpl in Hd; lia|].
    destruct (iterate _ _ _ _) as [[it g1]|] eqn:Ei; simpl in H; [|discriminate].
    destruct (setMultipliers _ _ _ _) as [eqs'|] eqn:Es; simpl in H; [|discriminate].
    injection H as <- <-. eauto 10.
  - intros [= <- <-]. left. destruct (equations gs); simpl in *; [done|lia].
Qed.

(* ===================================================================== *)
(** ** The clamp *)
(* ===================================================================== *)



(* ===================================================================== *)
(** ** The clamp, by value *)
(* ===================================================================== *)









(* ===================================================================== *)
(** ** The iteration keeps the numbers well-formed *)
(* ===================================================================== *)

















(* ===================================================================== *)
(** ** The pass of the code is the pass of the specification *)
(* ===================================================================== *)

Lemma index_read {A} (s : slice A) i : Slice.index s i = Spec.read (elems s) i.
Proof. reflexivity. Qed.

Lemma addAt_addTo v i d : elems <$> addAt v i d = Spec.addTo (elems v) i d.
Proof.
  unfold addAt, Spec.addTo. rewrite index_read.
  destruct (Spec.read (elems v) i) as [cur|] eqn:E; simpl; [|done].
  unfold Spec.read in E. case_decide; [|done].
  unfold Slice.store. rewrite decide_True by done.
  rewrite set_at_in_range by (by eapply lookup_lt_Some). done.
Qed.

Lemma addAt_None v i d : addAt v i d = None → Spec.addTo (elems v) i d = None.
Proof. intros H. by rewrite <- addAt_addTo, H. Qed.

Lemma addAt_Some_addTo v i d v' :
  addAt v i d = Some v' → Spec.addTo (elems v) i d = Some (elems v').
Proof. intros H. by rewrite <- addAt_addTo, H. Qed.

Lemma eqStep_refines h eq j gs tot :
  elems (solveInvCs gs) !! j = Some (invCOf eq) →
  elems (solveBs gs) !! j = Some (ComputeB eq h) →
  (λ '(gs', dl), (view gs', Float32.add tot (math32.Abs dl))) <$> eqStep eq j gs
  = Spec.update h eq j (view gs) tot.
Proof.
  unfold eqStep, Spec.update, Slice.at_, invCOf.
  generalize (Float32.div Float32.one (ComputeC eq)). intros invC Hc Hb.
  destruct gs as [eqs V W mi tol ic bs lam]; simpl in *.
  rewrite Hc, Hb, !index_read. simpl.
  destruct (elems lam !! j) as [lamJ|] eqn:El; simpl.
  2:{ repeat (match goal with |- None = ?m ≫= _ => destruct m; simpl end); done. }
  destruct (Spec.read (elems V) (Index (BodyA eq))) as [vA|]; simpl; [|done].
  destruct (Spec.read (elems V) (Index (BodyB eq))) as [vB|]; simpl; [|done].
  destruct (Spec.read (elems W) (Index (BodyA eq))) as [wA|]; simpl; [|done].
  destruct (Spec.read (elems W) (Index (BodyB eq))) as [wB|]; simpl; [|done].
  rewrite set_at_in_range by (by eapply lookup_lt_Some). simpl.
  match goal with |- context [clamp ?a ?b ?c ?d] => generalize (clamp a b c d) end.
  intros dl.
  change (math32.MultiplyScalar (Spatial (JeA eq)) (Float32.mul (InvMassSolve (BodyA eq)) dl))
    with (impulseVA eq dl).
  change (math32.MultiplyScalar (Spatial (JeB eq)) (Float32.mul (InvMassSolve (BodyB eq)) dl))
    with (impulseVB eq dl).
  change (math32.MultiplyScalar
            (math32.ApplyMatrix3 (Rotational (JeA eq)) (InvInertiaWorldSolve (BodyA eq))) dl)
    with (impulseWA eq dl).
  change (math32.MultiplyScalar
            (math32.ApplyMatrix3 (Rotational (JeB eq)) (InvInertiaWorldSolve (BodyB eq))) dl)
    with (impulseWB eq dl).
  destruct (addAt V _ _) as [v1|] eqn:E1; simpl.
  2:{ by rewrite (addAt_None _ _ _ E1). }
  rewrite (addAt_Some_addTo _ _ _ _ E1). simpl.
  destruct (addAt v1 _ _) as [v2|] eqn:E2; simpl.
  2:{ by rewrite (addAt_None _ _ _ E2). }
  rewrite (addAt_Some_addTo _ _ _ _ E2). simpl.
  destruct (addAt W _ _) as [w1|] eqn:E3; simpl.
  2:{ by rewrite (addAt_None _ _ _ E3). }
  rewrite (addAt_Some_addTo _ _ _ _ E3). simpl.
  destruct (addAt w1 _ _) as [w2|] eqn:E4; simpl.
  2:{ by rewrite (addAt_None _ _ _ E4). }
  rewrite (addAt_Some_addTo _ _ _ _ E4). simpl.
  reflexivity.
Qed.

Lemma eqLoop_refines h all eqs j gs tot :
  drop j all = eqs →
  elems (solveInvCs gs) = map invCOf all →
  elems (solveBs gs) = map (λ eq, ComputeB eq h) all →
  (λ '(gs', t), (view gs', t)) <$> eqLoop eqs j gs tot = Spec.updates h eqs j (view gs) tot.
Proof.
  revert j gs tot. induction eqs as [|eq rest IH]; intros j gs tot Hd Hc Hb; simpl.
  - done.
  - assert (Hj : all !! j = Some eq).
    { rewrite <- (Nat.add_0_r j), <- lookup_drop, Hd. done. }
    rewrite <- (eqStep_refines h eq j gs tot).
    2:{ rewrite Hc. change (map invCOf all) with (invCOf <$> all).
        by rewrite list_lookup_fmap, Hj. }
    2:{ rewrite Hb. change (map (λ eq, ComputeB eq h) all) with ((λ eq, ComputeB eq h) <$> all).
        by rewrite list_lookup_fmap, Hj. }
    destruct (eqStep eq j gs) as [[g1 dl]|] eqn:E; simpl; [|done].
    apply eqStep_Frame in E as [_ _ _ Ei Eb _ _ _].
    apply IH.
    + rewrite <- Nat.add_1_r, <- drop_drop, Hd. done.
    + by rewrite Ei.
    + by rewrite Eb.
Qed.

Lemma pass_refines h gs :
  Cached h gs →
  (λ '(gs', t), (view gs', t)) <$> pass gs = Spec.pass h (equations gs) (view gs).
Proof. intros [Hc Hb]. by apply (eqLoop_refines h (equations gs)). Qed.

Lemma pass_Cached h gs gs' tot : Cached h gs → pass gs = Some (gs', tot) → Cached h gs'.
Proof.
  intros [Hc Hb] [He _ _ Ei Eb _ _ _]%pass_Frame. unfold Cached. by rewrite He, Ei, Eb.
Qed.

Lemma setup_Cached h n gs : Cached h (setup h n gs).
Proof. destruct (setup_Ready h n gs). unfold Cached. by rewrite rd_equations0. Qed.

Lemma afterPasses_Cached h k gs g :
  Cached h gs → afterPasses k gs = Some g → Cached h g ∧ equations g = equations gs.
Proof.
  revert gs. induction k as [|k IH]; intros gs HC H; simpl in H.
  - by injection H as <-.
  - destruct (pass gs) as [[g1 tot]|] eqn:E; simpl in H; [|discriminate].
    destruct (IH g1 (pass_Cached _ _ _ _ HC E) H) as [HC' He].
    split; [done|]. apply pass_Frame in E as [He1 _ _ _ _ _ _ _]. congruence.
Qed.

(** C4. At every pass of a call (after any number [k] of earlier passes)
    the caches hold [1/C_j] and [B_j(h)] as computed once before the loop,
    and the pass of the code is the pass of the specification: it visits
    the equations in list order, equation [j] reads the solution arrays as
    the equations before it left them, and its update is
    [invC[j] * (b[j] - GWlambda - eps_j * lambda[j])] with [GWlambda] the
    sum of the two 6-component dot products. *)
Theorem pass_follows_specification frameDelta nBodies gs k g :
  afterPasses k (setup (timestep frameDelta) (Z.to_nat nBodies) gs) = Some g →
  equations g = equations gs
  ∧ elems (solveInvCs g) = map (λ eq, Float32.div Float32.one (ComputeC eq)) (equations gs)
  ∧ elems (solveBs g) = map (λ eq, ComputeB eq (timestep frameDelta)) (equations gs)
  ∧ (λ '(g', totalDelta), (view g', totalDelta)) <$> pass g
    = Spec.pass (timestep frameDelta) (equations gs) (view g).
Proof.
  intros H.
  destruct (afterPasses_Cached (timestep frameDelta) k _ g (setup_Cached _ _ _) H) as [HC He].
  destruct (setup_Ready (timestep frameDelta) (Z.to_nat nBodies) gs) as [He0 _ _ _ _ _ _ _].
  rewrite He0 in He. pose proof HC as [Hc Hb]. rewrite He in Hc, Hb.
  repeat split; try done.
  rewrite <- He. by apply pass_refines.
Qed.

(* ===================================================================== *)
(** ** The outcome depends on the inputs alone *)
(* ===================================================================== *)

Lemma iterate_refines h tolSq remaining iter gs :
  Cached h gs →
  (λ '(i, gs'), (i, view gs')) <$> iterate tolSq remaining iter gs
  = iterateValues h (equations gs) tolSq remaining iter (view gs).
Proof.
  revert iter gs. induction remaining as [|r IH]; intros iter gs HC; simpl; [done|].
  rewrite <- (pass_refines h gs HC).
  destruct (pass gs) as [[g1 tot]|] eqn:E; simpl; [|done].
  destruct (Float32.ltb _ _); [done|].
  rewrite (IH _ g1 (pass_Cached _ _ _ _ HC E)).
  apply pass_Frame in E as [He _ _ _ _ _ _ _]. by rewrite He.
Qed.

Lemma setMultipliers_elems h lam i eqs :
  setMultipliers h lam i eqs = setMultipliers h (mkSlice (elems lam) []) i eqs.
Proof.
  revert i. induction eqs as [|eq rest IH]; intros i; simpl; [done|].
  unfold Slice.at_. simpl. by rewrite IH.
Qed.

Lemma Solve_solveValues frameDelta nBodies gs :
  outcome <$> Solve frameDelta nBodies gs
  = solveValues frameDelta nBodies (equations gs) (maxIter gs) (tolerance gs).
Proof.
  rewrite Solve_unfold. unfold solveValues. cbv zeta.
  set (h := timestep frameDelta). set (g := setup h (Z.to_nat nBodies) gs).
  pose proof (setup_Cached h (Z.to_nat nBodies) gs) as HC. fold g in HC.
  destruct (setup_Ready h (Z.to_nat nBodies) gs) as [He Hm Ht Hv Hw _ _ Hl].
  fold g in He, Hm, Ht, Hv, Hw, Hl.
  assert (Hview : view g = Spec.mkState (replicate (length (equations gs)) Float32.zero)
                             (replicate (Z.to_nat nBodies) math32.zero3)
                             (replicate (Z.to_nat nBodies) math32.zero3)).
  { unfold view. by rewrite Hl, Hv, Hw. }
  case_decide as Hd.
  - rewrite Hm, Ht, <- Hview, <- He, <- (iterate_refines h _ _ _ g HC).
    destruct (iterate _ _ _ _) as [[it g1]|] eqn:Ei; simpl; [|done].
    apply iterate_Frame in Ei as [He1 _ _ _ _ _ _ _].
    rewrite <- He1, (setMultipliers_elems h (solveLambda g1)).
    destruct (setMultipliers _ _ _ _) as [eqs'|]; simpl; done.
  - simpl. unfold outcome. simpl. by rewrite He, Hview.
Qed.

Lemma sameButMultiplier_SetMultiplier_eq e1 e2 m :
  sameButMultiplier e1 e2 → SetMultiplier e1 m = SetMultiplier e2 m.
Proof.
  unfold sameButMultiplier, SetMultiplier.
  intros (-> & -> & -> & -> & -> & -> & -> & -> & ->). reflexivity.
Qed.

Lemma update_sameButMultiplier h e1 e2 j st tot :
  sameButMultiplier e1 e2 → Spec.update h e1 j st tot = Spec.update h e2 j st tot.
Proof.
  unfold sameButMultiplier, Spec.update, impulseVA, impulseVB, impulseWA, impulseWB.
  intros (-> & -> & -> & -> & -> & -> & -> & -> & ->). reflexivity.
Qed.

Lemma updates_sameButMultiplier h eqs1 eqs2 j st tot :
  Forall2 sameButMultiplier eqs1 eqs2 →
  Spec.updates h eqs1 j st tot = Spec.updates h eqs2 j st tot.
Proof.
  intros H. revert j st tot. induction H as [|e1 e2 r1 r2 He _ IH]; intros j st tot; simpl.
  - done.
  - rewrite (update_sameButMultiplier h e1 e2 j st tot He).
    destruct (Spec.update h e2 j st tot) as [[st' tot']|]; simpl; [apply IH|done].
Qed.

Lemma iterateValues_sameButMultiplier h eqs1 eqs2 tolSq remaining iter st :
  Forall2 sameButMultiplier eqs1 eqs2 →
  iterateValues h eqs1 tolSq remaining iter st = iterateValues h eqs2 tolSq remaining iter st.
Proof.
  intros H. revert iter st. induction remaining as [|r IH]; intros iter st; simpl; [done|].
  unfold Spec.pass. rewrite (updates_sameButMultiplier h eqs1 eqs2 _ _ _ H).
  destruct (Spec.updates h eqs2 0 st Float32.zero) as [[st' tot']|]; simpl; [|done].
  destruct (Float32.ltb _ _); [done | apply IH].
Qed.

Lemma setMultipliers_sameButMultiplier h lam i eqs1 eqs2 :
  Forall2 sameButMultiplier eqs1 eqs2 →
  setMultipliers h lam i eqs1 = setMultipliers h lam i eqs2.
Proof.
  intros H. revert i. induction H as [|e1 e2 r1 r2 He _ IH]; intros i; simpl; [done|].
  destruct (Slice.at_ lam i) as [l|]; simpl; [|done].
  rewrite IH. destruct (setMultipliers h lam (S i) r2); simpl; [|done].
  by rewrite (sameButMultiplier_SetMultiplier_eq e1 e2 _ He).
Qed.

Lemma solveValues_sameButMultiplier frameDelta nBodies eqs1 eqs2 maxIter tol :
  Forall2 sameButMultiplier eqs1 eqs2 →
  solveValues frameDelta nBodies eqs1 maxIter tol
  = solveValues frameDelta nBodies eqs2 maxIter tol.
Proof.
  intros H. unfold solveValues. cbv zeta.
  rewrite (Forall2_length _ _ _ H).
  case_decide as Hd.
  - rewrite (iterateValues_sameButMultiplier _ eqs1 eqs2 _ _ _ _ H).
    destruct (iterateValues _ _ _ _ _ _) as [[it st]|]; simpl; [|done].
    by rewrite (setMultipliers_sameButMultiplier _ _ _ eqs1 eqs2 H).
  - destruct eqs2; [|simpl in Hd; lia]. by apply Forall2_nil_inv_r in H as ->.
Qed.

(** C6. Two calls with the same timestep and body count, on solvers with
    the same configuration and with equation lists that agree, in order,
    on the bodies, the coefficients and the Jacobians, return the same
    count and leave the same solution arrays, the same accumulated
    impulses and the same equations, multipliers included. *)
Theorem Solve_deterministic frameDelta nBodies gs1 gs2 :
  Forall2 sameButMultiplier (equations gs1) (equations gs2) →
  maxIter gs1 = maxIter gs2 → tolerance gs1 = tolerance gs2 →
  outcome <$> Solve frameDelta nBodies gs1 = outcome <$> Solve frameDelta nBodies gs2.
Proof.
  intros He Hm Ht. rewrite !Solve_solveValues, Hm, Ht.
  by apply solveValues_sameButMultiplier.
Qed.

(** C8. Whatever the five buffers hold when [Solve] is called (visible
    elements and spare capacity alike), the outcome is the one computed
    from the equation list, the configuration, the timestep and the body
    count; and the iteration starts from caches computed in this call,
    with every [lambda] at [0] and every delta at the zero vector. *)
Theorem Solve_ignores_stale_buffers frameDelta nBodies gs
        (V W : slice math32.Vector3) (invCs Bs lambda : slice float32) :
  let stale := mkGaussSeidel (equations gs) V W (maxIter gs) (tolerance gs) invCs Bs lambda in
  outcome <$> Solve frameDelta nBodies stale = outcome <$> Solve frameDelta nBodies gs
  ∧ outcome <$> Solve frameDelta nBodies stale
    = solveValues frameDelta nBodies (equations gs) (maxIter gs) (tolerance gs)
  ∧ Ready (timestep frameDelta) (Z.to_nat nBodies) gs
          (setup (timestep frameDelta) (Z.to_nat nBodies) stale).
Proof.
  intros stale. rewrite !Solve_solveValues. split; [done|]. split; [done|].
  destruct (setup_Ready (timestep frameDelta) (Z.to_nat nBodies) stale). by constructor.
Qed.

(* ===================================================================== *)
(** ** Fixed bodies stay at rest *)
(* ===================================================================== *)

Lemma Add_zero3 d : zeroVec d → math32.Add math32.zero3 d = math32.zero3.
Proof.
  intros (Hx & Hy & Hz). unfold math32.Add, math32.zero3.
  cbn [math32.X math32.Y math32.Z]. by rewrite !add_zero_r.
Qed.

Lemma Dot_zero3_not_nan s :
  Float32.is_nan (math32.Dot s math32.zero3) = false → finiteVec s.
Proof.
  unfold math32.Dot, math32.zero3. cbn [math32.X math32.Y math32.Z]. intros H.
  apply add_not_nan in H as [H Hz]. apply add_not_nan in H as [Hx Hy].
  repeat split; (eapply mul_zero_not_nan; [|eassumption]; reflexivity).
Qed.

Lemma MultiplyVectors_zero3_not_nan je :
  Float32.is_nan (MultiplyVectors je math32.zero3 math32.zero3) = false →
  finiteVec (Spatial je) ∧ finiteVec (Rotational je).
Proof.
  unfold MultiplyVectors. intros H. apply add_not_nan in H as [Hs Hr].
  split; by apply Dot_zero3_not_nan.
Qed.

Lemma add_nan_r x : Float32.add x S754_nan = S754_nan.
Proof. by destruct x as [[]|[]| |[] m e]. Qed.

Lemma ltb_nan_r x : Float32.ltb x S754_nan = false.
Proof. by destruct x as [[]|[]| |[] m e]. Qed.

(** An update that is finite after the clamp was not a NaN before it. *)
Lemma clamp_finite lam dl0 mn mx :
  Float32.is_finite (clamp lam dl0 mn mx) = true → Float32.is_nan dl0 = false.
Proof.
  destruct dl0; try done. unfold clamp.
  by rewrite add_nan_r, ltb_nan_r.
Qed.

Lemma unclamped_not_nan eq invC b GW lamJ :
  Float32.is_nan (unclamped eq invC b GW lamJ) = false → Float32.is_nan GW = false.
Proof.
  unfold unclamped. intros H.
  apply mul_not_nan in H as [_ H]. apply sub_not_nan in H as [H _].
  by apply sub_not_nan in H as [_ H].
Qed.

Lemma impulseV_zero spat invMass dl :
  finiteVec spat → Float32.is_zero invMass = true → Float32.is_finite dl = true →
  zeroVec (math32.MultiplyScalar spat (Float32.mul invMass dl)).
Proof.
  intros (Hx & Hy & Hz) Hm Hdl. pose proof (mul_zero_l _ _ Hm Hdl) as H0.
  repeat split; cbn [math32.MultiplyScalar math32.X math32.Y math32.Z]; by apply mul_zero_r.
Qed.

Lemma impulseW_zero rot m dl :
  finiteVec rot → zeroMatrix m → Float32.is_finite dl = true →
  zeroVec (math32.MultiplyScalar (math32.ApplyMatrix3 rot m) dl).
Proof.
  intros (Hx & Hy & Hz) (M0 & M1 & M2 & M3 & M4 & M5 & M6 & M7 & M8) Hdl.
  repeat split;
    cbn [math32.MultiplyScalar math32.ApplyMatrix3 math32.X math32.Y math32.Z];
    apply mul_zero_l; try done;
    repeat apply add_zeros; by apply mul_zero_l.
Qed.

Lemma addAt_keeps_zero3 v k d v' i :
  addAt v k d = Some v' → 0 <= i →
  elems v !! Z.to_nat i = Some math32.zero3 →
  (k = i → zeroVec d) →
  elems v' !! Z.to_nat i = Some math32.zero3.
Proof.
  intros (cur & Hk & Hcur & -> & _)%addAt_Some Hi Hz Hd.
  destruct (decide (k = i)) as [->|Hne].
  - rewrite Hz in Hcur. injection Hcur as <-.
    rewrite list_lookup_insert_eq by (by eapply lookup_lt_Some).
    by rewrite Add_zero3 by auto.
  - rewrite list_lookup_insert_ne by lia. done.
Qed.

(** A step that applies a finite update leaves a fixed body at rest. *)
Lemma eqStep_keeps_fixed i eq j gs gs' dl :
  0 <= i → fixedAt i eq →
  eqStep eq j gs = Some (gs', dl) → Float32.is_finite dl = true →
  restsAt i gs → restsAt i gs'.
Proof.
  intros Hi [HfA HfB] Hstep Hdl [Hv Hw]. apply eqStep_Some in Hstep as [].
  assert (HGW : Float32.is_nan (GWlambdaOf eq vA wA vB wB) = false).
  { eapply unclamped_not_nan, clamp_finite. rewrite <- sf_dl. exact Hdl. }
  unfold GWlambdaOf in HGW. apply add_not_nan in HGW as [HA HB].
  apply index_Some in sf_read_vA as [_ RvA], sf_read_vB as [_ RvB].
  apply index_Some in sf_read_wA as [_ RwA], sf_read_wB as [_ RwB].
  assert (JA : Index (BodyA eq) = i →
               finiteVec (Spatial (JeA eq)) ∧ finiteVec (Rotational (JeA eq))).
  { intros E. rewrite E in RvA, RwA. rewrite Hv in RvA. rewrite Hw in RwA.
    injection RvA as <-. injection RwA as <-. by apply MultiplyVectors_zero3_not_nan. }
  assert (JB : Index (BodyB eq) = i →
               finiteVec (Spatial (JeB eq)) ∧ finiteVec (Rotational (JeB eq))).
  { intros E. rewrite E in RvB, RwB. rewrite Hv in RvB. rewrite Hw in RwB.
    injection RvB as <-. injection RwB as <-. by apply MultiplyVectors_zero3_not_nan. }
  split.
  - eapply addAt_keeps_zero3; [exact sf_addVB | done | |].
    + eapply addAt_keeps_zero3; [exact sf_addVA | done | done |].
      intros E. destruct (JA E) as [Js _]. destruct (HfA E) as [Hm _].
      by apply impulseV_zero.
    + intros E. destruct (JB E) as [Js _]. destruct (HfB E) as [Hm _].
      by apply impulseV_zero.
  - eapply addAt_keeps_zero3; [exact sf_addWB | done | |].
    + eapply addAt_keeps_zero3; [exact sf_addWA | done | done |].
      intros E. destruct (JA E) as [_ Jr]. destruct (HfA E) as [_ HM].
      by apply impulseW_zero.
    + intros E. destruct (JB E) as [_ Jr]. destruct (HfB E) as [_ HM].
      by apply impulseW_zero.
Qed.

(** C7. A body with zero inverse mass and zero inverse inertia keeps the
    zero vector in both solution arrays: every step that applies a finite
    update leaves it so, and so does a whole call all of whose updates are
    finite, however many equations refer to the body. *)
Theorem fixed_body_stays_at_rest :
  (∀ i eq j gs gs' dl,
     0 <= i → fixedAt i eq →
     eqStep eq j gs = Some (gs', dl) → Float32.is_finite dl = true →
     restsAt i gs → restsAt i gs')
  ∧ (∀ frameDelta nBodies gs iter gs' i,
       0 <= i < nBodies →
       Forall (fixedAt i) (equations gs) →
       Forall (λ dl, Float32.is_finite dl = true) (appliedDeltas frameDelta nBodies gs) →
       Solve frameDelta nBodies gs = Some (iter, gs') →
       restsAt i gs').
Proof.
  split; [exact eqStep_keeps_fixed|].
  intros frameDelta nBodies gs iter gs' i Hi Hfix Hfin HS.
  apply Solve_Some in HS. cbv zeta in HS. unfold appliedDeltas in Hfin.
  set (h := timestep frameDelta) in *. set (g := setup h (Z.to_nat nBodies) gs) in *.
  destruct (setup_Ready h (Z.to_nat nBodies) gs) as [He _ _ Hv Hw _ _ _].
  fold g in He, Hv, Hw.
  assert (restsAt i g) as Hg.
  { split; [rewrite Hv | rewrite Hw]; apply lookup_replicate_2; lia. }
  destruct HS as [(_ & _ & ->)|(_ & it & g' & eqs' & Hit & _ & _ & ->)]; [done|].
  cut (restsAt i g'); [done|].
  eapply (iterate_invariant (equations gs) (restsAt i) (λ dl, Float32.is_finite dl = true));
    [| exact He | exact Hit | exact Hfin | exact Hg].
  intros k e g0 g1 dl Hk Hstep Hdl HP.
  eapply eqStep_keeps_fixed; [lia | | exact Hstep | exact Hdl | exact HP].
  by eapply Forall_lookup_1.
Qed.

(* ===================================================================== *)
(** ** The count that is returned *)
(* ===================================================================== *)

Lemma Int_add_1 z : 0 <= z < Int.max_int → Int.add z 1 = z + 1.
Proof.
  unfold Int.add, Int.wrap, Int.max_int. intros Hz.
  rewrite Z.mod_small by lia. lia.
Qed.

Lemma iterate_exhausted tolSq remaining iter gs :
  stallsFor tolSq remaining gs →
  0 <= iter → iter + Z.of_nat remaining <= Int.max_int →
  ∃ gs', iterate tolSq remaining iter gs = Some (iter + Z.of_nat remaining, gs')
         ∧ Frame gs gs'.
Proof.
  revert iter gs. induction remaining as [|r IH]; intros iter gs Hs H0 Hmax; simpl.
  - exists gs. rewrite Z.add_0_r. split; [done | apply Frame_refl].
  - destruct Hs as (g1 & tot & E & L & Hs). rewrite E. simpl. rewrite L.
    rewrite Int_add_1 by lia.
    destruct (IH (iter + 1) g1 Hs) as (g' & -> & HF); [lia|lia|].
    exists g'. split; [f_equal; f_equal; lia|].
    eapply Frame_trans; [by eapply pass_Frame | done].
Qed.

Lemma iterate_converges tolSq remaining k iter gs :
  convergesAt tolSq k gs → (k < remaining)%nat →
  0 <= iter → iter + Z.of_nat k <= Int.max_int →
  ∃ gs', iterate tolSq remaining iter gs = Some (iter + Z.of_nat k, gs') ∧ Frame gs gs'.
Proof.
  revert remaining iter gs. induction k as [|k IH]; intros [|r] iter gs Hc Hk H0 Hmax;
    try lia; simpl in *.
  - destruct Hc as (g1 & tot & E & L). rewrite E. simpl. rewrite L.
    exists g1. rewrite Z.add_0_r. split; [done | by eapply pass_Frame].
  - destruct Hc as (g1 & tot & E & L & Hc). rewrite E. simpl. rewrite L.
    rewrite Int_add_1 by lia.
    destruct (IH r (iter + 1) g1 Hc) as (g' & -> & HF); [lia|lia|lia|].
    exists g'. split; [f_equal; f_equal; lia|].
    eapply Frame_trans; [by eapply pass_Frame | done].
Qed.

Lemma Solve_after_iterate frameDelta nBodies gs it g' :
  equations gs ≠ [] →
  let g := setup (timestep frameDelta) (Z.to_nat nBodies) gs in
  iterate (Float32.mul (tolerance g) (tolerance g)) (Z.to_nat (maxIter g)) 0 g = Some (it, g') →
  ∃ gs', Solve frameDelta nBodies gs = Some (Int.add it 1, gs').
Proof.
  intros Hne g Hit. rewrite Solve_unfold. cbv zeta. fold g.
  rewrite decide_True by (destruct (equations gs); [done | simpl; lia]).
  rewrite Hit. simpl.
  destruct (setup_Ready (timestep frameDelta) (Z.to_nat nBodies) gs) as [He _ _ _ _ _ _ Hl].
  fold g in He, Hl. apply iterate_Frame in Hit as [He' _ _ _ _ Hl' _ _].
  destruct (setMultipliers_is_Some (timestep frameDelta) (solveLambda g') 0 (equations g'))
    as [eqs' ->]; [|simpl; eauto].
  rewrite Hl', Hl, He', He, length_replicate. lia.
Qed.

(** When no pass converges, the count is [maxIter + 1]. *)
Lemma Solve_exhausted frameDelta nBodies gs :
  equations gs ≠ [] → 0 <= maxIter gs < Int.max_int →
  stallsFor (Float32.mul (tolerance gs) (tolerance gs)) (Z.to_nat (maxIter gs))
            (setup (timestep frameDelta) (Z.to_nat nBodies) gs) →
  ∃ gs', Solve frameDelta nBodies gs = Some (maxIter gs + 1, gs').
Proof.
  intros Hne Hm Hs.
  destruct (iterate_exhausted _ _ 0 _ Hs) as (g' & Hit & _); [lia|lia|].
  destruct (setup_Ready (timestep frameDelta) (Z.to_nat nBodies) gs) as [_ Em Et _ _ _ _ _].
  destruct (Solve_after_iterate frameDelta nBodies gs (Z.of_nat (Z.to_nat (maxIter gs))) g' Hne)
    as (gs' & HS).
  { rewrite Em, Et. exact Hit. }
  exists gs'. rewrite HS. rewrite Z2Nat.id by lia. by rewrite Int_add_1 by lia.
Qed.

(** When pass [k < maxIter] is the first to converge, the count is [k + 1]. *)
Lemma Solve_converged frameDelta nBodies gs k :
  equations gs ≠ [] → Z.of_nat k < maxIter gs <= Int.max_int →
  convergesAt (Float32.mul (tolerance gs) (tolerance gs)) k
              (setup (timestep frameDelta) (Z.to_nat nBodies) gs) →
  ∃ gs', Solve frameDelta nBodies gs = Some (Z.of_nat k + 1, gs').
Proof.
  intros Hne Hm Hc.
  destruct (iterate_converges _ (Z.to_nat (maxIter gs)) k 0 _ Hc) as (g' & Hit & _);
    [lia|lia|lia|].
  destruct (setup_Ready (timestep frameDelta) (Z.to_nat nBodies) gs) as [_ Em Et _ _ _ _ _].
  destruct (Solve_after_iterate frameDelta nBodies gs (Z.of_nat k) g' Hne) as (gs' & HS).
  { rewrite Em, Et. exact Hit. }
  exists gs'. rewrite HS. by rewrite Int_add_1 by lia.
Qed.

(* ===================================================================== *)
(** ** The properties at the sample systems *)
(* ===================================================================== *)

(** C1 (the code departs from the claim). One equation, [maxIter = 3], a
    convergence check that fails at each of the three passes: [Solve]
    returns [4], one more than the three passes it made and than the cap
    of the claim. *)
Theorem Solve_exhausted_returns_one_more :
  stallsFor (Float32.mul (tolerance (Examples.solver [Examples.pushEq] 3))
                         (tolerance (Examples.solver [Examples.pushEq] 3)))
            3 (setup (timestep Examples.frame) 2 (Examples.solver [Examples.pushEq] 3))
  ∧ ∃ gs', Solve Examples.frame 2 (Examples.solver [Examples.pushEq] 3) = Some (4, gs').
Proof.
  assert (Hs : stallsFor (Float32.mul (tolerance (Examples.solver [Examples.pushEq] 3))
                                      (tolerance (Examples.solver [Examples.pushEq] 3)))
                         3 (setup (timestep Examples.frame) 2
                                  (Examples.solver [Examples.pushEq] 3))).
  { do 3 (eexists; eexists; split; [vm_compute; reflexivity|];
          split; [vm_compute; reflexivity|]).
    exact I. }
  split; [exact Hs|].
  destruct (Solve_exhausted Examples.frame 2 (Examples.solver [Examples.pushEq] 3))
    as (gs' & HS); [done | vm_compute; split; congruence | exact Hs |].
  exists gs'. exact HS.
Qed.

(** The true half of C1 at a sample: the contact converges at pass [1] of
    at most [10], and [Solve] returns [2]. *)
Lemma Solve_converged_example :
  ∃ gs', Solve Examples.frame 2 (Examples.solver [Examples.contactEq] 10) = Some (2, gs').
Proof.
  destruct (Solve_converged Examples.frame 2 (Examples.solver [Examples.contactEq] 10) 1)
    as (gs' & HS); [done | vm_compute; split; congruence | | by exists gs'].
  eexists; eexists; split; [vm_compute; reflexivity|]; split; [vm_compute; reflexivity|].
  eexists; eexists; split; [vm_compute; reflexivity | vm_compute; reflexivity].
Qed.


(** Without a pass the resolved [lambda] is the initial [0], wherever the
    interval lies: with [maxIter = 0] and bounds [3] and [5] it is neither
    in the interval nor near it. *)
Lemma lambda_without_a_pass :
  ∃ iter gs',
    Solve Examples.frame 2 (Examples.solver [Examples.liftedEq] 0) = Some (iter, gs')
    ∧ boxed Examples.liftedEq
    ∧ elems (solveLambda gs') = [Float32.zero]
    ∧ ¬ within (MinForce Examples.liftedEq) (MaxForce Examples.liftedEq) Float32.zero
    ∧ ¬ nearInterval (MinForce Examples.liftedEq) (MaxForce Examples.liftedEq) Float32.zero.
Proof.
  eexists _, _. split; [vm_compute; reflexivity|].
  split; [repeat split; vm_compute; reflexivity|]. split; [reflexivity|]. split.
  - intros [H _]. vm_compute in H. discriminate.
  - intros [H|(_ & _ & H & _)]; [discriminate|]. vm_compute in H. by apply H.
Qed.

(** When one bound is infinite nothing limits [lambda], and the miss of
    the clamp grows with it: with bounds [-100] and [+Inf] and [lambda] at
    [2^30], the clamped update [-100 - 2^30] rounds to [-(2^30 + 128)] and
    [Solve] leaves [lambda = -128]. *)
Lemma half_open_interval_miss :
  ∃ iter gs',
    Solve Examples.frame 2 (Examples.solver [Examples.halfEq] 2) = Some (iter, gs')
    ∧ MinForce Examples.halfEq = Float32.of_Z (-100)
    ∧ MaxForce Examples.halfEq = Float32.infinity
    ∧ elems (solveLambda gs') = [Float32.of_Z (-128)]
    ∧ Float32.ltb (Float32.of_Z (-128)) (MinForce Examples.halfEq) = true.
Proof.
  eexists _, _. split; [vm_compute; reflexivity|]. repeat split; reflexivity.
Qed.

(** Bounds near the largest binary32 value: with bounds [-2^127] and
    [2^127] and [lambda] at [2^127], the clamped update [-2^127 - 2^127]
    overflows to [-Inf], and [Solve] leaves [lambda = -Inf]. *)
Lemma large_bounds_overflow :
  ∃ iter gs',
    Solve Examples.frame 2 (Examples.solver [Examples.hugeEq] 2) = Some (iter, gs')
    ∧ Float32.is_finite (MinForce Examples.hugeEq) = true
    ∧ Float32.is_finite (MaxForce Examples.hugeEq) = true
    ∧ Float32.leb (MinForce Examples.hugeEq) (MaxForce Examples.hugeEq) = true
    ∧ wfEquation (timestep Examples.frame) Examples.hugeEq
    ∧ elems (solveLambda gs') = [S754_infinity true].
Proof.
  eexists _, _. split; [vm_compute; reflexivity|].
  do 3 (split; [reflexivity|]).
  split; [repeat split; vm_compute; reflexivity | reflexivity].
Qed.

(** Finite bounds do not keep a NaN out: with a NaN bias the update is a
    NaN, both tests of the clamp are false and [lambda] becomes a NaN. *)
Lemma boxed_lambda_nan :
  ∃ iter gs',
    Solve Examples.frame 2 (Examples.solver [Examples.nanEq] 2) = Some (iter, gs')
    ∧ boxed Examples.nanEq
    ∧ wfEquation (timestep Examples.frame) Examples.nanEq
    ∧ elems (solveLambda gs') = [S754_nan].
Proof.
  eexists _, _. split; [vm_compute; reflexivity|].
  split; [repeat split; vm_compute; reflexivity|].
  split; [repeat split; vm_compute; reflexivity | reflexivity].
Qed.


(** Closes [Forall (indicesBelow n) eqs] for a literal list. *)
Ltac indices_below :=
  repeat (apply Forall_cons; split;
          [repeat split;
           ((vm_compute; reflexivity)
            || (let H := fresh in intros H; vm_compute in H; discriminate H))|]);
  constructor.


Lemma Solve_no_iterations_witness :
  multiplier Examples.loadedEq = Float32.one
  ∧ ∃ gs', Solve Examples.frame 2 (Examples.solver [Examples.loadedEq] 0) = Some (1, gs')
           ∧ elems (solveLambda gs') = [Float32.zero]
           ∧ Forall (λ eq', multiplier eq' = Float32.zero) (equations gs').
Proof.
  split; [reflexivity|].
  destruct (Solve_no_iterations Examples.frame 2 (Examples.solver [Examples.loadedEq] 0))
    as (gs' & HS & _ & Hl & _ & Hm & _ & Hz & _).
  - discriminate.
  - simpl. lia.
  - exists gs'. split; [exact HS|]. split; [exact Hl|].
    rewrite Hz in Hm by reflexivity. exact Hm.
Defined.

Lemma pass_follows_specification_witness :
  ∃ g, afterPasses 1 (setup (timestep Examples.frame) 2
                            (Examples.solver [Examples.contactEq; Examples.pushEq] 10))
       = Some g
       ∧ (λ '(g', totalDelta), (view g', totalDelta)) <$> pass g
         = Spec.pass (timestep Examples.frame) [Examples.contactEq; Examples.pushEq] (view g).
Proof.
  eassert (E : afterPasses 1 (setup (timestep Examples.frame) 2
                                (Examples.solver [Examples.contactEq; Examples.pushEq] 10))
               = Some _) by (vm_compute; reflexivity).
  eexists. split; [exact E|].
  exact (proj2 (proj2 (proj2 (pass_follows_specification Examples.frame 2 _ 1 _ E)))).
Defined.

(** An equation object that is listed twice.  The contact is listed at
    positions [0] and [1]: the first pass gives position [0] the impulse
    [1], which leaves nothing for position [1], so [lambda] ends as
    [[1; 0]]; the loop of lines 138-140 writes [1 / h] and then [0 / h]
    onto the one object, which carries [0 / h], the later write, after the
    call. *)
Lemma relisted_equation_keeps_last_multiplier :
  ∃ iter gs' l0 l1 eq',
    SolveOn Examples.frame 2 [0%nat; 0%nat] (Examples.solver [Examples.contactEq] 10)
    = Some (iter, gs')
    ∧ elems (solveLambda gs') = [l0; l1]
    ∧ equations gs' = [eq']
    ∧ multiplier eq' = Float32.div l1 (timestep Examples.frame)
    ∧ multiplier eq' ≠ Float32.div l0 (timestep Examples.frame).
Proof.
  eassert (E : SolveOn Examples.frame 2 [0%nat; 0%nat]
                 (Examples.solver [Examples.contactEq] 10) = Some (_, _))
    by (vm_compute; reflexivity).
  eexists _, _, _, _, _. split; [exact E|].
  split; [reflexivity|]. split; [reflexivity|]. split; [vm_compute; reflexivity|].
  intros H. vm_compute in H. discriminate H.
Qed.

Lemma Solve_writes_multipliers_witness :
  (∃ iter gs' k l eq',
     SolveOn Examples.frame 2 [0%nat; 0%nat] (Examples.solver [Examples.loadedEq] 10)
     = Some (iter, gs')
     ∧ lastListing [0%nat; 0%nat] 0%nat k
     ∧ elems (solveLambda gs') !! k = Some l
     ∧ equations gs' !! 0%nat = Some eq'
     ∧ multiplier eq' = Float32.div l (timestep Examples.frame))
  ∧ (∃ iter gs' l eq',
       Solve Examples.frame 2 (Examples.solver [Examples.loadedEq; Examples.pushEq] 10)
       = Some (iter, gs')
       ∧ multiplier Examples.loadedEq = Float32.one
       ∧ elems (solveLambda gs') !! 0%nat = Some l
       ∧ equations gs' !! 0%nat = Some eq'
       ∧ multiplier eq' = Float32.div l (timestep Examples.frame)).
Proof.
  split.
  - destruct (SolveOn_is_Some Examples.frame 2 [0%nat; 0%nat]
                (Examples.solver [Examples.loadedEq] 10)) as [[iter gs'] E].
    { repeat constructor; exists Examples.loadedEq; (split; [reflexivity|]);
        split; split; (reflexivity || discriminate). }
    destruct (Solve_writes_multipliers _ _ _ _ _ _ E) as (_ & _ & H & _).
    destruct (H 0%nat 0%nat eq_refl)
      as (k & l & eq & eq' & _ & Hlast & Hl & _ & He' & Hm & _).
    exists iter, gs', k, l, eq'. auto.
  - destruct (SolveOn_is_Some Examples.frame 2 [0%nat; 1%nat]
                (Examples.solver [Examples.loadedEq; Examples.pushEq] 10)) as [[iter gs'] E].
    { repeat constructor; [exists Examples.loadedEq | exists Examples.pushEq];
        (split; [reflexivity|]); split; split; (reflexivity || discriminate). }
    destruct (Solve_writes_multipliers _ _ _ _ _ _ E) as (_ & _ & _ & _ & H & _ & HS).
    assert (Hnd : NoDup [0%nat; 1%nat]) by (apply (bool_decide_unpack _); vm_compute; exact I).
    destruct (H Hnd 0%nat 0%nat eq_refl) as (l & eq & eq' & Hl & _ & He' & Hm & _).
    exists iter, gs', l, eq'. split; [exact (HS eq_refl)|]. auto.
Defined.

Lemma Solve_deterministic_witness :
  outcome <$> Solve Examples.frame 2 (Examples.solver [Examples.contactEq] 10)
  = outcome <$> Solve Examples.frame 2
      (mkGaussSeidel [SetMultiplier Examples.contactEq Float32.one]
                     Examples.staleV Examples.staleV 10 (tolerance NewGaussSeidel)
                     Examples.staleF Examples.staleF Examples.staleF).
Proof.
  apply Solve_deterministic.
  - repeat constructor.
  - reflexivity.
  - reflexivity.
Defined.

Lemma fixed_body_stays_at_rest_witness :
  ∃ iter gs',
    Solve Examples.frame 2 (Examples.solver [Examples.contactEq; Examples.pushEq] 10)
    = Some (iter, gs')
    ∧ restsAt 0 gs'.
Proof.
  destruct (Solve_is_Some Examples.frame 2
              (Examples.solver [Examples.contactEq; Examples.pushEq] 10)) as [[iter gs'] E].
  { indices_below. }
  exists iter, gs'. split; [exact E|].
  refine (proj2 fixed_body_stays_at_rest Examples.frame 2 _ iter gs' 0 _ _ _ E).
  - lia.
  - repeat constructor; try discriminate; intros _; repeat split.
  - vm_compute. repeat constructor.
Defined.

Lemma Solve_frame_witness :
  ∃ iter gs',
    Solve Examples.frame 2 (Examples.solver [Examples.contactEq] 10) = Some (iter, gs')
    ∧ Forall2 sameButMultiplier [Examples.contactEq] (equations gs').
Proof.
  destruct (Solve_is_Some Examples.frame 2 (Examples.solver [Examples.contactEq] 10))
    as [[iter gs'] E].
  { indices_below. }
  exists iter, gs'. split; [exact E|].
  exact (Solve_frame _ _ _ _ _ E).
Defined.

(* ===================================================================== *)
(** ** The vertex buffer object: attributes and layout *)
(* ===================================================================== *)

Lemma Int_wrap_in_range z : Int.min_int <= z <= Int.max_int → Int.wrap z = z.
Proof.
  unfold Int.wrap, Int.min_int, Int.max_int. intros Hz.
  rewrite Z.mod_small by lia. lia.
Qed.

Lemma findAttrib_None attrs name :
  gls.findAttrib attrs name = None ↔ Forall (λ a, gls.Name a ≠ name) attrs.
Proof.
  induction attrs as [|a rest IH]; simpl.
  - split; [constructor | done].
  - case_decide as Hn.
    + split; [done|]. intros [Ha _]%Forall_cons. done.
    + rewrite IH. split; [by constructor | by intros [_ ?]%Forall_cons].
Qed.

Lemma findAttrib_Some attrs name a :
  gls.findAttrib attrs name = Some a →
  ∃ pre post, attrs = pre ++ a :: post ∧ gls.Name a = name
              ∧ Forall (λ b, gls.Name b ≠ name) pre.
Proof.
  induction attrs as [|b rest IH]; simpl; [done|].
  case_decide as Hn.
  - intros [= ->]. exists [], rest. repeat split; [done | constructor].
  - intros (pre & post & -> & Ha & Hpre)%IH.
    exists (b :: pre), post. repeat split; [done | by constructor].
Qed.

Lemma findAttrib_app attrs more name :
  gls.findAttrib (attrs ++ more) name =
  match gls.findAttrib attrs name with
  | Some a => Some a
  | None => gls.findAttrib more name
  end.
Proof.
  induction attrs as [|b rest IH]; simpl; [done|]. by case_decide.
Qed.

Lemma strideLoop_app attrs more acc :
  gls.strideLoop (attrs ++ more) acc = gls.strideLoop more (gls.strideLoop attrs acc).
Proof. revert acc. induction attrs as [|b rest IH]; intros acc; simpl; [done | apply IH]. Qed.

Lemma offsetLoop_absent attrs name acc :
  Forall (λ a, gls.Name a ≠ name) attrs →
  gls.offsetLoop attrs name acc = gls.strideLoop attrs acc.
Proof.
  intros H. revert acc. induction H as [|b rest Hb _ IH]; intros acc; simpl; [done|].
  rewrite decide_False by done. apply IH.
Qed.

Lemma offsetLoop_first pre a post name acc :
  gls.Name a = name → Forall (λ b, gls.Name b ≠ name) pre →
  gls.offsetLoop (pre ++ a :: post) name acc = gls.strideLoop pre acc.
Proof.
  intros Ha H. revert acc. induction H as [|b rest Hb _ IH]; intros acc; simpl.
  - by rewrite decide_True.
  - rewrite decide_False by done. apply IH.
Qed.

(** X1. [Attrib] returns nil exactly when no attribute has the name;
    otherwise it returns the first attribute with that name. *)
Theorem Attrib_first_match vbo name :
  (gls.Attrib vbo name = None ↔ Forall (λ a, gls.Name a ≠ name) (gls.attribs vbo))
  ∧ (∀ a, gls.Attrib vbo name = Some a →
       ∃ k, gls.attribs vbo !! k = Some a ∧ gls.Name a = name
            ∧ ∀ j b, (j < k)%nat → gls.attribs vbo !! j = Some b → gls.Name b ≠ name).
Proof.
  split; [apply findAttrib_None|].
  intros a (pre & post & E & Ha & Hpre)%findAttrib_Some.
  exists (length pre). rewrite E. split; [by rewrite list_lookup_middle|]. split; [done|].
  intros j b Hj Hb. rewrite lookup_app_l in Hb by done.
  by eapply (Forall_lookup_1 _ _ _ _ Hpre).
Qed.

(** X2. An attribute added under a name that the VBO already has is
    shadowed: [Attrib] keeps returning the earlier one.  Under a new name
    it is found, and no other lookup changes. *)
Theorem Attrib_AddAttrib vbo name itemSize name' :
  gls.Attrib (gls.AddAttrib vbo name itemSize) name' =
  match gls.Attrib vbo name' with
  | Some a => Some a
  | None => if decide (name = name') then Some (gls.mkVBOattrib name itemSize) else None
  end.
Proof.
  unfold gls.Attrib, gls.AddAttrib. simpl. rewrite findAttrib_app. simpl. done.
Qed.

(** X3. [AttribAt] panics exactly for an index below [0] or not below
    [AttribCount]; after [AddAttrib] the new attribute is the last one and
    the earlier indices address the attributes they did. *)
Theorem AttribAt_bounds vbo name itemSize :
  (∀ idx, gls.AttribAt vbo idx = None ↔ idx < 0 ∨ gls.AttribCount vbo <= idx)
  ∧ gls.AttribCount (gls.AddAttrib vbo name itemSize) = gls.AttribCount vbo + 1
  ∧ gls.AttribAt (gls.AddAttrib vbo name itemSize) (gls.AttribCount vbo)
    = Some (gls.mkVBOattrib name itemSize)
  ∧ (∀ idx, 0 <= idx < gls.AttribCount vbo →
       gls.AttribAt (gls.AddAttrib vbo name itemSize) idx = gls.AttribAt vbo idx).
Proof.
  unfold gls.AttribAt, gls.AttribCount, gls.AddAttrib. simpl. repeat split.
  - case_decide as Hd; [|lia]. intros Hl%lookup_ge_None. lia.
  - intros Hi. case_decide as Hd; [|done]. apply lookup_ge_None. lia.
  - rewrite length_app. simpl. lia.
  - rewrite decide_True by lia. rewrite Nat2Z.id. by rewrite list_lookup_middle.
  - intros idx Hi. rewrite !decide_True by lia. apply lookup_app_l. lia.
Qed.

(** X4. [AttribOffset] of a name that no attribute has is the stride: a
    missing name is not an error, it yields the total element count. *)
Theorem AttribOffset_missing_name vbo name :
  gls.Attrib vbo name = None → gls.AttribOffset vbo name = gls.Stride vbo.
Proof.
  intros H%findAttrib_None. by apply offsetLoop_absent.
Qed.

(** X5. [AttribOffset] of a name that some attribute has is the stride of
    the attributes in front of the first one with that name: with [k] the
    first index whose attribute has the name (no index below [k] has it),
    the offset is what the loop of [Stride] gives on the first [k]
    attributes; what follows index [k] in the list does not matter. *)
Theorem AttribOffset_is_prefix_stride vbo name a :
  gls.Attrib vbo name = Some a →
  ∃ k, gls.attribs vbo !! k = Some a ∧ gls.Name a = name
       ∧ (∀ j b, (j < k)%nat → gls.attribs vbo !! j = Some b → gls.Name b ≠ name)
       ∧ gls.AttribOffset vbo name = gls.strideLoop (take k (gls.attribs vbo)) 0
       ∧ ∀ post',
           gls.offsetLoop (take (S k) (gls.attribs vbo) ++ post') name 0
           = gls.AttribOffset vbo name.
Proof.
  intros (pre & post & E & Ha & Hpre)%findAttrib_Some.
  exists (length pre). unfold gls.AttribOffset. rewrite E.
  split; [by rewrite list_lookup_middle|]. split; [done|]. split.
  { intros j b Hj Hb. rewrite lookup_app_l in Hb by done.
    by eapply (proj1 (Forall_lookup _ _) Hpre). }
  rewrite (offsetLoop_first pre a post name 0 Ha Hpre). split.
  - by rewrite take_app_length.
  - intros post'.
    replace (take (S (length pre)) (pre ++ a :: post)) with (pre ++ [a]).
    + rewrite <- app_assoc. simpl.
      by rewrite (offsetLoop_first pre a post' name 0 Ha Hpre).
    + rewrite (cons_middle a pre post), app_assoc.
      replace (S (length pre)) with (length (pre ++ [a])).
      * by rewrite take_app_length.
      * rewrite length_app. simpl. lia.
Qed.

(** X6. [AddAttrib] extends the layout at its end: the stride grows by the
    item size, the offsets of the names already present are the ones they
    were, and a new name gets the old stride as its offset. *)
Theorem AddAttrib_layout vbo name itemSize :
  gls.Stride (gls.AddAttrib vbo name itemSize) = Int.add (gls.Stride vbo) itemSize
  ∧ (∀ name', is_Some (gls.Attrib vbo name') →
       gls.AttribOffset (gls.AddAttrib vbo name itemSize) name' = gls.AttribOffset vbo name')
  ∧ (gls.Attrib vbo name = None →
       gls.AttribOffset (gls.AddAttrib vbo name itemSize) name = gls.Stride vbo).
Proof.
  unfold gls.Stride, gls.AttribOffset, gls.AddAttrib. simpl. repeat split.
  - by rewrite strideLoop_app.
  - intros name' [a (pre & post & E & Ha & Hpre)%findAttrib_Some].
    rewrite E, <- app_assoc. simpl.
    by rewrite !(offsetLoop_first pre a _ name' 0 Ha Hpre).
  - intros H%findAttrib_None.
    by rewrite (offsetLoop_first (gls.attribs vbo) (gls.mkVBOattrib name itemSize)
                                 [] name 0 eq_refl H).
Qed.

Lemma sizesSum_app l1 l2 : sizesSum (l1 ++ l2) = sizesSum l1 + sizesSum l2.
Proof. induction l1 as [|a l1 IH]; simpl; lia. Qed.

Lemma strideLoop_sum attrs acc :
  int32Sizes attrs →
  - 2 ^ 62 <= acc - Z.of_nat (length attrs) * 2 ^ 31 →
  acc + Z.of_nat (length attrs) * 2 ^ 31 <= 2 ^ 62 →
  gls.strideLoop attrs acc = acc + sizesSum attrs
  ∧ - (Z.of_nat (length attrs) * 2 ^ 31) <= sizesSum attrs
    <= Z.of_nat (length attrs) * 2 ^ 31.
Proof.
  intros H. revert acc. induction H as [|a rest Ha _ IH]; intros acc Hlo Hhi.
  - simpl. lia.
  - unfold Int32.in_range in Ha. cbn [gls.strideLoop sizesSum length] in *.
    assert (Hadd : Int.add acc (gls.ItemSize a) = acc + gls.ItemSize a).
    { apply Int_wrap_in_range. unfold Int.min_int, Int.max_int. lia. }
    rewrite Hadd. destruct (IH (acc + gls.ItemSize a)) as [-> Hs]; lia.
Qed.

Lemma Stride_is_sum_aux attrs :
  int32Sizes attrs → Z.of_nat (length attrs) < 2 ^ 29 →
  gls.strideLoop attrs 0 = sizesSum attrs
  ∧ - 2 ^ 60 <= sizesSum attrs <= 2 ^ 60.
Proof.
  intros Hs Hn. destruct (strideLoop_sum attrs 0 Hs) as [-> Hb]; lia.
Qed.

(** X7. For item sizes that are [int32] values, in a list of fewer than
    [2^29] attributes, the [int] arithmetic of [Stride] and [StrideSize]
    never wraps: the stride is the sum of the item sizes, and the stride
    size is four times that. *)
Theorem Stride_is_sum vbo :
  int32Sizes (gls.attribs vbo) →
  Z.of_nat (length (gls.attribs vbo)) < 2 ^ 29 →
  gls.Stride vbo = sizesSum (gls.attribs vbo)
  ∧ gls.StrideSize vbo = 4 * sizesSum (gls.attribs vbo).
Proof.
  intros Hs Hn. unfold gls.StrideSize, gls.Stride, gls.elsize.
  destruct (Stride_is_sum_aux (gls.attribs vbo) Hs Hn) as [-> Hb].
  split; [done|]. rewrite Int_wrap_in_range; [lia|].
  unfold Int.min_int, Int.max_int. lia.
Qed.

Lemma naturalSizes_int32 attrs : naturalSizes attrs → int32Sizes attrs.
Proof.
  intros H. eapply Forall_impl; [exact H|].
  intros a Ha. unfold Int32.in_range. simpl in *. lia.
Qed.

Lemma naturalSizes_sum attrs : naturalSizes attrs → 0 <= sizesSum attrs.
Proof. induction 1 as [|a rest Ha _ IH]; simpl; lia. Qed.

(** X8. With non-negative item sizes every attribute lies inside the
    stride: an offset is between [0] and the stride, and the offset of a
    name that is present, plus its item size, does not exceed the stride. *)
Theorem AttribOffset_within_stride vbo name :
  naturalSizes (gls.attribs vbo) →
  Z.of_nat (length (gls.attribs vbo)) < 2 ^ 29 →
  0 <= gls.AttribOffset vbo name <= gls.Stride vbo
  ∧ (∀ a, gls.Attrib vbo name = Some a →
       gls.AttribOffset vbo name + gls.ItemSize a <= gls.Stride vbo).
Proof.
  intros Hs Hn.
  destruct (Stride_is_sum_aux (gls.attribs vbo)) as [HS _]; [by apply naturalSizes_int32|done|].
  unfold gls.Stride. rewrite HS.
  destruct (gls.Attrib vbo name) as [a|] eqn:E.
  - apply findAttrib_Some in E as (pre & post & E & Ha & Hpre).
    unfold gls.AttribOffset. rewrite E in *.
    rewrite (offsetLoop_first pre a post name 0 Ha Hpre).
    apply Forall_app in Hs as [Hpre_s Hrest]. apply Forall_cons in Hrest as [Ha_s Hpost].
    rewrite length_app in Hn.
    destruct (Stride_is_sum_aux pre) as [-> _]; [by apply naturalSizes_int32|lia|].
    pose proof (naturalSizes_sum pre Hpre_s). pose proof (naturalSizes_sum post Hpost).
    rewrite sizesSum_app. simpl. split; [lia|]. intros ? [= <-]. lia.
  - split; [|done]. apply findAttrib_None in E.
    unfold gls.AttribOffset. rewrite (offsetLoop_absent _ _ 0 E), HS.
    pose proof (naturalSizes_sum _ Hs). lia.
Qed.

(* ===================================================================== *)
(** ** The vertex buffer object: transfer to OpenGL *)
(* ===================================================================== *)

Lemma Uint32_wrap_congr x y :
  x mod 2 ^ 32 = y mod 2 ^ 32 → Uint32.wrap (4 * x) = Uint32.wrap (4 * y).
Proof.
  unfold Uint32.wrap. intros H.
  rewrite <- (Z.mul_mod_idemp_r 4 x), <- (Z.mul_mod_idemp_r 4 y) by lia. by rewrite H.
Qed.

Lemma Int_wrap_mod32 z : Int.wrap z mod 2 ^ 32 = z mod 2 ^ 32.
Proof.
  unfold Int.wrap. rewrite (Z.mod_eq (z + 2 ^ 63) (2 ^ 64)) by lia.
  replace (z + 2 ^ 63 - 2 ^ 64 * ((z + 2 ^ 63) / 2 ^ 64) - 2 ^ 63)
    with (z + (- (2 ^ 32 * ((z + 2 ^ 63) / 2 ^ 64))) * 2 ^ 32) by lia.
  apply Z_mod_plus_full.
Qed.

Lemma strideLoop_mod32 attrs acc :
  gls.strideLoop attrs acc mod 2 ^ 32 = (acc + sizesSum attrs) mod 2 ^ 32.
Proof.
  revert acc. induction attrs as [|a rest IH]; intros acc; simpl.
  - by rewrite Z.add_0_r.
  - rewrite IH. unfold Int.add.
    rewrite <- Z.add_mod_idemp_l, Int_wrap_mod32, Z.add_mod_idemp_l by lia.
    f_equal. lia.
Qed.

Lemma distinctNames_prefix pre a post :
  distinctNames (pre ++ a :: post) → Forall (λ b, gls.Name b ≠ gls.Name a) pre.
Proof.
  unfold distinctNames. rewrite map_app. simpl. intros H.
  apply NoDup_app in H as (_ & Hdis & _).
  apply Forall_forall. intros b Hb Heq.
  apply (Hdis (gls.Name b)).
  - apply list_elem_of_fmap. by exists b.
  - rewrite Heq. apply list_elem_of_here.
Qed.

Section TransferFacts.
Variables ARRAY_BUFFER FLOAT : Z.
Variable Bytes : list float32 → Z.

Local Abbreviation Transfer := (gls.Transfer ARRAY_BUFFER FLOAT Bytes).
Local Abbreviation bindAttribs := (gls.bindAttribs FLOAT).

Lemma bindAttribs_no_BufferData g ss attrs items offset :
  filter (λ e, isBufferData e = true) (bindAttribs g ss attrs items offset) = []
  ∧ filter (λ e, isGenBuffer e = true) (bindAttribs g ss attrs items offset) = [].
Proof.
  revert items offset. induction attrs as [|a rest IH]; intros items offset; simpl; [done|].
  case_decide; [apply IH|].
  rewrite !filter_cons. simpl. rewrite ?decide_False by done. apply IH.
Qed.

(** X9. A second [Transfer] right after a first one does nothing: it makes
    no call, on whichever GLS, and leaves the VBO as it is. *)
Theorem Transfer_twice vbo g vbo' calls g' :
  Transfer vbo g = Some (vbo', calls) → Transfer vbo' g' = Some (vbo', []).
Proof.
  unfold gls.Transfer. destruct vbo as [gsv h u up buf attrs]. simpl.
  case_decide as Hb.
  - intros [= <- <-]. simpl. by rewrite decide_True.
  - destruct gsv as [g0|], up, buf as [|x buf]; simpl; try discriminate;
      intros [= <- <-]; simpl; by rewrite decide_False.
Qed.

(** X10. When [Bytes] of an empty array is [0], [Transfer] handed a GLS
    (not nil) never panics: the address of the first element is taken of a
    non-empty array only. *)
Theorem Transfer_never_panics vbo g :
  Bytes [] = 0 → is_Some (Transfer vbo g).
Proof.
  intros H0. unfold gls.Transfer. case_decide as Hb; [eauto|].
  destruct (gls.gs vbo); simpl; destruct (gls.update vbo); simpl; eauto;
    destruct (gls.buffer vbo); eauto; done.
Qed.

(** X11. [Transfer] of a non-empty array uploads the data exactly when the
    update flag is set: then the last two calls bind the handle of the VBO
    and hand over the array with its size and usage, and no other call
    uploads data; the flag is clear afterwards, and the array, the usage
    and the attributes are untouched. *)
Theorem Transfer_uploads_when_flagged vbo g vbo' calls :
  Bytes (gls.buffer vbo) ≠ 0 →
  Transfer vbo g = Some (vbo', calls) →
  gls.update vbo' = false
  ∧ gls.buffer vbo' = gls.buffer vbo ∧ gls.usage vbo' = gls.usage vbo
  ∧ gls.attribs vbo' = gls.attribs vbo
  ∧ filter (λ e, isBufferData e = true) calls
    = (if gls.update vbo
       then [(gls.glsId g, gls.BufferData ARRAY_BUFFER (Bytes (gls.buffer vbo))
                                          (gls.buffer vbo) (gls.usage vbo))]
       else [])
  ∧ (gls.update vbo = true →
     ∃ pre, calls = pre ++ [(gls.glsId g, gls.BindBuffer ARRAY_BUFFER (gls.handle vbo'));
                            (gls.glsId g, gls.BufferData ARRAY_BUFFER (Bytes (gls.buffer vbo))
                                                         (gls.buffer vbo) (gls.usage vbo))]).
Proof.
  intros Hb. unfold gls.Transfer. rewrite decide_False by done.
  destruct vbo as [gsv h u up buf attrs]. simpl in *.
  destruct gsv as [g0|], up, buf as [|x buf]; simpl; try discriminate;
    intros [= <- <-]; simpl; repeat split; try done;
    rewrite ?filter_cons, ?filter_app, ?filter_nil; simpl;
    rewrite ?decide_False by done;
    rewrite ?(proj1 (bindAttribs_no_BufferData _ _ _ _ _)); simpl;
    rewrite ?filter_cons, ?filter_nil; simpl; rewrite ?decide_True by done;
    rewrite ?decide_False by done; try done; eauto.
  - intros _. by exists [].
  - intros _. eexists (_ :: _ :: _). reflexivity.
Qed.

Lemma Transfer_uninitialised vbo g vbo' calls :
  gls.gs vbo = None → Bytes (gls.buffer vbo) ≠ 0 →
  Transfer vbo g = Some (vbo', calls) →
  gls.gs vbo' = Some (gls.glsId g) ∧ gls.handle vbo' = gls.nextBuffer g
  ∧ gls.update vbo' = false
  ∧ ∃ rest,
      calls = (gls.glsId g, gls.GenBuffer (gls.nextBuffer g))
              :: (gls.glsId g, gls.BindBuffer ARRAY_BUFFER (gls.nextBuffer g))
              :: bindAttribs g (gls.StrideSize vbo) (gls.attribs vbo) 0 0 ++ rest
      ∧ filter (λ e, isGenBuffer e = true) rest = []
      ∧ (gls.update vbo = false → rest = []).
Proof.
  intros Hg Hb. unfold gls.Transfer. rewrite decide_False by done.
  destruct vbo as [gsv h u up buf attrs]. simpl in *. subst gsv.
  destruct up, buf as [|x buf]; simpl; try discriminate; intros [= <- <-]; simpl;
    repeat split; try done.
  - eexists. split; [reflexivity|]. split; [|done]. done.
  - exists []. by rewrite app_nil_r.
  - exists []. by rewrite app_nil_r.
Qed.

(** X12. A VBO is initialised once.  An initialised VBO keeps its handle
    and its GLS whatever [Transfer] is handed, and the only calls are the
    two of an upload, made on the GLS of the call.  An uninitialised VBO
    with a non-empty array takes the handle of the one [GenBuffer] call
    that [Transfer] then makes first of all. *)
Theorem Transfer_initialises_once vbo g vbo' calls :
  Transfer vbo g = Some (vbo', calls) →
  match gls.gs vbo with
  | Some g0 =>
      gls.gs vbo' = Some g0 ∧ gls.handle vbo' = gls.handle vbo
      ∧ (calls = []
         ∨ calls = [(gls.glsId g, gls.BindBuffer ARRAY_BUFFER (gls.handle vbo));
                    (gls.glsId g, gls.BufferData ARRAY_BUFFER (Bytes (gls.buffer vbo))
                                                 (gls.buffer vbo) (gls.usage vbo))])
  | None =>
      (Bytes (gls.buffer vbo) = 0 ∧ vbo' = vbo ∧ calls = [])
      ∨ (Bytes (gls.buffer vbo) ≠ 0
         ∧ gls.gs vbo' = Some (gls.glsId g) ∧ gls.handle vbo' = gls.nextBuffer g
         ∧ filter (λ e, isGenBuffer e = true) calls
           = [(gls.glsId g, gls.GenBuffer (gls.nextBuffer g))]
         ∧ head calls = Some (gls.glsId g, gls.GenBuffer (gls.nextBuffer g)))
  end.
Proof.
  intros H. destruct (gls.gs vbo) as [g0|] eqn:Hg.
  - revert H. unfold gls.Transfer. destruct vbo as [gsv h u up buf attrs]. simpl in *.
    subst gsv. case_decide as Hb; [intros [= <- <-]; auto|].
    destruct up, buf as [|x buf]; simpl; try discriminate; intros [= <- <-]; simpl; auto.
  - destruct (decide (Bytes (gls.buffer vbo) = 0)) as [Hb|Hb].
    + left. revert H. unfold gls.Transfer. rewrite decide_True by done.
      by intros [= <- <-].
    + right. destruct (Transfer_uninitialised _ _ _ _ Hg Hb H)
        as (Hg' & Hh & _ & rest & -> & Hrest & _).
      repeat split; try done.
      rewrite !filter_cons. simpl. rewrite filter_app, Hrest.
      by rewrite (proj2 (bindAttribs_no_BufferData _ _ _ _ _)).
Qed.

(** X13. An attribute without a location in the current program is passed
    over, and it does not advance the offset either: the calls of the loop
    are those for the located attributes alone. *)
Theorem bindAttribs_skips_unlocated g strideSize attrs items offset :
  bindAttribs g strideSize attrs items offset
  = bindAttribs g strideSize
      (filter (λ a, 0 <= gls.GetAttribLocation g (gls.Name a)) attrs) items offset.
Proof.
  revert items offset. induction attrs as [|a rest IH]; intros items offset; [done|].
  rewrite filter_cons. cbn [gls.bindAttribs].
  destruct (decide (gls.GetAttribLocation g (gls.Name a) < 0)) as [Hl|Hl].
  - rewrite decide_False by lia. apply IH.
  - rewrite decide_True by lia. cbn [gls.bindAttribs].
    rewrite decide_False by done. by rewrite IH.
Qed.

Lemma bindAttribs_pointer g strideSize attrs items offset k a :
  Forall (λ a, 0 <= gls.GetAttribLocation g (gls.Name a)) attrs →
  offset = Uint32.wrap (4 * items) →
  attrs !! k = Some a →
  bindAttribs g strideSize attrs items offset !! (2 * k + 1)%nat
  = Some (gls.glsId g,
          gls.VertexAttribPointer (Uint32.wrap (gls.GetAttribLocation g (gls.Name a)))
            (gls.ItemSize a) FLOAT false (Int32.wrap strideSize)
            (Uint32.wrap (4 * (items + sizesSum (take k attrs))))).
Proof.
  intros Hall. revert items offset k.
  induction Hall as [|b rest Hb _ IH]; intros items offset k Hoff Hk; [done|].
  cbn [gls.bindAttribs]. rewrite decide_False by lia.
  destruct k as [|k]; simpl in Hk.
  - injection Hk as <-. simpl. by rewrite Hoff, Z.add_0_r.
  - replace (2 * S k + 1)%nat with (S (S (2 * k + 1))) by lia. simpl lookup.
    set (items' := Uint32.add items (Uint32.wrap (gls.ItemSize b))).
    assert (Hoff' : Uint32.mul (Uint32.wrap gls.elsize) items' = Uint32.wrap (4 * items'))
      by reflexivity.
    etrans; [exact (IH _ _ k Hoff' Hk)|]. subst items'. do 3 f_equal.
    apply Uint32_wrap_congr. cbn [take sizesSum].
    unfold Uint32.add, Uint32.wrap.
    rewrite <- Z.add_mod_idemp_l by lia. rewrite Z.mod_mod by lia.
    rewrite Z.add_mod_idemp_r by lia. rewrite Z.add_mod_idemp_l by lia.
    f_equal. lia.
Qed.

(** X14. When every attribute is located and the names are distinct, the
    byte offset that [Transfer] hands to [VertexAttribPointer] for the
    [k]-th attribute is four times its [AttribOffset], as a [uint32]; the
    call is the one at position [2k + 3], after [GenBuffer], [BindBuffer]
    and the pairs of calls of the attributes before it. *)
Theorem Transfer_offsets_agree vbo g vbo' calls k a :
  gls.gs vbo = None → Bytes (gls.buffer vbo) ≠ 0 →
  Forall (λ a, 0 <= gls.GetAttribLocation g (gls.Name a)) (gls.attribs vbo) →
  distinctNames (gls.attribs vbo) →
  gls.attribs vbo !! k = Some a →
  Transfer vbo g = Some (vbo', calls) →
  calls !! (2 * k + 3)%nat
  = Some (gls.glsId g,
          gls.VertexAttribPointer (Uint32.wrap (gls.GetAttribLocation g (gls.Name a)))
            (gls.ItemSize a) FLOAT false (Int32.wrap (gls.StrideSize vbo))
            (Uint32.wrap (gls.elsize * gls.AttribOffset vbo (gls.Name a)))).
Proof.
  intros Hg Hb Hall Hd Hk H.
  destruct (Transfer_uninitialised _ _ _ _ Hg Hb H) as (_ & _ & _ & rest & -> & _ & _).
  replace (2 * k + 3)%nat with (S (S (2 * k + 1))) by lia.
  assert (Hc : ∀ x y (l : list gls.Event) n, (x :: y :: l) !! S (S n) = l !! n) by done.
  rewrite Hc.
  pose proof (bindAttribs_pointer g (gls.StrideSize vbo) _ 0 0 k a Hall eq_refl Hk) as Hp.
  rewrite lookup_app_l by (exact (lookup_lt_Some _ _ _ Hp)).
  etrans; [exact Hp|]. do 3 f_equal. unfold gls.elsize.
  apply Uint32_wrap_congr.
  pose proof (take_drop_middle _ _ _ Hk) as E.
  unfold gls.AttribOffset. rewrite <- E at 2.
  rewrite (offsetLoop_first (take k (gls.attribs vbo)) a _ (gls.Name a) 0 eq_refl).
  - by rewrite strideLoop_mod32.
  - apply (distinctNames_prefix _ a (drop (S k) (gls.attribs vbo))). by rewrite E.
Qed.

(** X15. [Dispose] deletes the buffer on the GLS that the VBO recorded, if
    any, and a second [Dispose] makes no call.  It leaves the update flag
    as it is: a VBO that was transferred, disposed and is transferred
    again gets a new buffer object and its attribute bindings but no
    data. *)
Theorem Dispose_then_Transfer vbo g vbo1 calls1 g' :
  Bytes (gls.buffer vbo) ≠ 0 →
  Transfer vbo g = Some (vbo1, calls1) →
  ∃ g0 vbo3,
    gls.gs vbo1 = Some g0
    ∧ (gls.Dispose vbo1).2 = [(g0, gls.DeleteBuffers (gls.handle vbo1))]
    ∧ gls.Dispose (gls.Dispose vbo1).1 = ((gls.Dispose vbo1).1, [])
    ∧ Transfer (gls.Dispose vbo1).1 g'
      = Some (vbo3,
              (gls.glsId g', gls.GenBuffer (gls.nextBuffer g'))
              :: (gls.glsId g', gls.BindBuffer ARRAY_BUFFER (gls.nextBuffer g'))
              :: bindAttribs g' (gls.StrideSize vbo) (gls.attribs vbo) 0 0)
    ∧ gls.handle vbo3 = gls.nextBuffer g'.
Proof.
  intros Hb. unfold gls.Transfer at 1. rewrite decide_False by done.
  destruct vbo as [gsv h u up buf attrs]. simpl in *.
  destruct gsv as [g0|], up, buf as [|x buf]; simpl; try discriminate;
    intros [= <- <-]; eexists _, _; (split; [reflexivity|]); (split; [reflexivity|]);
    (split; [reflexivity|]); unfold gls.Transfer, gls.Dispose; simpl;
    rewrite decide_False by done; simpl; split; reflexivity.
Qed.

(** X25. [SetBuffer] arms the next upload: on a VBO that a [Transfer] has
    initialised, a [Transfer] after [SetBuffer] (and [SetUsage]) makes two
    calls and no more, binding the handle the VBO has and handing over the
    new array with the new usage, on the GLS of this call and not on the one
    that made the buffer.  [Update] does the same for the array the VBO
    holds. *)
Theorem SetBuffer_then_Transfer vbo g vbo1 calls1 b u g' :
  Bytes (gls.buffer vbo) ≠ 0 → Bytes b ≠ 0 → b ≠ [] →
  Transfer vbo g = Some (vbo1, calls1) →
  Transfer (gls.SetUsage (gls.SetBuffer vbo1 b) u) g'
  = Some (gls.mkVBO (gls.gs vbo1) (gls.handle vbo1) u false b (gls.attribs vbo),
          [(gls.glsId g', gls.BindBuffer ARRAY_BUFFER (gls.handle vbo1));
           (gls.glsId g', gls.BufferData ARRAY_BUFFER (Bytes b) b u)])
  ∧ (gls.buffer vbo ≠ [] →
     Transfer (gls.Update vbo1) g'
     = Some (vbo1,
             [(gls.glsId g', gls.BindBuffer ARRAY_BUFFER (gls.handle vbo1));
              (gls.glsId g', gls.BufferData ARRAY_BUFFER (Bytes (gls.buffer vbo))
                                            (gls.buffer vbo) (gls.usage vbo))])).
Proof.
  intros Hb Hb' Hne. unfold gls.Transfer at 1. rewrite decide_False by done.
  destruct vbo as [gsv h u0 up buf attrs]. simpl in *.
  destruct b as [|y b]; [done|].
  destruct gsv as [g0|], up, buf as [|x buf]; simpl; try discriminate;
    intros [= <- <-]; unfold gls.Transfer, gls.SetUsage, gls.SetBuffer, gls.Update; simpl;
    rewrite !decide_False by done; simpl; (split; [reflexivity|]); intros Hbuf;
    done.
Qed.

Variable STATIC_DRAW : Z.

Lemma addAll_fields vbo attrs :
  addAll vbo attrs
  = gls.mkVBO (gls.gs vbo) (gls.handle vbo) (gls.usage vbo) (gls.update vbo) (gls.buffer vbo)
              (gls.attribs vbo ++ attrs).
Proof.
  revert vbo. induction attrs as [|a rest IH]; intros vbo; simpl.
  - rewrite app_nil_r. by destruct vbo.
  - unfold addAll in IH. rewrite IH. simpl. rewrite <- app_assoc. simpl.
    by destruct a.
Qed.

(** X26. The first use of a VBO.  A VBO from [NewVBO] to which attributes
    were added makes no call in [Transfer] as long as it has no data, and
    stays uninitialised.  Once [SetBuffer] has given it a non-empty array,
    [Transfer] generates and binds a buffer, binds the attributes in the
    order they were added and uploads the array with the usage
    [STATIC_DRAW]: the flag that [init] sets makes the first transfer an
    upload. *)
Theorem NewVBO_first_Transfer attrs b g :
  let vbo := addAll (gls.NewVBO STATIC_DRAW) attrs in
  (Bytes [] = 0 → Transfer vbo g = Some (vbo, []))
  ∧ (Bytes b ≠ 0 → b ≠ [] →
     Transfer (gls.SetBuffer vbo b) g
     = Some (gls.mkVBO (Some (gls.glsId g)) (gls.nextBuffer g) STATIC_DRAW false b attrs,
             (gls.glsId g, gls.GenBuffer (gls.nextBuffer g))
             :: (gls.glsId g, gls.BindBuffer ARRAY_BUFFER (gls.nextBuffer g))
             :: bindAttribs g (gls.StrideSize vbo) attrs 0 0
             ++ [(gls.glsId g, gls.BindBuffer ARRAY_BUFFER (gls.nextBuffer g));
                 (gls.glsId g, gls.BufferData ARRAY_BUFFER (Bytes b) b STATIC_DRAW)])).
Proof.
  cbv zeta. rewrite addAll_fields. simpl. split.
  - intros H0. unfold gls.Transfer. simpl. by rewrite decide_True.
  - intros Hb Hne. unfold gls.Transfer, gls.SetBuffer. simpl.
    rewrite decide_False by done. destruct b as [|y b]; [done|]. reflexivity.
Qed.

End TransferFacts.

(* ===================================================================== *)
(** ** The solver: panics, counts and lengths *)
(* ===================================================================== *)

Lemma eqStep_indicesBelow eq j gs gs' dl :
  eqStep eq j gs = Some (gs', dl) →
  indicesBelow (length (elems (VelocityDeltas gs))) eq.
Proof.
  intros []%eqStep_Some.
  apply index_Some in sf_read_vA as [HA LA], sf_read_vB as [HB LB].
  apply lookup_lt_Some in LA, LB. unfold indicesBelow. lia.
Qed.

Lemma eqLoop_indicesBelow eqs j gs tot gs' tot' :
  eqLoop eqs j gs tot = Some (gs', tot') →
  Forall (indicesBelow (length (elems (VelocityDeltas gs)))) eqs.
Proof.
  revert j gs tot. induction eqs as [|eq rest IH]; intros j gs tot H; simpl in H.
  - constructor.
  - destruct (eqStep eq j gs) as [[g1 dl]|] eqn:E; simpl in H; [|discriminate].
    constructor; [by eapply eqStep_indicesBelow|].
    apply eqStep_Frame in E as [_ _ _ _ _ _ Hv _]. rewrite <- Hv. by eapply IH.
Qed.

(** X16. With at least one equation and [maxIter >= 1], [Solve] returns if
    and only if both body indices of every equation lie in
    [[0, nBodies)]; an index out of range anywhere in the list makes the
    call panic. *)
Theorem Solve_returns_iff_indices_in_range frameDelta nBodies gs :
  equations gs ≠ [] → 1 <= maxIter gs →
  is_Some (Solve frameDelta nBodies gs)
  ↔ Forall (indicesBelow (Z.to_nat nBodies)) (equations gs).
Proof.
  intros Hne Hm. split; [|apply Solve_is_Some].
  intros [[iter gs'] HS]. apply Solve_Some in HS. cbv zeta in HS.
  destruct (setup_Ready (timestep frameDelta) (Z.to_nat nBodies) gs) as [He Em _ Hv _ _ _ _].
  destruct HS as [(Hnil & _)|(_ & it & g' & eqs' & Hit & _)]; [done|].
  rewrite Em in Hit. destruct (Z.to_nat (maxIter gs)) as [|r] eqn:Er; [lia|].
  simpl in Hit. unfold pass in Hit.
  destruct (eqLoop _ _ _ _) as [[g1 tot]|] eqn:E; simpl in Hit; [|discriminate].
  apply eqLoop_indicesBelow in E. by rewrite Hv, length_replicate, He in E.
Qed.

Lemma iterate_count tolSq remaining iter gs iter' gs' :
  iterate tolSq remaining iter gs = Some (iter', gs') →
  0 <= iter → iter + Z.of_nat remaining <= Int.max_int →
  iter <= iter' <= iter + Z.of_nat remaining.
Proof.
  pose proof (eq_refl : Int.max_int = 2 ^ 63 - 1) as Hmax63.
  revert iter gs. induction remaining as [|r IH]; intros iter gs H H0 Hmax; simpl in H.
  - injection H as <- <-. lia.
  - destruct (pass gs) as [[g1 tot]|]; simpl in H; [|discriminate].
    destruct (Float32.ltb _ _).
    + injection H as <- <-. lia.
    + rewrite Int_add_1 in H by lia. apply IH in H; lia.
Qed.

(** X17. The count that [Solve] returns is [0] for an empty list and lies
    between [1] and [maxIter + 1] otherwise ([1] when [maxIter] is not
    positive), whatever the equations are. *)
Theorem Solve_count_bounds frameDelta nBodies gs iter gs' :
  maxIter gs < Int.max_int →
  Solve frameDelta nBodies gs = Some (iter, gs') →
  (equations gs = [] ∧ iter = 0)
  ∨ (equations gs ≠ [] ∧ 1 <= iter <= Z.max (maxIter gs) 0 + 1).
Proof.
  pose proof (eq_refl : Int.max_int = 2 ^ 63 - 1) as Hmax63.
  intros Hm HS. apply Solve_Some in HS. cbv zeta in HS.
  destruct (setup_Ready (timestep frameDelta) (Z.to_nat nBodies) gs) as [_ Em _ _ _ _ _ _].
  destruct HS as [(Hnil & -> & _)|(Hne & it & g' & eqs' & Hit & _ & -> & _)]; [by left|].
  right. split; [done|]. rewrite Em in Hit.
  apply iterate_count in Hit; [|lia|lia].
  rewrite Int_add_1 by lia. lia.
Qed.

Lemma deltasOfLoop_length eqs j gs tot gs' tot' :
  eqLoop eqs j gs tot = Some (gs', tot') →
  length (deltasOfLoop eqs j gs) = length eqs.
Proof.
  revert j gs tot. induction eqs as [|eq rest IH]; intros j gs tot H; simpl in *; [done|].
  destruct (eqStep eq j gs) as [[g1 dl]|] eqn:E; simpl in H; [|discriminate].
  simpl. f_equal. by eapply IH.
Qed.

Lemma deltasOfIterate_length tolSq remaining iter gs iter' gs' :
  iterate tolSq remaining iter gs = Some (iter', gs') →
  0 <= iter → iter + Z.of_nat remaining <= Int.max_int →
  length (deltasOfIterate tolSq remaining gs)
  = (length (equations gs) * Z.to_nat (Z.min (iter' - iter + 1) (Z.of_nat remaining)))%nat.
Proof.
  pose proof (eq_refl : Int.max_int = 2 ^ 63 - 1) as Hmax63.
  revert iter gs. induction remaining as [|r IH]; intros iter gs H H0 Hmax.
  - simpl in *. injection H as <- <-. rewrite Z.min_r by lia. simpl. lia.
  - cbn [iterate deltasOfIterate] in *.
    destruct (pass gs) as [[g1 tot]|] eqn:E; simpl in H; [|discriminate].
    rewrite length_app, (deltasOfLoop_length _ _ _ _ _ _ E).
    destruct (Float32.ltb _ _).
    + injection H as <- <-. rewrite Z.min_l by lia. simpl.
      replace (Z.to_nat (iter - iter + 1)) with 1%nat by lia. lia.
    + rewrite Int_add_1 in H by lia.
      pose proof (iterate_count _ _ _ _ _ _ H ltac:(lia) ltac:(lia)) as Hc.
      rewrite (IH _ _ H) by lia.
      apply pass_Frame in E as [He _ _ _ _ _ _ _]. rewrite He.
      replace (Z.to_nat (Z.min (iter' - iter + 1) (Z.of_nat (S r))))
        with (S (Z.to_nat (Z.min (iter' - (iter + 1) + 1) (Z.of_nat r)))) by lia.
      lia.
Qed.

Lemma deltas_count_aux frameDelta nBodies gs iter gs' :
  0 <= maxIter gs < Int.max_int →
  Solve frameDelta nBodies gs = Some (iter, gs') →
  length (appliedDeltas frameDelta nBodies gs)
  = (length (equations gs) * Z.to_nat (Z.min iter (maxIter gs)))%nat.
Proof.
  pose proof (eq_refl : Int.max_int = 2 ^ 63 - 1) as Hmax63.
  intros Hm HS. apply Solve_Some in HS. cbv zeta in HS. unfold appliedDeltas.
  set (g := setup (timestep frameDelta) (Z.to_nat nBodies) gs) in *.
  destruct (setup_Ready (timestep frameDelta) (Z.to_nat nBodies) gs)
    as [He Em _ Hv Hw Hc Hb Hl]. fold g in He, Em, Hv, Hw, Hc, Hb, Hl.
  destruct HS as [(Hnil & -> & _)|(Hne & it & g' & eqs' & Hit & _ & -> & _)].
  - destruct (iterate_is_Some (Z.to_nat nBodies)
                (Float32.mul (tolerance g) (tolerance g)) (Z.to_nat (maxIter g)) 0 g)
      as [[it g'] Hit]; rewrite ?He, ?Hnil, ?Hv, ?Hw, ?length_replicate; simpl; try lia; try done.
    rewrite (deltasOfIterate_length _ _ _ _ _ _ Hit), He, Hnil by (rewrite ?Em; lia). done.
  - rewrite (deltasOfIterate_length _ _ _ _ _ _ Hit), He by (rewrite ?Em; lia).
    pose proof (iterate_count _ _ _ _ _ _ Hit ltac:(lia) ltac:(rewrite Em; lia)) as Hcnt.
    rewrite Em in *. rewrite Int_add_1 by lia. f_equal. f_equal. lia.
Qed.

(** X18. The passes that a call makes number the smaller of the count it
    returns and [maxIter]: the call applies that many updates to each
    equation, so the returned count overstates the work by one exactly
    when it is [maxIter + 1]. *)
Theorem Solve_count_and_passes frameDelta nBodies gs iter gs' :
  0 <= maxIter gs < Int.max_int →
  Solve frameDelta nBodies gs = Some (iter, gs') →
  length (appliedDeltas frameDelta nBodies gs)
  = (length (equations gs) * Z.to_nat (Z.min iter (maxIter gs)))%nat.
Proof. apply deltas_count_aux. Qed.

Lemma mul_self_not_below_zero t :
  Float32.ltb (Float32.mul t t) Float32.zero = false.
Proof.
  destruct t as [[]|[]| |[] m e]; try reflexivity;
    unfold Float32.mul, SFmul, binary_round_aux; cbn [xorb];
    destruct (shr_fexp _ _ _ _ _) as [mrs' e'];
    destruct (shr_fexp _ _ _ _ _) as [mrs'' e''];
    destruct (shr_m mrs''); try reflexivity;
    destruct (Z.leb _ _); reflexivity.
Qed.

Lemma no_exit_tolerance tol t :
  Float32.is_zero tol = true ∨ Float32.is_nan tol = true →
  Float32.ltb (Float32.mul t t) (Float32.mul tol tol) = false.
Proof.
  intros [H|H].
  - destruct tol as [[]| | |]; try discriminate; apply mul_self_not_below_zero.
  - destruct tol; try discriminate. apply ltb_nan_r.
Qed.

Lemma iterate_no_exit tolSq remaining iter gs iter' gs' :
  (∀ t, Float32.ltb (Float32.mul t t) tolSq = false) →
  iterate tolSq remaining iter gs = Some (iter', gs') →
  0 <= iter → iter + Z.of_nat remaining <= Int.max_int →
  iter' = iter + Z.of_nat remaining.
Proof.
  pose proof (eq_refl : Int.max_int = 2 ^ 63 - 1) as Hmax63.
  intros Hno. revert iter gs. induction remaining as [|r IH]; intros iter gs H H0 Hmax;
    simpl in H.
  - injection H as <- <-. lia.
  - destruct (pass gs) as [[g1 tot]|]; simpl in H; [|discriminate].
    rewrite Hno, Int_add_1 in H by lia. apply IH in H; lia.
Qed.

(** X19. A tolerance of zero (or a NaN) switches the early exit off: no
    total, however small, passes the test [total^2 < tolerance^2], so a
    returning call with at least one equation has made all [maxIter]
    passes and returns [maxIter + 1]. *)
Theorem Solve_zero_tolerance frameDelta nBodies gs iter gs' :
  Float32.is_zero (tolerance gs) = true ∨ Float32.is_nan (tolerance gs) = true →
  equations gs ≠ [] → 0 <= maxIter gs < Int.max_int →
  Solve frameDelta nBodies gs = Some (iter, gs') →
  iter = maxIter gs + 1
  ∧ length (appliedDeltas frameDelta nBodies gs)
    = (length (equations gs) * Z.to_nat (maxIter gs))%nat.
Proof.
  pose proof (eq_refl : Int.max_int = 2 ^ 63 - 1) as Hmax63.
  intros Htol Hne Hm HS.
  assert (iter = maxIter gs + 1) as ->.
  { apply Solve_Some in HS. cbv zeta in HS.
    destruct (setup_Ready (timestep frameDelta) (Z.to_nat nBodies) gs)
      as [_ Em Et _ _ _ _ _].
    destruct HS as [(Hnil & _)|(_ & it & g' & eqs' & Hit & _ & -> & _)]; [done|].
    rewrite Em, Et in Hit.
    apply iterate_no_exit in Hit; [|intros t; by apply no_exit_tolerance|lia|lia].
    subst it. rewrite Int_add_1 by lia. lia. }
  split; [done|].
  pose proof (deltas_count_aux frameDelta nBodies gs _ gs' Hm HS) as ->.
  f_equal. f_equal. lia.
Qed.

Lemma leb_not_ltb x y : Float32.leb y x = true → Float32.ltb x y = false.
Proof.
  unfold Float32.leb, Float32.ltb, SFleb, SFltb. rewrite (SFcompare_antisym y x).
  by destruct (SFcompare y x) as [[]|].
Qed.

Lemma ltb_neg_infinity x : Float32.ltb x Float32.neg_infinity = false.
Proof. by destruct x as [[]|[]| |[] m e]. Qed.

(** X20. The clamp leaves an update alone when the sum it aims at is
    within the bounds, and with the bounds [-Inf] and [+Inf] of an
    equality constraint it leaves every update alone, a NaN included. *)
Theorem clamp_leaves_admissible_updates lambdaJ deltaLambda :
  (∀ minForce maxForce,
     within minForce maxForce (Float32.add lambdaJ deltaLambda) →
     clamp lambdaJ deltaLambda minForce maxForce = deltaLambda)
  ∧ clamp lambdaJ deltaLambda Float32.neg_infinity Float32.infinity = deltaLambda.
Proof.
  split.
  - intros mn mx [Hlo Hhi]. unfold clamp.
    by rewrite (leb_not_ltb _ _ Hlo), (leb_not_ltb _ _ Hhi).
  - unfold clamp. by rewrite ltb_neg_infinity, ltb_infinity.
Qed.

Lemma Solve_keeps_configuration frameDelta nBodies gs iter gs' :
  Solve frameDelta nBodies gs = Some (iter, gs') →
  Forall2 sameButMultiplier (equations gs) (equations gs')
  ∧ maxIter gs' = maxIter gs ∧ tolerance gs' = tolerance gs
  ∧ length (elems (VelocityDeltas gs')) = Z.to_nat nBodies
  ∧ length (elems (AngularVelocityDeltas gs')) = Z.to_nat nBodies
  ∧ length (elems (solveLambda gs')) = length (equations gs)
  ∧ length (elems (solveInvCs gs')) = length (equations gs)
  ∧ length (elems (solveBs gs')) = length (equations gs).
Proof.
  intros HS. apply Solve_Some in HS. cbv zeta in HS.
  set (g := setup (timestep frameDelta) (Z.to_nat nBodies) gs) in *.
  destruct (setup_Ready (timestep frameDelta) (Z.to_nat nBodies) gs)
    as [He Em Et Hv Hw Hc Hb Hl]. fold g in He, Em, Et, Hv, Hw, Hc, Hb, Hl.
  assert (Hrefl : Forall2 sameButMultiplier (equations gs) (equations gs)).
  { apply Forall2_same_length_lookup. split; [done|].
    intros j e e' Hj Hj'. rewrite Hj in Hj'. injection Hj' as <-.
    apply sameButMultiplier_refl. }
  destruct HS as [(Hnil & _ & ->)|(_ & it & g' & eqs' & Hit & Hset & _ & ->)].
  - rewrite He, Em, Et, Hv, Hw, Hl, Hc, Hb, !length_replicate, !length_map. done.
  - apply iterate_Frame in Hit as [He' Em' Et' Ec' Eb' Ll' Lv' Lw'].
    apply setMultipliers_Some in Hset as [Hlen Hk]. rewrite He', He in Hlen, Hk.
    simpl. rewrite Em', Em, Et', Et, Lv', Hv, Lw', Hw, Ll', Hl, Ec', Hc, Eb', Hb.
    rewrite !length_replicate, !length_map. repeat split; try done.
    apply Forall2_same_length_lookup. split; [done|].
    intros j e e' Hj Hj'. destruct (Hk j e Hj) as (l & _ & He2).
    rewrite He2 in Hj'. injection Hj' as <-. apply sameButMultiplier_SetMultiplier.
Qed.

(** The caches that a returning call leaves are those of the equations it
    was given. *)
Lemma Solve_caches frameDelta nBodies gs iter gs' :
  Solve frameDelta nBodies gs = Some (iter, gs') →
  elems (solveInvCs gs') = map invCOf (equations gs)
  ∧ elems (solveBs gs') = map (λ eq, ComputeB eq (timestep frameDelta)) (equations gs).
Proof.
  intros HS. apply Solve_Some in HS. cbv zeta in HS.
  destruct (setup_Ready (timestep frameDelta) (Z.to_nat nBodies) gs)
    as [_ _ _ _ _ Hc Hb _].
  destruct HS as [(_ & _ & ->)|(_ & it & g' & eqs' & Hit & _ & _ & ->)]; [done|].
  apply iterate_Frame in Hit as [_ _ _ Ec' Eb' _ _ _]. simpl. by rewrite Ec', Eb'.
Qed.

Lemma sameButMultiplier_caches h eqs eqs' :
  Forall2 sameButMultiplier eqs eqs' →
  map invCOf eqs' = map invCOf eqs
  ∧ map (λ eq, ComputeB eq h) eqs' = map (λ eq, ComputeB eq h) eqs.
Proof.
  induction 1 as [|e e' l l' He _ [IH1 IH2]]; simpl; [done|].
  destruct He as (_ & _ & HC & HB & _). unfold invCOf at 1 3.
  by rewrite HC, HB, IH1, IH2.
Qed.

(** X21. Solving again without touching the inputs gives the same result:
    the second call returns the same count and leaves the same equations
    (multipliers included), the same two solution arrays and the same three
    per-equation buffers (accumulated impulses, cached [1/C] and cached
    [B]) as the first, and the configuration is unchanged, since nothing
    of the first call is carried over. *)
Theorem Solve_again_same_outcome frameDelta nBodies gs iter gs' :
  Solve frameDelta nBodies gs = Some (iter, gs') →
  outcome <$> Solve frameDelta nBodies gs' = Some (outcome (iter, gs'))
  ∧ ∃ gs'',
      Solve frameDelta nBodies gs' = Some (iter, gs'')
      ∧ equations gs'' = equations gs'
      ∧ elems (VelocityDeltas gs'') = elems (VelocityDeltas gs')
      ∧ elems (AngularVelocityDeltas gs'') = elems (AngularVelocityDeltas gs')
      ∧ elems (solveLambda gs'') = elems (solveLambda gs')
      ∧ elems (solveInvCs gs'') = elems (solveInvCs gs')
      ∧ elems (solveBs gs'') = elems (solveBs gs')
      ∧ maxIter gs'' = maxIter gs' ∧ tolerance gs'' = tolerance gs'.
Proof.
  intros HS. destruct (Solve_keeps_configuration _ _ _ _ _ HS) as (He & Em & Et & _).
  assert (Hout : outcome <$> Solve frameDelta nBodies gs' = Some (outcome (iter, gs'))).
  { rewrite Solve_solveValues, Em, Et.
    rewrite <- (solveValues_sameButMultiplier _ _ _ _ _ _ He).
    by rewrite <- Solve_solveValues, HS. }
  split; [exact Hout|].
  destruct (Solve frameDelta nBodies gs') as [[iter2 gs'']|] eqn:HS2; [|discriminate].
  unfold outcome, view in Hout. simpl in Hout. injection Hout as Hi Heq Hl Hv Hw.
  subst iter2. exists gs''. split; [done|]. split; [done|].
  destruct (Solve_caches _ _ _ _ _ HS) as [Hc1 Hb1].
  destruct (Solve_caches _ _ _ _ _ HS2) as [Hc2 Hb2].
  destruct (sameButMultiplier_caches (timestep frameDelta) _ _ He) as [Hc Hb].
  destruct (Solve_keeps_configuration _ _ _ _ _ HS2) as (_ & Em2 & Et2 & _).
  repeat split; congruence.
Qed.

(** X22. After every returning call the two solution arrays have
    [nBodies] entries (none for a negative [nBodies]) and the three
    per-equation buffers have one entry per equation; the equation list
    keeps its length and the configuration its values. *)
Theorem Solve_buffer_lengths frameDelta nBodies gs iter gs' :
  Solve frameDelta nBodies gs = Some (iter, gs') →
  length (elems (VelocityDeltas gs')) = Z.to_nat nBodies
  ∧ length (elems (AngularVelocityDeltas gs')) = Z.to_nat nBodies
  ∧ length (elems (solveLambda gs')) = length (equations gs)
  ∧ length (elems (solveInvCs gs')) = length (equations gs)
  ∧ length (elems (solveBs gs')) = length (equations gs)
  ∧ length (equations gs') = length (equations gs)
  ∧ maxIter gs' = maxIter gs ∧ tolerance gs' = tolerance gs.
Proof.
  intros HS.
  destruct (Solve_keeps_configuration _ _ _ _ _ HS) as (He & Em & Et & Hv & Hw & Hl & Hc & Hb).
  apply Forall2_length in He. repeat split; congruence.
Qed.

(** X23. A body that no equation refers to keeps the zero vector in both
    solution arrays, whatever the updates of the equations are (infinite
    or NaN ones included). *)
Theorem unreferenced_body_stays_at_rest frameDelta nBodies gs iter gs' i :
  0 <= i < nBodies →
  Forall (untouched i) (equations gs) →
  Solve frameDelta nBodies gs = Some (iter, gs') →
  restsAt i gs'.
Proof.
  intros Hi Hun HS. apply Solve_Some in HS. cbv zeta in HS.
  set (g := setup (timestep frameDelta) (Z.to_nat nBodies) gs) in *.
  destruct (setup_Ready (timestep frameDelta) (Z.to_nat nBodies) gs) as [He _ _ Hv Hw _ _ _].
  fold g in He, Hv, Hw.
  assert (restsAt i g) as Hg.
  { split; [rewrite Hv | rewrite Hw]; apply lookup_replicate_2; lia. }
  destruct HS as [(_ & _ & ->)|(_ & it & g' & eqs' & Hit & _ & _ & ->)]; [done|].
  cut (restsAt i g'); [done|].
  eapply (iterate_invariant (equations gs) (restsAt i) (λ _, True));
    [| exact He | exact Hit | by apply Forall_forall | exact Hg].
  intros k e g0 g1 dl Hk Hstep _ [P1 P2].
  destruct (Forall_lookup_1 _ _ _ _ Hun Hk) as [HA HB].
  apply eqStep_Some in Hstep as []. split.
  - eapply addAt_keeps_zero3; [exact sf_addVB | lia | | done].
    eapply addAt_keeps_zero3; [exact sf_addVA | lia | done | done].
  - eapply addAt_keeps_zero3; [exact sf_addWB | lia | | done].
    eapply addAt_keeps_zero3; [exact sf_addWA | lia | done | done].
Qed.

Lemma div_by_zero_not_finite l h :
  Float32.is_zero h = true → Float32.is_finite (Float32.div l h) = false.
Proof. destruct h, l; try discriminate; reflexivity. Qed.

(** X27. The division by the timestep is unguarded: when the timestep is
    zero (a frame of no duration), no equation has a finite multiplier
    after a returning call; each is a NaN or an infinity, whatever the
    equations are. *)
Theorem Solve_zero_timestep frameDelta nBodies gs iter gs' :
  Float32.is_zero (timestep frameDelta) = true →
  Solve frameDelta nBodies gs = Some (iter, gs') →
  Forall (λ eq, Float32.is_finite (multiplier eq) = false) (equations gs').
Proof.
  intros Hz H. apply Solve_Some in H. cbv zeta in H.
  pose proof (setup_Ready (timestep frameDelta) (Z.to_nat nBodies) gs) as [].
  destruct H as [(Hnil & _ & ->)|(_ & it & g' & eqs' & Hi & Hs & _ & ->)].
  - rewrite rd_equations0, Hnil. constructor.
  - simpl. apply setMultipliers_Some in Hs as [Hlen Hk].
    apply Forall_lookup. intros k e' He'.
    destruct (lookup_lt_is_Some_2 (equations g') k) as [eq Heq].
    { rewrite <- Hlen. by eapply lookup_lt_Some. }
    destruct (Hk k eq Heq) as (l & _ & He). rewrite He in He'. injection He' as <-.
    simpl. by apply div_by_zero_not_finite.
Qed.

(* ===================================================================== *)
(** ** The solver: storage is reused *)
(* ===================================================================== *)

Lemma cap_reslice0 {A} (s : slice A) : cap (Slice.reslice0 s) = cap s.
Proof. unfold cap, Slice.reslice0. simpl. by rewrite length_app. Qed.

Lemma cap_append {A} (s : slice A) x :
  cap (Slice.append s x) = Nat.max (cap s) (S (length (elems s))).
Proof.
  unfold cap, Slice.append. simpl. rewrite length_app. simpl.
  destruct (spare s); simpl; lia.
Qed.

Lemma resetDeltas_cap n gs :
  cap (VelocityDeltas (resetDeltas n gs))
  = Nat.max (cap (VelocityDeltas gs)) (length (elems (VelocityDeltas gs)) + n)
  ∧ cap (AngularVelocityDeltas (resetDeltas n gs))
    = Nat.max (cap (AngularVelocityDeltas gs)) (length (elems (AngularVelocityDeltas gs)) + n).
Proof.
  revert gs. induction n as [|n IH]; intros gs; cbn [resetDeltas].
  - unfold cap. lia.
  - match goal with |- context [resetDeltas n ?g] => destruct (IH g) as [-> ->] end.
    simpl. rewrite !cap_append, !length_app. simpl. unfold cap. lia.
Qed.

Lemma precompute_cap h eqs gs :
  cap (solveInvCs (precompute h eqs gs))
  = Nat.max (cap (solveInvCs gs)) (length (elems (solveInvCs gs)) + length eqs)
  ∧ cap (solveBs (precompute h eqs gs))
    = Nat.max (cap (solveBs gs)) (length (elems (solveBs gs)) + length eqs)
  ∧ cap (solveLambda (precompute h eqs gs))
    = Nat.max (cap (solveLambda gs)) (length (elems (solveLambda gs)) + length eqs).
Proof.
  revert gs. induction eqs as [|eq rest IH]; intros gs; cbn [precompute].
  - unfold cap. simpl. lia.
  - match goal with |- context [precompute h rest ?g] => destruct (IH g) as (-> & -> & ->) end.
    simpl. rewrite !cap_append, !length_app. simpl. unfold cap. lia.
Qed.

Lemma eqStep_cap eq j gs gs' dl :
  eqStep eq j gs = Some (gs', dl) →
  cap (VelocityDeltas gs') = cap (VelocityDeltas gs)
  ∧ cap (AngularVelocityDeltas gs') = cap (AngularVelocityDeltas gs)
  ∧ cap (solveLambda gs') = cap (solveLambda gs)
  ∧ cap (solveInvCs gs') = cap (solveInvCs gs)
  ∧ cap (solveBs gs') = cap (solveBs gs).
Proof.
  intros H. pose proof (eqStep_Frame _ _ _ _ _ H) as [_ _ _ Ec Eb Ll Lv Lw].
  apply eqStep_Some in H as [].
  apply addAt_Some in sf_addVA as (? & _ & _ & _ & S1), sf_addVB as (? & _ & _ & _ & S2).
  apply addAt_Some in sf_addWA as (? & _ & _ & _ & S3), sf_addWB as (? & _ & _ & _ & S4).
  unfold cap. rewrite Ec, Eb, Ll, Lv, Lw, sf_lambda_spare, S2, S1, S4, S3. done.
Qed.

(** X24. A call does not reallocate a buffer that is large enough: when
    the capacity that a solution array has at the call is at least
    [nBodies], and that of a per-equation buffer at least the number of
    equations, the capacity after the call is the one before it. *)
Theorem Solve_reuses_storage frameDelta nBodies gs iter gs' :
  Solve frameDelta nBodies gs = Some (iter, gs') →
  ((Z.to_nat nBodies <= cap (VelocityDeltas gs))%nat →
   cap (VelocityDeltas gs') = cap (VelocityDeltas gs))
  ∧ ((Z.to_nat nBodies <= cap (AngularVelocityDeltas gs))%nat →
     cap (AngularVelocityDeltas gs') = cap (AngularVelocityDeltas gs))
  ∧ ((length (equations gs) <= cap (solveLambda gs))%nat →
     cap (solveLambda gs') = cap (solveLambda gs))
  ∧ ((length (equations gs) <= cap (solveInvCs gs))%nat →
     cap (solveInvCs gs') = cap (solveInvCs gs))
  ∧ ((length (equations gs) <= cap (solveBs gs))%nat →
     cap (solveBs gs') = cap (solveBs gs)).
Proof.
  intros HS. apply Solve_Some in HS. cbv zeta in HS.
  set (g := setup (timestep frameDelta) (Z.to_nat nBodies) gs) in *.
  assert (Hg : cap (VelocityDeltas g)
               = Nat.max (cap (VelocityDeltas gs)) (Z.to_nat nBodies)
             ∧ cap (AngularVelocityDeltas g)
               = Nat.max (cap (AngularVelocityDeltas gs)) (Z.to_nat nBodies)
             ∧ cap (solveLambda g)
               = Nat.max (cap (solveLambda gs)) (length (equations gs))
             ∧ cap (solveInvCs g)
               = Nat.max (cap (solveInvCs gs)) (length (equations gs))
             ∧ cap (solveBs g)
               = Nat.max (cap (solveBs gs)) (length (equations gs))).
  { subst g. unfold setup.
    destruct (resetDeltas_facts (Z.to_nat nBodies) (Reset gs))
      as (Re & _ & _ & Ri & Rb & Rl & _ & _).
    destruct (precompute_facts (timestep frameDelta)
                (equations (resetDeltas (Z.to_nat nBodies) (Reset gs)))
                (resetDeltas (Z.to_nat nBodies) (Reset gs)))
      as (_ & _ & _ & Pv & Pw & _ & _ & _).
    destruct (precompute_cap (timestep frameDelta)
                (equations (resetDeltas (Z.to_nat nBodies) (Reset gs)))
                (resetDeltas (Z.to_nat nBodies) (Reset gs))) as (-> & -> & ->).
    rewrite Pv, Pw, Re, Ri, Rb, Rl.
    destruct (resetDeltas_cap (Z.to_nat nBodies) (Reset gs)) as [-> ->].
    simpl. rewrite !cap_reslice0. done. }
  destruct Hg as (Hv & Hw & Hl & Hc & Hb).
  assert (Hend : cap (VelocityDeltas gs') = cap (VelocityDeltas g)
                 ∧ cap (AngularVelocityDeltas gs') = cap (AngularVelocityDeltas g)
                 ∧ cap (solveLambda gs') = cap (solveLambda g)
                 ∧ cap (solveInvCs gs') = cap (solveInvCs g)
                 ∧ cap (solveBs gs') = cap (solveBs g)).
  { destruct HS as [(_ & _ & ->)|(_ & it & g' & eqs' & Hit & _ & _ & ->)]; [done|].
    simpl.
    eapply (iterate_invariant (equations g)
              (λ g0, cap (VelocityDeltas g0) = cap (VelocityDeltas g)
                     ∧ cap (AngularVelocityDeltas g0) = cap (AngularVelocityDeltas g)
                     ∧ cap (solveLambda g0) = cap (solveLambda g)
                     ∧ cap (solveInvCs g0) = cap (solveInvCs g)
                     ∧ cap (solveBs g0) = cap (solveBs g))
              (λ _, True)); [| done | exact Hit | by apply Forall_forall | done].
    intros k e g0 g1 dl _ Hstep _ (P1 & P2 & P3 & P4 & P5).
    destruct (eqStep_cap _ _ _ _ _ Hstep) as (-> & -> & -> & -> & ->). done. }
  destruct Hend as (-> & -> & -> & -> & ->). rewrite Hv, Hw, Hl, Hc, Hb.
  repeat split; lia.
Qed.

(* ===================================================================== *)
(** ** The added properties at sample inputs *)
(* ===================================================================== *)

Lemma AttribOffset_missing_name_witness :
  gls.AttribOffset VBOExamples.interleaved "VertexNormal" = 5.
Proof.
  rewrite (AttribOffset_missing_name VBOExamples.interleaved "VertexNormal"); reflexivity.
Defined.

Lemma AttribOffset_is_prefix_stride_witness :
  ∃ k, gls.attribs VBOExamples.interleaved !! k = Some (gls.mkVBOattrib "VertexTexcoord" 2)
       ∧ (∀ j b, (j < k)%nat → gls.attribs VBOExamples.interleaved !! j = Some b →
            gls.Name b ≠ "VertexTexcoord"%string)
       ∧ gls.AttribOffset VBOExamples.interleaved "VertexTexcoord"
         = gls.strideLoop (take k (gls.attribs VBOExamples.interleaved)) 0.
Proof.
  assert (H : gls.Attrib VBOExamples.interleaved "VertexTexcoord"
              = Some (gls.mkVBOattrib "VertexTexcoord" 2)) by reflexivity.
  destruct (AttribOffset_is_prefix_stride VBOExamples.interleaved "VertexTexcoord" _ H)
    as (k & Hk & _ & Hfirst & Hoff & _).
  exists k. auto.
Defined.

Lemma Stride_is_sum_witness :
  gls.Stride VBOExamples.interleaved = 5 ∧ gls.StrideSize VBOExamples.interleaved = 20.
Proof.
  destruct (Stride_is_sum VBOExamples.interleaved) as [H1 H2].
  - repeat constructor; cbv; discriminate.
  - reflexivity.
  - rewrite H1, H2. split; reflexivity.
Defined.

Lemma AttribOffset_within_stride_witness :
  0 <= gls.AttribOffset VBOExamples.interleaved "VertexTexcoord"
    <= gls.Stride VBOExamples.interleaved
  ∧ gls.AttribOffset VBOExamples.interleaved "VertexTexcoord" + 2
    <= gls.Stride VBOExamples.interleaved.
Proof.
  destruct (AttribOffset_within_stride VBOExamples.interleaved "VertexTexcoord") as [H1 H2].
  - repeat constructor; cbv; discriminate.
  - reflexivity.
  - split; [exact H1|]. apply (H2 (gls.mkVBOattrib "VertexTexcoord" 2)). reflexivity.
Defined.

Lemma Transfer_twice_witness :
  ∃ vbo' calls,
    gls.Transfer 34962 5126 VBOExamples.bytes VBOExamples.interleaved VBOExamples.program
    = Some (vbo', calls)
    ∧ length calls = 8%nat
    ∧ gls.Transfer 34962 5126 VBOExamples.bytes vbo' VBOExamples.program = Some (vbo', []).
Proof.
  eassert (E : gls.Transfer 34962 5126 VBOExamples.bytes VBOExamples.interleaved
                            VBOExamples.program = Some (_, _)) by (vm_compute; reflexivity).
  eexists _, _. split; [exact E|]. split; [reflexivity|].
  exact (Transfer_twice _ _ _ _ _ _ _ VBOExamples.program E).
Defined.

Lemma Transfer_never_panics_witness :
  is_Some (gls.Transfer 34962 5126 VBOExamples.bytes
                        (gls.SetBuffer VBOExamples.interleaved []) VBOExamples.program).
Proof. apply Transfer_never_panics. reflexivity. Defined.

Lemma Transfer_uploads_when_flagged_witness :
  ∃ vbo' calls,
    gls.Transfer 34962 5126 VBOExamples.bytes VBOExamples.interleaved VBOExamples.program
    = Some (vbo', calls)
    ∧ gls.update vbo' = false
    ∧ filter (λ e, isBufferData e = true) calls
      = [(1%nat, gls.BufferData 34962 20 VBOExamples.vertex 35044)].
Proof.
  eassert (E : gls.Transfer 34962 5126 VBOExamples.bytes VBOExamples.interleaved
                            VBOExamples.program = Some (_, _)) by (vm_compute; reflexivity).
  assert (Hb : VBOExamples.bytes (gls.buffer VBOExamples.interleaved) ≠ 0) by discriminate.
  eexists _, _. split; [exact E|].
  destruct (Transfer_uploads_when_flagged _ _ _ _ _ _ _ Hb E)
    as (Hu & _ & _ & _ & Hf & _).
  split; [exact Hu | exact Hf].
Defined.

Lemma Transfer_initialises_once_witness :
  ∃ vbo' calls,
    gls.Transfer 34962 5126 VBOExamples.bytes VBOExamples.interleaved VBOExamples.program
    = Some (vbo', calls)
    ∧ gls.gs vbo' = Some 1%nat ∧ gls.handle vbo' = 7
    ∧ head calls = Some (1%nat, gls.GenBuffer 7).
Proof.
  eassert (E : gls.Transfer 34962 5126 VBOExamples.bytes VBOExamples.interleaved
                            VBOExamples.program = Some (_, _)) by (vm_compute; reflexivity).
  eexists _, _. split; [exact E|].
  pose proof (Transfer_initialises_once _ _ _ _ _ _ _ E) as H.
  simpl in H. destruct H as [(H & _)|(_ & Hg & Hh & _ & Hhd)]; [discriminate H|].
  repeat split; assumption.
Defined.

Lemma Transfer_offsets_agree_witness :
  ∃ vbo' calls,
    gls.Transfer 34962 5126 VBOExamples.bytes VBOExamples.interleaved VBOExamples.program
    = Some (vbo', calls)
    ∧ calls !! 5%nat = Some (1%nat, gls.VertexAttribPointer 1 2 5126 false 20 12).
Proof.
  eassert (E : gls.Transfer 34962 5126 VBOExamples.bytes VBOExamples.interleaved
                            VBOExamples.program = Some (_, _)) by (vm_compute; reflexivity).
  assert (Hb : VBOExamples.bytes (gls.buffer VBOExamples.interleaved) ≠ 0) by discriminate.
  assert (Hloc : Forall (λ a, 0 <= gls.GetAttribLocation VBOExamples.program (gls.Name a))
                        (gls.attribs VBOExamples.interleaved))
    by (repeat constructor; cbv; discriminate).
  assert (Hdis : distinctNames (gls.attribs VBOExamples.interleaved))
    by (unfold distinctNames; apply (bool_decide_unpack _); vm_compute; exact I).
  eexists _, _. split; [exact E|].
  exact (Transfer_offsets_agree _ _ _ VBOExamples.interleaved _ _ _ 1%nat
           (gls.mkVBOattrib "VertexTexcoord" 2)
           eq_refl Hb Hloc Hdis eq_refl E).
Defined.

Lemma Dispose_then_Transfer_witness :
  ∃ vbo1 calls1 vbo3 calls3,
    gls.Transfer 34962 5126 VBOExamples.bytes VBOExamples.interleaved VBOExamples.program
    = Some (vbo1, calls1)
    ∧ gls.Transfer 34962 5126 VBOExamples.bytes (gls.Dispose vbo1).1 VBOExamples.program
      = Some (vbo3, calls3)
    ∧ filter (λ e, isBufferData e = true) calls3 = [].
Proof.
  eassert (E : gls.Transfer 34962 5126 VBOExamples.bytes VBOExamples.interleaved
                            VBOExamples.program = Some (_, _)) by (vm_compute; reflexivity).
  assert (Hb : VBOExamples.bytes (gls.buffer VBOExamples.interleaved) ≠ 0) by discriminate.
  eexists _, _.
  destruct (Dispose_then_Transfer _ _ _ _ _ _ _ VBOExamples.program Hb E)
    as (g0 & vbo3 & _ & _ & _ & HT & _).
  eexists vbo3, _. split; [exact E|]. split; [exact HT|]. reflexivity.
Defined.

Lemma Solve_returns_iff_indices_in_range_witness :
  is_Some (Solve Examples.frame 2 (Examples.solver [Examples.contactEq] 10))
  ∧ ¬ is_Some (Solve Examples.frame 1 (Examples.solver [Examples.contactEq] 10)).
Proof.
  split.
  - apply Solve_returns_iff_indices_in_range; [discriminate | simpl; lia | indices_below].
  - intros H. apply Solve_returns_iff_indices_in_range in H; [|discriminate|simpl; lia].
    apply Forall_cons in H as [[_ [_ H]] _]. simpl in H. lia.
Defined.

Lemma Solve_count_bounds_witness :
  ∃ iter gs',
    Solve Examples.frame 2 (Examples.solver [Examples.contactEq; Examples.pushEq] 10)
    = Some (iter, gs')
    ∧ 1 <= iter <= 11.
Proof.
  destruct (Solve_is_Some Examples.frame 2
              (Examples.solver [Examples.contactEq; Examples.pushEq] 10)) as [[iter gs'] E].
  { indices_below. }
  exists iter, gs'. split; [exact E|].
  assert (Hm : maxIter (Examples.solver [Examples.contactEq; Examples.pushEq] 10)
               < Int.max_int) by reflexivity.
  destruct (Solve_count_bounds _ _ _ _ _ Hm E) as [[H _]|[_ H]].
  - discriminate H.
  - exact H.
Defined.

Lemma Solve_count_and_passes_witness :
  ∃ iter gs',
    Solve Examples.frame 2 (Examples.solver [Examples.contactEq; Examples.pushEq] 10)
    = Some (iter, gs')
    ∧ length (appliedDeltas Examples.frame 2
                (Examples.solver [Examples.contactEq; Examples.pushEq] 10))
      = (2 * Z.to_nat (Z.min iter 10))%nat.
Proof.
  destruct (Solve_is_Some Examples.frame 2
              (Examples.solver [Examples.contactEq; Examples.pushEq] 10)) as [[iter gs'] E].
  { indices_below. }
  exists iter, gs'. split; [exact E|].
  assert (Hm : 0 <= maxIter (Examples.solver [Examples.contactEq; Examples.pushEq] 10)
               < Int.max_int) by (split; [discriminate|reflexivity]).
  exact (Solve_count_and_passes _ _ _ _ _ Hm E).
Defined.

Lemma Solve_zero_tolerance_witness :
  ∃ iter gs', Solve Examples.frame 2 VBOExamples.strictSolver = Some (iter, gs') ∧ iter = 4.
Proof.
  destruct (Solve_is_Some Examples.frame 2 VBOExamples.strictSolver) as [[iter gs'] E].
  { indices_below. }
  exists iter, gs'. split; [exact E|].
  apply (Solve_zero_tolerance Examples.frame 2 VBOExamples.strictSolver iter gs').
  - left. reflexivity.
  - discriminate.
  - split; [discriminate|reflexivity].
  - exact E.
Defined.

Lemma Solve_again_same_outcome_witness :
  ∃ iter gs' gs'',
    Solve Examples.frame 2 (Examples.solver [Examples.contactEq; Examples.pushEq] 10)
    = Some (iter, gs')
    ∧ Solve Examples.frame 2 gs' = Some (iter, gs'')
    ∧ elems (solveInvCs gs'') = elems (solveInvCs gs')
    ∧ elems (solveBs gs'') = elems (solveBs gs').
Proof.
  destruct (Solve_is_Some Examples.frame 2
              (Examples.solver [Examples.contactEq; Examples.pushEq] 10)) as [[iter gs'] E].
  { indices_below. }
  destruct (Solve_again_same_outcome _ _ _ _ _ E)
    as (_ & gs'' & E2 & _ & _ & _ & _ & Hc & Hb & _).
  exists iter, gs', gs''. auto.
Defined.

Lemma Solve_buffer_lengths_witness :
  ∃ iter gs',
    Solve Examples.frame 2 (Examples.solver [Examples.contactEq; Examples.pushEq] 10)
    = Some (iter, gs')
    ∧ length (elems (VelocityDeltas gs')) = 2%nat
    ∧ length (elems (solveLambda gs')) = 2%nat.
Proof.
  destruct (Solve_is_Some Examples.frame 2
              (Examples.solver [Examples.contactEq; Examples.pushEq] 10)) as [[iter gs'] E].
  { indices_below. }
  exists iter, gs'. split; [exact E|].
  destruct (Solve_buffer_lengths _ _ _ _ _ E) as (Hv & _ & Hl & _). split; assumption.
Defined.

Lemma unreferenced_body_stays_at_rest_witness :
  ∃ iter gs',
    Solve Examples.frame 3 (Examples.solver [Examples.contactEq; Examples.pushEq] 10)
    = Some (iter, gs')
    ∧ restsAt 2 gs'.
Proof.
  destruct (Solve_is_Some Examples.frame 3
              (Examples.solver [Examples.contactEq; Examples.pushEq] 10)) as [[iter gs'] E].
  { indices_below. }
  exists iter, gs'. split; [exact E|].
  apply (unreferenced_body_stays_at_rest Examples.frame 3
           (Examples.solver [Examples.contactEq; Examples.pushEq] 10) iter gs' 2);
    [lia| |exact E].
  repeat constructor; discriminate.
Defined.

Lemma Solve_reuses_storage_witness :
  ∃ iter gs',
    Solve Examples.frame 2
          (mkGaussSeidel [Examples.contactEq] Examples.staleV Examples.staleV 10
                         (tolerance NewGaussSeidel)
                         Examples.staleF Examples.staleF Examples.staleF)
    = Some (iter, gs')
    ∧ cap (VelocityDeltas gs') = 3%nat ∧ cap (solveLambda gs') = 3%nat.
Proof.
  destruct (Solve_is_Some Examples.frame 2
              (mkGaussSeidel [Examples.contactEq] Examples.staleV Examples.staleV 10
                             (tolerance NewGaussSeidel)
                             Examples.staleF Examples.staleF Examples.staleF))
    as [[iter gs'] E].
  { indices_below. }
  exists iter, gs'. split; [exact E|].
  destruct (Solve_reuses_storage _ _ _ _ _ E) as (Hv & _ & Hl & _).
  split; [apply Hv | apply Hl]; vm_compute; lia.
Defined.

Lemma SetBuffer_then_Transfer_witness :
  ∃ vbo1 calls1,
    gls.Transfer 34962 5126 VBOExamples.bytes VBOExamples.interleaved VBOExamples.program
    = Some (vbo1, calls1)
    ∧ snd <$> gls.Transfer 34962 5126 VBOExamples.bytes
                (gls.SetUsage (gls.SetBuffer vbo1 [Float32.one]) 35048) VBOExamples.program
      = Some [(1%nat, gls.BindBuffer 34962 7);
              (1%nat, gls.BufferData 34962 4 [Float32.one] 35048)].
Proof.
  eassert (E : gls.Transfer 34962 5126 VBOExamples.bytes VBOExamples.interleaved
                            VBOExamples.program = Some (_, _)) by (vm_compute; reflexivity).
  assert (Hb : VBOExamples.bytes (gls.buffer VBOExamples.interleaved) ≠ 0) by discriminate.
  assert (Hb' : VBOExamples.bytes [Float32.one] ≠ 0) by discriminate.
  assert (Hne : [Float32.one] ≠ []) by discriminate.
  eexists _, _. split; [exact E|].
  destruct (SetBuffer_then_Transfer _ _ _ _ _ _ _ _ 35048 VBOExamples.program Hb Hb' Hne E)
    as [-> _].
  reflexivity.
Defined.

Lemma NewVBO_first_Transfer_witness :
  VBOExamples.bytes [] = 0 ∧ VBOExamples.bytes VBOExamples.vertex ≠ 0
  ∧ length <$> (snd <$> gls.Transfer 34962 5126 VBOExamples.bytes
                  (gls.SetBuffer (addAll (gls.NewVBO 35044)
                                    [gls.mkVBOattrib "VertexPosition" 3;
                                     gls.mkVBOattrib "VertexTexcoord" 2])
                                 VBOExamples.vertex)
                  VBOExamples.program)
    = Some 8%nat.
Proof.
  assert (Hb : VBOExamples.bytes VBOExamples.vertex ≠ 0) by discriminate.
  assert (Hne : VBOExamples.vertex ≠ []) by discriminate.
  split; [reflexivity|]. split; [exact Hb|].
  destruct (NewVBO_first_Transfer 34962 5126 VBOExamples.bytes 35044
              [gls.mkVBOattrib "VertexPosition" 3; gls.mkVBOattrib "VertexTexcoord" 2]
              VBOExamples.vertex VBOExamples.program) as [_ H].
  rewrite (H Hb Hne). reflexivity.
Defined.

Lemma Solve_zero_timestep_witness :
  ∃ iter gs',
    Solve 0 2 (Examples.solver [Examples.contactEq; Examples.pushEq] 10) = Some (iter, gs')
    ∧ Forall (λ eq, Float32.is_finite (multiplier eq) = false) (equations gs').
Proof.
  destruct (Solve_is_Some 0 2 (Examples.solver [Examples.contactEq; Examples.pushEq] 10))
    as [[iter gs'] E].
  { indices_below. }
  exists iter, gs'. split; [exact E|].
  assert (Hz : Float32.is_zero (timestep 0) = true) by reflexivity.
  exact (Solve_zero_timestep 0 2 _ iter gs' Hz E).
Defined.
